(** * House price preprocessing helpers ([ml_utils.py]) in Rocq

    A shallow embedding of the table transforms of [src/ml_utils.py] and the
    properties the specification states about them.

    Modelling conventions.
    - A pandas column is either of object dtype (text cells) or numeric; a
      missing entry (NaN / None) is [None], a present one is [Some v].
    - Numeric cells are exact rationals ([Q]).  A float result that is not a
      number (NaN) is [None]; a division by zero yields [None] as well.
      Arithmetic on [Q] is exact, where numpy rounds to binary64 after each
      operation: a score of the target mean encoder is the exact value of
      its expression here, and [Binary64.smooth] is the rounded expression.
    - Data frames are Python objects: they live in a store indexed by
      references, so that copying, aliasing and in-place mutation are
      visible.  Every library function is a computation in the monad [M],
      which threads the store and may raise. *)

From Stdlib Require Import QArith Qround Qminmax Lqa Lia List String Permutation Sorted.
From Stdlib Require PrimFloat.
From stdpp Require Import base list strings gmap.

Local Open Scope nat_scope.

(** ** Cells *)

(** What pandas needs from a cell type: equality (hashing of categories) and
    an order (sorting of modes, levels and group keys). *)
Class Cell (A : Type) := {
  ceqb : A -> A -> bool;
  cleb : A -> A -> bool
}.

#[global] Instance string_cell : Cell string :=
  {| ceqb := String.eqb; cleb := String.leb |}.

#[global] Instance Q_cell : Cell Q :=
  {| ceqb := Qeq_bool; cleb := Qle_bool |}.

Section Series.
Context {A : Type} `{Cell A}.

(** [s.dropna()] *)
Fixpoint dropna (vs : list (option A)) : list A :=
  match vs with
  | [] => []
  | None :: r => dropna r
  | Some v :: r => v :: dropna r
  end.

(** [s.isnull().any()] *)
Definition isnull_any (vs : list (option A)) : bool :=
  existsb (fun v => match v with None => true | Some _ => false end) vs.

Definition memb (x : A) (l : list A) : bool := existsb (ceqb x) l.

(** distinct values, in order of first appearance *)
Fixpoint uniq_acc (seen l : list A) : list A :=
  match l with
  | [] => List.rev seen
  | x :: r => if memb x seen then uniq_acc seen r else uniq_acc (x :: seen) r
  end.

Definition uniq (l : list A) : list A := uniq_acc [] l.

(** [s.nunique()]: missing entries are not counted *)
Definition nunique (vs : list (option A)) : nat := length (uniq (dropna vs)).

(** [len(s.unique())]: a missing entry counts as one more distinct value *)
Definition unique_len (vs : list (option A)) : nat :=
  nunique vs + (if isnull_any vs then 1 else 0).

(** number of cells equal to [x] *)
Definition count (x : A) (l : list A) : nat :=
  length (List.filter (ceqb x) l).

(** [s.value_counts()]: every distinct present value with its count *)
Definition value_counts (vs : list (option A)) : list (A * nat) :=
  let present := dropna vs in
  List.map (fun x => (x, count x present)) (uniq present).

(** insertion sort along [cleb] *)
Fixpoint insert_sorted (x : A) (l : list A) : list A :=
  match l with
  | [] => [x]
  | y :: r => if cleb x y then x :: l else y :: insert_sorted x r
  end.

Fixpoint isort (l : list A) : list A :=
  match l with
  | [] => []
  | x :: r => insert_sorted x (isort r)
  end.

(** [s.fillna(v)] *)
Definition fillna (v : A) (vs : list (option A)) : list (option A) :=
  List.map (fun c => match c with None => Some v | Some _ => c end) vs.

(** [s.fillna(v)] where [v] itself may be NaN: nothing is filled then *)
Definition fillna_opt (v : option A) (vs : list (option A)) : list (option A) :=
  match v with
  | Some x => fillna x vs
  | None => vs
  end.
End Series.

(** ** Columns and frames *)

Inductive Column :=
| ColO (vs : list (option string))   (* dtype == "O" *)
| ColN (vs : list (option Q)).       (* any numeric dtype *)

Definition is_object (c : Column) : bool :=
  match c with ColO _ => true | ColN _ => false end.

Definition col_nunique (c : Column) : nat :=
  match c with ColO vs => nunique vs | ColN vs => nunique vs end.

Definition col_len (c : Column) : nat :=
  match c with ColO vs => length vs | ColN vs => length vs end.

Record DataFrame := mkDF {
  nrows : nat;                         (* len(df) *)
  dcols : list (string * Column)       (* columns, in order *)
}.

(** [df.columns] *)
Definition columns (df : DataFrame) : list string := List.map fst (dcols df).

Fixpoint assoc_get (l : list (string * Column)) (col : string) : option Column :=
  match l with
  | [] => None
  | (n, c) :: r => if String.eqb n col then Some c else assoc_get r col
  end.

Fixpoint assoc_set (l : list (string * Column)) (col : string) (c : Column)
  : list (string * Column) :=
  match l with
  | [] => [(col, c)]
  | (n, c0) :: r =>
      if String.eqb n col then (n, c) :: r else (n, c0) :: assoc_set r col c
  end.

(** [df[col]], [None] when the name is not a column *)
Definition getitem (df : DataFrame) (col : string) : option Column :=
  assoc_get (dcols df) col.

(** [df[col] = c]: overwrite in place, or append a new column *)
Definition setitem (df : DataFrame) (col : string) (c : Column) : DataFrame :=
  mkDF (nrows df) (assoc_set (dcols df) col c).

(** Shape of a frame as pandas keeps it: distinct names, columns as long as
    the index. *)
Definition frame_wf (df : DataFrame) : Prop :=
  List.NoDup (columns df) /\
  Forall (fun p => col_len (snd p) = nrows df) (dcols df).

(** ** The store of frames and the monad of library calls *)

Inductive exn :=
| KeyError (key : string)    (* a column name that is not in the frame *)
| KeyErrorLabels (keys : list string)
                             (* a list selection: the labels not in the index *)
| LookupError                (* position 0 of an empty result *)
| TypeError                  (* arithmetic on text *)
| ValueError                 (* a quantile outside [0, 1] *)
| DanglingRef.               (* cannot arise from Python code *)

Definition ref := positive.
Abbreviation store := (gmap positive DataFrame).

Definition M (A : Type) : Type := store -> (exn + A) * store.

Definition ret {A} (a : A) : M A := fun h => (inr a, h).
Definition raise {A} (e : exn) : M A := fun h => (inl e, h).
Definition bind {A B} (c : M A) (k : A -> M B) : M B :=
  fun h => match c h with
           | (inl e, h') => (inl e, h')
           | (inr a, h') => k a h'
           end.

Notation "'do' x <- c ; k" := (bind c (fun x => k))
  (at level 10, x name, c at level 100, k at level 200).

(** read the frame a reference points to *)
Definition deref (r : ref) : M DataFrame :=
  fun h => match h !! r with
           | Some df => (inr df, h)
           | None => (inl DanglingRef, h)
           end.

(** overwrite the frame a reference points to (in-place mutation) *)
Definition assign (r : ref) (df : DataFrame) : M unit :=
  fun h => (inr tt, <[r := df]> h).

(** a new frame object *)
Definition new_frame (df : DataFrame) : M ref :=
  fun h => let r := fresh (dom h) in (inr r, <[r := df]> h).

(** [df.copy()] *)
Definition copy (r : ref) : M ref :=
  do df <- deref r; new_frame df.

Definition lift_opt {A} (e : exn) (o : option A) : M A :=
  match o with Some a => ret a | None => raise e end.

(** [df[col]] as an expression: raises [KeyError] *)
Definition column_of (df : DataFrame) (col : string) : M Column :=
  lift_opt (KeyError col) (getitem df col).

(** ** Column utilities: [grab_col_names] *)

Definition dtype_O (df : DataFrame) (col : string) : bool :=
  match getitem df col with Some c => is_object c | None => false end.

Definition nunique_of (df : DataFrame) (col : string) : Z :=
  match getitem df col with Some c => Z.of_nat (col_nunique c) | None => 0%Z end.

Definition str_in (col : string) (l : list string) : bool :=
  existsb (String.eqb col) l.

Definition grab_col_names_frame (df : DataFrame) (cat_th car_th : Z)
  : list string * list string * list string :=
  let categorical_columns := List.filter (fun col => dtype_O df col) (columns df) in
  let numeric_but_categorical :=
    List.filter (fun col => (nunique_of df col <? cat_th)%Z && negb (dtype_O df col))
                (columns df) in
  let categorical_but_cardinal :=
    List.filter (fun col => (car_th <? nunique_of df col)%Z && dtype_O df col)
                (columns df) in
  let cat_cols :=
    List.filter (fun col => negb (str_in col categorical_but_cardinal))
                (categorical_columns ++ numeric_but_categorical) in
  let num_cols := List.filter (fun col => negb (dtype_O df col)) (columns df) in
  let num_cols :=
    List.filter (fun col => negb (str_in col numeric_but_categorical)) num_cols in
  (cat_cols, categorical_but_cardinal, num_cols).

Definition grab_col_names (dataframe : ref) (cat_th car_th : Z)
  : M (list string * list string * list string) :=
  do df <- deref dataframe;
  ret (grab_col_names_frame df cat_th car_th).

(** ** Float arithmetic with NaN *)

Definition fadd (a b : option Q) : option Q :=
  match a, b with Some x, Some y => Some (x + y)%Q | _, _ => None end.
Definition fsub (a b : option Q) : option Q :=
  match a, b with Some x, Some y => Some (x - y)%Q | _, _ => None end.
Definition fmul (a b : option Q) : option Q :=
  match a, b with Some x, Some y => Some (x * y)%Q | _, _ => None end.
(** a zero divisor gives no finite number *)
Definition fdiv (a b : option Q) : option Q :=
  match a, b with
  | Some x, Some y => if Qeq_bool y 0 then None else Some (x / y)%Q
  | _, _ => None
  end.

Definition Qltb (x y : Q) : bool := negb (Qle_bool y x).

(** [x < lim] and [x > lim] on floats: false as soon as one side is NaN *)
Definition flt (x lim : option Q) : bool :=
  match x, lim with Some a, Some b => Qltb a b | _, _ => false end.
Definition fgt (x lim : option Q) : bool := flt lim x.

Definition of_nat_Q (n : nat) : Q := inject_Z (Z.of_nat n).

Definition Qsum (l : list Q) : Q := fold_right Qplus 0%Q l.

(** [s.mean()] of a numeric series: missing entries are skipped *)
Definition mean (vs : list (option Q)) : option Q :=
  match dropna vs with
  | [] => None
  | x :: r => Some (Qsum (x :: r) / of_nat_Q (length (x :: r)))%Q
  end.

(** [s.median()] *)
Definition median (vs : list (option Q)) : option Q :=
  let xs := isort (dropna vs) in
  let n := length xs in
  match xs with
  | [] => None
  | _ => if Nat.even n
         then Some ((nth (n / 2 - 1) xs 0 + nth (n / 2) xs 0) / 2)%Q
         else Some (nth (n / 2) xs 0%Q)
  end.

(** Linear interpolation between the two order statistics around the
    (fractional) position [h] of the sorted values [xs]. *)
Definition interp (xs : list Q) (h : Q) : Q :=
  let i := Z.to_nat (Qfloor h) in
  let j := Nat.min (S i) (length xs - 1) in
  let frac := (h - inject_Z (Qfloor h))%Q in
  (nth i xs 0 + frac * (nth j xs 0 - nth i xs 0))%Q.

(** the [q]-quantile sits at position [(n - 1) * q] *)
Definition quantile_sorted (xs : list Q) (q : Q) : Q :=
  interp xs (of_nat_Q (length xs - 1) * q)%Q.

Definition valid_percentile (q : Q) : bool := Qle_bool 0 q && Qle_bool q 1.

(** [s.quantile(q)]: the percentile is validated first; a series without
    any present value gives NaN; text cannot be interpolated. *)
Definition series_quantile (s : Column) (q : Q) : M (option Q) :=
  if negb (valid_percentile q) then raise ValueError
  else match s with
       | ColN vs =>
           match isort (dropna vs) with
           | [] => ret None
           | x :: r => ret (Some (quantile_sorted (x :: r) q))
           end
       | ColO vs =>
           match dropna vs with
           | [] => ret None
           | _ :: _ => raise TypeError
           end
       end.

(** ** Outlier handling *)

Definition outlier_thresholds (dataframe : ref) (variable : string)
    (low_quantile up_quantile : Q) : M (option Q * option Q) :=
  do df <- deref dataframe;
  do s1 <- column_of df variable;
  do q1 <- series_quantile s1 low_quantile;
  do s3 <- column_of df variable;
  do q3 <- series_quantile s3 up_quantile;
  let iqr := fsub q3 q1 in
  let low_limit := fsub q1 (fmul (Some (3 # 2)) iqr) in
  let up_limit := fadd q3 (fmul (Some (3 # 2)) iqr) in
  ret (low_limit, up_limit).

(** [df.loc[mask, variable] = lim] on the values of one column *)
Definition loc_assign (mask : option Q -> bool) (lim : option Q)
    (vs : list (option Q)) : list (option Q) :=
  List.map (fun c => if mask c then lim else c) vs.

(** [df.loc[df[variable] < lim, variable] = lim], in place.  Ordering text
    against a float is a type error. *)
Definition clip_below (dataframe : ref) (variable : string) (lim : option Q) : M unit :=
  do df <- deref dataframe;
  do s <- column_of df variable;
  match s with
  | ColN vs => assign dataframe
                 (setitem df variable (ColN (loc_assign (fun c => flt c lim) lim vs)))
  | ColO [] => ret tt
  | ColO (_ :: _) => raise TypeError
  end.

Definition clip_above (dataframe : ref) (variable : string) (lim : option Q) : M unit :=
  do df <- deref dataframe;
  do s <- column_of df variable;
  match s with
  | ColN vs => assign dataframe
                 (setitem df variable (ColN (loc_assign (fun c => fgt c lim) lim vs)))
  | ColO [] => ret tt
  | ColO (_ :: _) => raise TypeError
  end.

Definition replace_with_thresholds (dataframe : ref) (variable : string)
    (low_quantile up_quantile : Q) : M unit :=
  do lims <- outlier_thresholds dataframe variable low_quantile up_quantile;
  do _ <- clip_below dataframe variable (fst lims);
  clip_above dataframe variable (snd lims).

(** ** Missing value imputation *)

(** [s.mode()]: the most frequent present values, sorted *)
Definition mode (vs : list (option string)) : list string :=
  let present := dropna vs in
  let best := fold_right Nat.max 0 (List.map (fun x => count x present) present) in
  isort (List.filter (fun x => count x present =? best) (uniq present)).

(** [s.mode()[0]] *)
Definition mode0 (vs : list (option string)) : M string :=
  match mode vs with
  | [] => raise LookupError
  | x :: _ => ret x
  end.

(** [df.apply(f)]: [f] on every column, left to right, into a new frame *)
Fixpoint apply_columns (f : Column -> M Column) (l : list (string * Column))
  : M (list (string * Column)) :=
  match l with
  | [] => ret []
  | (n, s) :: r =>
      do s' <- f s;
      do r' <- apply_columns f r;
      ret ((n, s') :: r')
  end.

Definition df_apply (data : ref) (f : Column -> M Column) : M ref :=
  do df <- deref data;
  do cs <- apply_columns f (dcols df);
  new_frame (mkDF (nrows df) cs).

(** the lambda of the categorical pass *)
Definition fill_categorical (cat_length : Z) (s : Column) : M Column :=
  match s with
  | ColO vs =>
      if (Z.of_nat (unique_len vs) <=? cat_length)%Z && isnull_any vs
      then do m <- mode0 vs; ret (ColO (fillna m vs))
      else ret s
  | ColN _ => ret s
  end.

(** the lambda of the numeric pass, for a given statistic *)
Definition fill_numeric (stat : list (option Q) -> option Q) (s : Column) : M Column :=
  match s with
  | ColN vs => if isnull_any vs then ret (ColN (fillna_opt (stat vs) vs)) else ret s
  | ColO _ => ret s
  end.

Definition quick_missing_imp (data : ref) (num_method : string) (cat_length : Z)
    (target : string) : M ref :=
  do data <- copy data;
  do df0 <- deref data;
  let temp_target := getitem df0 target in
  do data <- df_apply data (fill_categorical cat_length);
  do data <- (if String.eqb num_method "mean"
              then df_apply data (fill_numeric mean)
              else df_apply data (fill_numeric median));
  do _ <- match temp_target with
          | Some t => do df <- deref data; assign data (setitem df target t)
          | None => ret tt
          end;
  ret data.

(** ** Rare encoder *)

(** [count / len(temp_df) < rare_perc] *)
Definition is_rare (n : nat) (len : nat) (rare_perc : Q) : bool :=
  flt (fdiv (Some (of_nat_Q n)) (Some (of_nat_Q len))) (Some rare_perc).

(** [freqs[freqs < rare_perc].index] *)
Definition rare_labels (vs : list (option string)) (len : nat) (rare_perc : Q)
  : list string :=
  List.map fst (List.filter (fun p => is_rare (snd p) len rare_perc) (value_counts vs)).

(** [(s.value_counts() / len(temp_df) < rare_perc).any()] *)
Definition has_rare (s : Column) (len : nat) (rare_perc : Q) : bool :=
  match s with
  | ColO vs => existsb (fun p => is_rare (snd p) len rare_perc) (value_counts vs)
  | ColN vs => existsb (fun p => is_rare (snd p) len rare_perc) (value_counts vs)
  end.

(** [np.where(s.isin(labels), "Rare", s)] *)
Definition np_where_rare (labels : list string) (vs : list (option string))
  : list (option string) :=
  List.map (fun c => match c with
                     | Some x => if str_in x labels then Some "Rare"%string else c
                     | None => c
                     end) vs.

(** the body of the loop over [rare_columns] *)
Definition rare_encode_column (temp_df : ref) (rare_perc : Q) (col : string) : M unit :=
  do df <- deref temp_df;
  do s <- column_of df col;
  match s with
  | ColO vs =>
      let labels := rare_labels vs (nrows df) rare_perc in
      assign temp_df (setitem df col (ColO (np_where_rare labels vs)))
  | ColN _ => raise TypeError   (* not reached: rare_columns holds object columns *)
  end.

Fixpoint for_each {A} (l : list A) (body : A -> M unit) : M unit :=
  match l with
  | [] => ret tt
  | x :: r => do _ <- body x; for_each r body
  end.

Definition rare_columns_of (df : DataFrame) (rare_perc : Q) : list string :=
  List.filter
    (fun col => match getitem df col with
                | Some s => is_object s && has_rare s (nrows df) rare_perc
                | None => false
                end)
    (columns df).

Definition rare_encoder (dataframe : ref) (rare_perc : Q) : M ref :=
  do temp_df <- copy dataframe;
  do df <- deref temp_df;
  let rare_columns := rare_columns_of df rare_perc in
  do _ <- for_each rare_columns (rare_encode_column temp_df rare_perc);
  ret temp_df.

(** ** One-hot encoder *)

Section OneHot.
(** Python's [str] of a number, used in the names of the indicator columns
    of a numeric column. *)
Variable str_of_num : Q -> string.

Definition indicator {A} `{Cell A} (level : A) (vs : list (option A)) : Column :=
  ColN (List.map (fun c => match c with
                           | Some x => if ceqb x level then Some 1%Q else Some 0%Q
                           | None => Some 0%Q
                           end) vs).

(** levels of a column: distinct present values in sorted order *)
Definition levels {A} `{Cell A} (vs : list (option A)) : list A :=
  isort (uniq (dropna vs)).

Definition drop_first_level {A} (drop_first : bool) (l : list A) : list A :=
  if drop_first then tl l else l.

(** the indicator columns pandas builds for one column *)
Definition dummies_1d (prefix : string) (s : Column) (drop_first : bool)
  : list (string * Column) :=
  match s with
  | ColO vs =>
      List.map (fun lv => ((prefix ++ "_" ++ lv)%string, indicator lv vs))
               (drop_first_level drop_first (levels vs))
  | ColN vs =>
      List.map (fun lv => ((prefix ++ "_" ++ str_of_num lv)%string, indicator lv vs))
               (drop_first_level drop_first (levels vs))
  end.

(** is [col] no column of the frame *)
Definition absent (df : DataFrame) (col : string) : bool :=
  match getitem df col with Some _ => false | None => true end.

(** The labels named by the [KeyError] of the list selection [df[cols]]:
    the whole list when none of its names is a column, otherwise the distinct
    names that are no column, in the order of the list; empty when the
    selection succeeds. *)
Definition not_in_index (df : DataFrame) (cols : list string) : list string :=
  match List.filter (absent df) cols with
  | [] => []
  | (_ :: _) as missing =>
      if forallb (absent df) cols then cols else uniq missing
  end.

(** the indicator blocks of the selected columns, in the order of [cols] *)
Definition dummies_all (df : DataFrame) (cols : list string) (drop_first : bool)
  : list (string * Column) :=
  flat_map (fun col => match getitem df col with
                       | Some s => dummies_1d col s drop_first
                       | None => []
                       end) cols.

(** [pd.get_dummies(df, columns=cols, drop_first=...)]: the listed columns are
    selected in one step, [df[cols]], which raises one [KeyError] for all the
    names that are no column; then the other columns come first, followed by
    the indicator blocks in the order of [cols] *)
Definition get_dummies (df : DataFrame) (cols : list string) (drop_first : bool)
  : M DataFrame :=
  match not_in_index df cols with
  | (_ :: _) as labels => raise (KeyErrorLabels labels)
  | [] =>
      let blocks := dummies_all df cols drop_first in
      let kept := List.filter (fun p => negb (str_in (fst p) cols)) (dcols df) in
      ret (mkDF (nrows df) (kept ++ blocks))
  end.

Definition one_hot_encoder (dataframe : ref) (categorical_cols : list string)
    (drop_first : bool) : M ref :=
  match categorical_cols with
  | [] => ret dataframe
  | _ :: _ =>
      do df <- deref dataframe;
      do res <- get_dummies df categorical_cols drop_first;
      new_frame res
  end.
End OneHot.

(** ** Smoothed target mean encoding *)

(** the result of [groupby(...).agg(...)] arithmetic: a series indexed by
    the categories, in sorted order *)
Inductive Series :=
| SerO (items : list (string * option Q))
| SerN (items : list (Q * option Q)).

Section GroupBy.
Context {A : Type} `{Cell A}.

(** target cells of the rows whose key is [k] *)
Definition group_rows (k : A) (keys : list (option A)) (tg : list (option Q))
  : list (option Q) :=
  List.map snd
    (List.filter (fun p => match fst p with Some k' => ceqb k' k | None => false end)
                 (combine keys tg)).

(** [groupby(column)[target].agg(["mean", "count"])]: rows with a missing
    key belong to no group; [count] counts present targets *)
Definition groupby_mean_count (keys : list (option A)) (tg : list (option Q))
  : list (A * (option Q * nat)) :=
  List.map (fun k => let g := group_rows k keys tg in
                     (k, (mean g, length (dropna g))))
           (isort (uniq (dropna keys))).

(** the expression of line 177 for one category, evaluated exactly *)
Definition smooth_score (cnt : nat) (mu global_mean : option Q) (m : Q) : option Q :=
  fdiv (fadd (fmul (Some (of_nat_Q cnt)) mu) (fmul (Some m) global_mean))
       (fadd (Some (of_nat_Q cnt)) (Some m)).

Definition smooth_items (keys : list (option A)) (tg : list (option Q))
    (global_mean : option Q) (m : Q) : list (A * option Q) :=
  List.map (fun st => (fst st, smooth_score (snd (snd st)) (fst (snd st)) global_mean m))
           (groupby_mean_count keys tg).
End GroupBy.

(** [frame[target].mean()] and the target cells; text has no mean *)
Definition numeric_cells (s : Column) : M (list (option Q)) :=
  match s with
  | ColN vs => ret vs
  | ColO vs => match dropna vs with
               | [] => ret (List.map (fun _ => None) vs)
               | _ :: _ => raise TypeError
               end
  end.

Definition target_mean_encode (frame : ref) (column target : string) (m : Q) : M Series :=
  do df <- deref frame;
  do t <- column_of df target;
  do tg <- numeric_cells t;
  let global_mean := mean tg in
  do c <- column_of df column;
  match c with
  | ColO keys => ret (SerO (smooth_items keys tg global_mean m))
  | ColN keys => ret (SerN (smooth_items keys tg global_mean m))
  end.

(** *** Rounding

    The same expression as numpy evaluates it for one category: on binary64
    numbers, rounded after each operation.  The count is an integer column,
    converted to binary64 for the product and the sum. *)
Module Binary64.
Import PrimFloat.

Definition smooth (count mean m global_mean : float) : float :=
  ((count * mean + m * global_mean) / (count + m))%float.
End Binary64.

(** ** Reference descriptions used by the properties *)

(** the limits computed from the present values of a numeric column *)
Definition limits_of (vs : list (option Q)) (lq uq : Q) : option Q * option Q :=
  match isort (dropna vs) with
  | [] => (None, None)
  | x :: xs =>
      let q1 := quantile_sorted (x :: xs) lq in
      let q3 := quantile_sorted (x :: xs) uq in
      (Some (q1 - (3 # 2) * (q3 - q1))%Q, Some (q3 + (3 # 2) * (q3 - q1))%Q)
  end.

(** one cell through both clipping assignments *)
Definition clip_cell (lo hi : option Q) (c : option Q) : option Q :=
  let c1 := if flt c lo then lo else c in
  if fgt c1 hi then hi else c1.

(** ** Sample data *)

(** A small frame in the shape of the project's data: a numeric feature, a
    text feature, and the target, each with a missing entry. *)
Definition houses : DataFrame :=
  mkDF 4 [("LotArea"%string, ColN [Some 10%Q; None; Some 30%Q; Some 20%Q]);
          ("Neighborhood"%string, ColO [Some "A"%string; Some "B"%string; None; Some "A"%string]);
          ("SalePrice"%string, ColN [Some 100%Q; Some 200%Q; None; Some 300%Q])].

Definition houses_store : store := {[ 1%positive := houses ]}.

(** a frame whose numeric column holds no value at all *)
Definition blank : DataFrame :=
  mkDF 2 [("LotArea"%string, ColN [None; None])].

Definition blank_store : store := {[ 1%positive := blank ]}.

(** what [rare_encoder] does to one column of a frame with [len] rows *)
Definition rare_column (rare_perc : Q) (len : nat) (s : Column) : Column :=
  match s with
  | ColO vs => ColO (np_where_rare (rare_labels vs len rare_perc) vs)
  | ColN _ => s
  end.

(** ... and to the whole frame *)
Definition rare_frame (rare_perc : Q) (df : DataFrame) : DataFrame :=
  mkDF (nrows df)
       (List.map (fun p => (fst p, rare_column rare_perc (nrows df) (snd p))) (dcols df)).

(** the frame after the loop has treated the columns named in [done] *)
Definition rare_partial (rare_perc : Q) (len : nat) (done : list string)
    (p : string * Column) : string * Column :=
  if str_in (fst p) done then (fst p, rare_column rare_perc len (snd p)) else p.

(** the relabelling of one cell, decided by the frequency of its category
    in the column [vs] *)
Definition relabel (rare_perc : Q) (len : nat) (vs : list (option string))
    (c : option string) : option string :=
  match c with
  | Some x => if is_rare (count x (dropna vs)) len rare_perc then Some "Rare"%string else c
  | None => None
  end.

(** the condition of the categorical pass on a text column *)
Definition cat_eligible (cat_length : Z) (vs : list (option string)) : bool :=
  (Z.of_nat (unique_len vs) <=? cat_length)%Z && isnull_any vs.

(** the categorical pass on one column; [None] when [s.mode()[0]] raises *)
Definition cat_filled (cat_length : Z) (s : Column) : option Column :=
  match s with
  | ColO vs =>
      if cat_eligible cat_length vs
      then match mode vs with
           | [] => None
           | m :: _ => Some (ColO (fillna m vs))
           end
      else Some s
  | ColN _ => Some s
  end.

(** the numeric pass on one column *)
Definition num_filled (stat : list (option Q) -> option Q) (s : Column) : Column :=
  match s with
  | ColN vs => if isnull_any vs then ColN (fillna_opt (stat vs) vs) else s
  | ColO _ => s
  end.

Fixpoint cat_filled_all (cat_length : Z) (l : list (string * Column))
  : option (list (string * Column)) :=
  match l with
  | [] => Some []
  | (n, s) :: r =>
      match cat_filled cat_length s, cat_filled_all cat_length r with
      | Some s', Some r' => Some ((n, s') :: r')
      | _, _ => None
      end
  end.

Definition stat_of (num_method : string) : list (option Q) -> option Q :=
  if String.eqb num_method "mean" then mean else median.

(** a text column that makes the categorical pass raise: selected for
    filling, but without any present value to take as the mode *)
Definition blank_text (cat_length : Z) (s : Column) : Prop :=
  exists vs, s = ColO vs /\ cat_eligible cat_length vs = true /\ dropna vs = [].

(** the frame [quick_missing_imp] returns, given the columns [cs1] left by
    the categorical pass *)
Definition imputed_frame (df : DataFrame) (num_method target : string)
    (cs1 : list (string * Column)) : DataFrame :=
  let df3 := mkDF (nrows df)
                  (List.map (fun p => (fst p, num_filled (stat_of num_method) (snd p))) cs1) in
  match getitem df target with
  | Some t => setitem df3 target t
  | None => df3
  end.

(** a frame with one text column: a single category and a missing entry *)
Definition streets : DataFrame :=
  mkDF 2 [("Street"%string, ColO [Some "Pave"%string; None])].

Definition streets_store : store := {[ 1%positive := streets ]}.

(** the laws of cell equality the counting arguments rely on *)
Class CellLaws (A : Type) `{Cell A} := {
  ceqb_refl : forall x : A, ceqb x x = true;
  ceqb_sym : forall x y : A, ceqb x y = ceqb y x;
  ceqb_trans : forall x y z : A, ceqb x y = true -> ceqb y z = true -> ceqb x z = true
}.

(** the cell of a numeric column at row [i]; a missing cell counts for 0 *)
Definition cell_value (s : Column) (i : nat) : Q :=
  match s with
  | ColN vs => match nth i vs None with Some v => v | None => 0%Q end
  | ColO _ => 0%Q
  end.

(** the sum of the cells of row [i] over a block of columns *)
Definition row_sum (block : list (string * Column)) (i : nat) : Q :=
  Qsum (List.map (fun p => cell_value (snd p) i) block).

(** whether row [i] of a column holds a value *)
Definition present_at (s : Column) (i : nat) : bool :=
  match s with
  | ColO vs => match nth i vs None with Some _ => true | None => false end
  | ColN vs => match nth i vs None with Some _ => true | None => false end
  end.

(** whether row [i] of a column holds the number [q] *)
Definition cell_is (q : Q) (s : Column) (i : nat) : bool :=
  match s with
  | ColN vs => match nth_error vs i with
               | Some (Some v) => Qeq_bool v q
               | _ => false
               end
  | ColO _ => false
  end.

(** how many columns of a block hold the number [q] in row [i] *)
Definition cells_equal (q : Q) (block : list (string * Column)) (i : nat) : nat :=
  length (List.filter (fun p => cell_is q (snd p) i) block).

(** sales with a target that is missing in some rows: one row of category A
    and the only row of category C carry no price *)
Definition sales : DataFrame :=
  mkDF 4 [("Neighborhood"%string,
           ColO [Some "A"%string; Some "A"%string; Some "B"%string; Some "C"%string]);
          ("SalePrice"%string, ColN [Some 100%Q; None; Some 300%Q; None])].

Definition sales_store : store := {[ 1%positive := sales ]}.

(** ** Encoders: [label_encoder] *)

(** position of the first class equal to [x] *)
Fixpoint index_of {A} `{Cell A} (x : A) (l : list A) : nat :=
  match l with
  | [] => 0
  | y :: r => if ceqb x y then 0 else S (index_of x r)
  end.

(** [LabelEncoder.transform] of one cell, given [classes_]: a present value
    gets the position of its class among the sorted distinct values; a
    missing entry is one more class, placed after all of them *)
Definition encode_cell {A} `{Cell A} (cls : list A) (c : option A) : nat :=
  match c with
  | Some x => index_of x cls
  | None => length cls
  end.

(** [LabelEncoder().fit_transform(s)] *)
Definition fit_transform {A} `{Cell A} (vs : list (option A)) : list nat :=
  List.map (encode_cell (levels vs)) vs.

(** the integer column of codes *)
Definition label_codes (s : Column) : Column :=
  ColN (List.map (fun n => Some (of_nat_Q n))
                 (match s with
                  | ColO vs => fit_transform vs
                  | ColN vs => fit_transform vs
                  end)).

Definition label_encoder (dataframe : ref) (binary_col : string) : M ref :=
  do df <- deref dataframe;
  do s <- column_of df binary_col;
  do _ <- assign dataframe (setitem df binary_col (label_codes s));
  ret dataframe.

(** the laws of the cell order that sorting relies on *)
Class CellOrder (A : Type) `{Cell A} := {
  cleb_total : forall x y : A, cleb x y = true \/ cleb y x = true;
  cleb_trans : forall x y z : A, cleb x y = true -> cleb y z = true -> cleb x z = true;
  cleb_antisym : forall x y : A, cleb x y = true -> cleb y x = true -> ceqb x y = true;
  ceqb_cleb : forall x y : A, ceqb x y = true -> cleb x y = true
}.

(** a list in ascending order of [cleb]: every element is below all later ones *)
Fixpoint ascending {A} `{Cell A} (l : list A) : Prop :=
  match l with
  | [] => True
  | x :: r => (forall y, In y r -> cleb x y = true) /\ ascending r
  end.

(** [s.isnull().any()] on a column of either kind *)
Definition col_isnull_any (s : Column) : bool :=
  match s with
  | ColO vs => isnull_any vs
  | ColN vs => isnull_any vs
  end.

(** ** Feature importance plot *)

(** a fitted model: [feature_importances_] is [None] when the attribute is
    absent *)
Record Estimator := {
  feature_importances_ : option (list Q)
}.

(** what [plot_importance] raises *)
Inductive plot_exn :=
| AttributeError      (* the model has no feature_importances_ *)
| FrameLengthError.   (* pd.DataFrame: all arrays must be of the same length *)

(** the calls made to the plotting libraries, in order *)
Inductive plot_event :=
| Figure (width height : Z)
| SetTheme (font_scale : Z)
| Barplot (rows : list (Q * string))     (* (Value, Feature) rows, top first *)
| Title (text : string)
| TightLayout
| Savefig (path : string)
| Show.

(** [df.head(n)]: the first n rows; for negative n all rows but the last -n *)
Definition df_head {A} (n : Z) (l : list A) : list A :=
  if (0 <=? n)%Z then firstn (Z.to_nat n) l
  else firstn (length l - Z.to_nat (- n)) l.

(** rows in descending order of their value *)
Definition descending (l : list (Q * string)) : Prop :=
  StronglySorted (fun a b => (fst b <= fst a)%Q) l.

Section PlotImportance.
(** [sort_values(by="Value", ascending=False)]: the order among rows of
    equal value is left to the library *)
Variable sort_values_desc : list (Q * string) -> list (Q * string).

Definition plot_importance (model : Estimator) (features : DataFrame)
    (num : option Z) (save : bool) (save_path : string)
  : (plot_exn + unit) * list plot_event :=
  match feature_importances_ model with
  | None => (inl AttributeError, [])
  | Some importances =>
      let feature_names := columns features in
      let num := match num with
                 | None => Z.of_nat (length feature_names)
                 | Some n => n
                 end in
      if negb (length importances =? length feature_names)
      then (inl FrameLengthError, [])
      else
        let feature_imp := combine importances feature_names in
        let feature_imp := df_head num (sort_values_desc feature_imp) in
        (inr tt,
         [Figure 10 10; SetTheme 1; Barplot feature_imp; Title "Features"; TightLayout]
           ++ (if save then [Savefig save_path] else [])
           ++ [Show])
  end.
End PlotImportance.

(** one sort that fits: insertion into descending order *)
Fixpoint insert_desc (p : Q * string) (l : list (Q * string)) : list (Q * string) :=
  match l with
  | [] => [p]
  | q :: r => if Qle_bool (fst q) (fst p) then p :: l else q :: insert_desc p r
  end.

Fixpoint sort_desc (l : list (Q * string)) : list (Q * string) :=
  match l with
  | [] => []
  | p :: r => insert_desc p (sort_desc r)
  end.

(** a model with three importances *)
Definition forest : Estimator :=
  {| feature_importances_ := Some [(1 # 5); (1 # 2); (3 # 10)]%Q |}.

(** * Properties *)

(** ** Lists and stores *)

Lemma filter_filter_and {A} (p q : A -> bool) (l : list A) :
  List.filter p (List.filter q l) = List.filter (fun x => q x && p x) l.
Proof.
  induction l as [|a l IH]; simpl; [reflexivity|].
  destruct (q a); simpl; [destruct (p a)|]; now rewrite IH.
Qed.

Lemma str_in_In (col : string) (l : list string) :
  str_in col l = true <-> In col l.
Proof.
  unfold str_in. rewrite existsb_exists. split.
  - intros (x & Hx & E). apply String.eqb_eq in E. now subst.
  - intros Hin. exists col. split; [assumption|apply String.eqb_refl].
Qed.

Lemma str_in_false (col : string) (l : list string) :
  str_in col l = false <-> ~ In col l.
Proof.
  rewrite <- str_in_In. destruct (str_in col l); split; congruence.
Qed.

Lemma fresh_lookup_None (h : store) : h !! fresh (dom h) = None.
Proof. apply not_elem_of_dom, is_fresh. Qed.

Lemma fresh_ne (h : store) (r : ref) (df : DataFrame) :
  h !! r = Some df -> fresh (dom h) <> r.
Proof. intros Hr E. rewrite <- E, fresh_lookup_None in Hr. discriminate. Qed.

Lemma str_in_filter (p : string -> bool) (c : string) (l : list string) :
  In c l -> str_in c (List.filter p l) = p c.
Proof.
  intros Hc. destruct (p c) eqn:E.
  - apply str_in_In, filter_In. now split.
  - apply str_in_false. rewrite filter_In. intros [_ F]. congruence.
Qed.

(** ** [grab_col_names] *)

Lemma grab_col_names_lists (df : DataFrame) (cat_th car_th : Z) :
  let O := dtype_O df in
  let small := fun col => (nunique_of df col <? cat_th)%Z in
  let big := fun col => (car_th <? nunique_of df col)%Z in
  grab_col_names_frame df cat_th car_th =
    (List.filter (fun col => O col && negb (big col)) (columns df) ++
     List.filter (fun col => small col && negb (O col)) (columns df),
     List.filter (fun col => big col && O col) (columns df),
     List.filter (fun col => negb (O col) && negb (small col)) (columns df)).
Proof.
  intros O small big. unfold grab_col_names_frame.
  rewrite List.filter_app, !filter_filter_and. f_equal; [f_equal; f_equal|].
  all: apply filter_ext_in; intros c Hc; rewrite (str_in_filter _ _ _ Hc);
    fold (O c) (small c) (big c); destruct (O c), (small c), (big c); reflexivity.
Qed.

Lemma four_way_perm {A} (p q s : A -> bool) (l : list A) :
  Permutation
    ((List.filter (fun x => p x && negb (q x)) l ++
      List.filter (fun x => s x && negb (p x)) l) ++
     List.filter (fun x => q x && p x) l ++
     List.filter (fun x => negb (p x) && negb (s x)) l) l.
Proof.
  induction l as [|a l IH]; simpl; [constructor|].
  rewrite <- app_assoc in IH.
  destruct (p a), (q a), (s a); simpl; rewrite <- ?app_assoc; simpl; symmetry;
    first [ apply perm_skip
          | apply Permutation_cons_app
          | rewrite app_assoc; apply Permutation_cons_app
          | rewrite 2 app_assoc; apply Permutation_cons_app ];
    rewrite <- ?app_assoc; symmetry; exact IH.
Qed.

(** C6: the three lists that [grab_col_names] returns hold every column of
    the frame exactly once: their concatenation is a rearrangement of the
    column names, and no name occurs twice in it.  The call leaves the store
    as it was. *)
Theorem grab_col_names_partition (h : store) (r : ref) (df : DataFrame)
    (cat_th car_th : Z) :
  h !! r = Some df ->
  List.NoDup (columns df) ->
  exists cat_cols cat_but_car num_cols,
    grab_col_names r cat_th car_th h = (inr (cat_cols, cat_but_car, num_cols), h) /\
    Permutation (cat_cols ++ cat_but_car ++ num_cols) (columns df) /\
    List.NoDup (cat_cols ++ cat_but_car ++ num_cols).
Proof.
  intros Hr Hnd.
  pose proof (grab_col_names_lists df cat_th car_th) as E. cbv zeta in E.
  pose proof (four_way_perm (dtype_O df)
                (fun col => (car_th <? nunique_of df col)%Z)
                (fun col => (nunique_of df col <? cat_th)%Z) (columns df)) as P.
  cbv beta in E, P. rewrite <- app_assoc in P.
  eexists _, _, _. split; [|split].
  - unfold grab_col_names, bind, deref, ret. rewrite Hr, E. reflexivity.
  - rewrite <- app_assoc. exact P.
  - eapply Permutation_NoDup; [symmetry; rewrite <- app_assoc; exact P|].
    exact Hnd.
Qed.

(** ** Frames as association lists *)

Lemma assoc_get_set_same (l : list (string * Column)) (col : string) (c : Column) :
  assoc_get (assoc_set l col c) col = Some c.
Proof.
  induction l as [|[n c0] l IH]; simpl.
  - now rewrite String.eqb_refl.
  - destruct (String.eqb n col) eqn:E; simpl; now rewrite E.
Qed.

Lemma assoc_get_set_other (l : list (string * Column)) (col col' : string) (c : Column) :
  col <> col' -> assoc_get (assoc_set l col c) col' = assoc_get l col'.
Proof.
  intros Hne. induction l as [|[n c0] l IH]; simpl.
  - apply String.eqb_neq in Hne. now rewrite Hne.
  - destruct (String.eqb n col) eqn:E; simpl; [|now rewrite IH].
    apply String.eqb_eq in E. subst n. apply String.eqb_neq in Hne. now rewrite Hne.
Qed.

Lemma assoc_set_set (l : list (string * Column)) (col : string) (c c' : Column) :
  assoc_set (assoc_set l col c) col c' = assoc_set l col c'.
Proof.
  induction l as [|[n c0] l IH]; simpl.
  - now rewrite String.eqb_refl.
  - destruct (String.eqb n col) eqn:E; simpl; rewrite E; [reflexivity|now rewrite IH].
Qed.

Lemma getitem_setitem (df : DataFrame) (col : string) (c : Column) :
  getitem (setitem df col c) col = Some c.
Proof. apply assoc_get_set_same. Qed.

Lemma getitem_setitem_other (df : DataFrame) (col col' : string) (c : Column) :
  col <> col' -> getitem (setitem df col c) col' = getitem df col'.
Proof. apply assoc_get_set_other. Qed.

Lemma setitem_setitem (df : DataFrame) (col : string) (c c' : Column) :
  setitem (setitem df col c) col c' = setitem df col c'.
Proof. unfold setitem. simpl. now rewrite assoc_set_set. Qed.

(** ** Sorting *)

Lemma insert_sorted_perm {A} `{Cell A} (x : A) (l : list A) :
  Permutation (insert_sorted x l) (x :: l).
Proof.
  induction l as [|y l IH]; simpl; [reflexivity|].
  destruct (cleb x y); [reflexivity|].
  etransitivity; [apply perm_skip, IH|apply perm_swap].
Qed.

Lemma isort_perm {A} `{Cell A} (l : list A) : Permutation (isort l) l.
Proof.
  induction l as [|x l IH]; simpl; [constructor|].
  etransitivity; [apply insert_sorted_perm|now apply perm_skip].
Qed.

Lemma isort_length {A} `{Cell A} (l : list A) : length (isort l) = length l.
Proof. apply Permutation_length, isort_perm. Qed.

Lemma isort_nil_inv {A} `{Cell A} (l : list A) : isort l = [] -> l = [].
Proof.
  intros E. apply (f_equal (@length A)) in E. rewrite isort_length in E.
  now destruct l.
Qed.

Lemma insert_sorted_Q (x : Q) (l : list Q) :
  StronglySorted Qle l -> StronglySorted Qle (insert_sorted x l).
Proof.
  induction 1 as [|y l Hs IH Hall]; simpl.
  - repeat constructor.
  - destruct (Qle_bool x y) eqn:E.
    + apply Qle_bool_iff in E. constructor; [now constructor|].
      constructor; [exact E|].
      eapply List.Forall_impl; [|exact Hall]. intros z Hz. simpl in Hz.
      now apply Qle_trans with y.
    + assert (Hyx : (y <= x)%Q).
      { destruct (Qlt_le_dec x y) as [Hlt|Hle]; [|exact Hle].
        apply Qlt_le_weak, Qle_bool_iff in Hlt. congruence. }
      constructor; [exact IH|].
      eapply Permutation_Forall; [symmetry; apply (insert_sorted_perm x l)|].
      now constructor.
Qed.

Lemma isort_sorted_Q (l : list Q) : StronglySorted Qle (isort l).
Proof.
  induction l as [|x l IH]; simpl; [constructor|now apply insert_sorted_Q].
Qed.

Lemma sorted_nth_le (l : list Q) :
  StronglySorted Qle l ->
  forall a b, (a <= b < length l)%nat -> (nth a l 0 <= nth b l 0)%Q.
Proof.
  induction 1 as [|y l Hs IH Hall]; intros a b [Hab Hb]; simpl in *; [lia|].
  destruct a as [|a], b as [|b]; try lia.
  - apply Qle_refl.
  - rewrite List.Forall_forall in Hall. apply Hall, nth_In. lia.
  - apply IH. lia.
Qed.

(** ** Quantiles *)

Section Interp.
Variable xs : list Q.
Hypothesis xs_sorted : StronglySorted Qle xs.
Hypothesis xs_nonempty : (1 <= length xs)%nat.

Let last_pos : Q := of_nat_Q (length xs - 1).

Lemma floor_pos_range (h : Q) :
  (0 <= h)%Q -> (h <= last_pos)%Q ->
  (0 <= Qfloor h)%Z /\ (Z.to_nat (Qfloor h) <= length xs - 1)%nat.
Proof.
  intros H0 H1. split.
  - change 0%Z with (Qfloor 0). now apply Qfloor_resp_le.
  - apply Qfloor_resp_le in H1. unfold last_pos, of_nat_Q in H1.
    rewrite Qfloor_Z in H1. lia.
Qed.

Lemma frac_range (h : Q) :
  (0 <= h - inject_Z (Qfloor h))%Q /\ (h - inject_Z (Qfloor h) <= 1)%Q.
Proof.
  pose proof (Qfloor_le h) as Hl. pose proof (Qlt_floor h) as Hu.
  rewrite inject_Z_plus in Hu. change (inject_Z 1) with 1%Q in Hu.
  split; lra.
Qed.

Lemma interp_between (h : Q) :
  (0 <= h)%Q -> (h <= last_pos)%Q ->
  let i := Z.to_nat (Qfloor h) in
  (nth i xs 0 <= interp xs h)%Q /\
  (interp xs h <= nth (Nat.min (S i) (length xs - 1)) xs 0)%Q.
Proof.
  intros H0 H1 i. destruct (floor_pos_range h H0 H1) as [_ Hi]. fold i in Hi.
  destruct (frac_range h) as [Hf0 Hf1]. unfold interp. fold i.
  set (j := Nat.min (S i) (length xs - 1)).
  assert (Hd : (nth i xs 0 <= nth j xs 0)%Q).
  { apply sorted_nth_le; [exact xs_sorted|]. unfold j. lia. }
  set (f := (h - inject_Z (Qfloor h))%Q) in *.
  set (a := nth i xs 0%Q) in *. set (b := nth j xs 0%Q) in *.
  split; nra.
Qed.

Lemma interp_mono (h h' : Q) :
  (0 <= h)%Q -> (h <= h')%Q -> (h' <= last_pos)%Q ->
  (interp xs h <= interp xs h')%Q.
Proof.
  intros H0 Hle H1.
  assert (H0' : (0 <= h')%Q) by lra. assert (H1' : (h <= last_pos)%Q) by lra.
  destruct (floor_pos_range h H0 H1') as [Hz Hi].
  destruct (floor_pos_range h' H0' H1) as [Hz' Hi'].
  pose proof (Qfloor_resp_le _ _ Hle) as Hfl.
  destruct (Z.eq_dec (Qfloor h) (Qfloor h')) as [E|Hne].
  - unfold interp. rewrite <- E.
    set (i := Z.to_nat (Qfloor h)) in *.
    set (j := Nat.min (S i) (length xs - 1)).
    assert (Hd : (nth i xs 0 <= nth j xs 0)%Q).
    { apply sorted_nth_le; [exact xs_sorted|]. unfold j. lia. }
    set (a := nth i xs 0%Q) in *. set (b := nth j xs 0%Q) in *.
    set (z := inject_Z (Qfloor h)). nra.
  - destruct (interp_between h H0 H1') as [_ Hup].
    destruct (interp_between h' H0' H1) as [Hlo _].
    cbv zeta in Hup, Hlo.
    set (i := Z.to_nat (Qfloor h)) in *. set (i' := Z.to_nat (Qfloor h')) in *.
    assert (Hii : (S i <= i')%nat) by (unfold i, i'; lia).
    replace (Nat.min (S i) (length xs - 1)) with (S i) in Hup by lia.
    eapply Qle_trans; [exact Hup|]. eapply Qle_trans; [|exact Hlo].
    apply sorted_nth_le; [exact xs_sorted|]. lia.
Qed.

(** quantiles grow with the percentile *)
Lemma quantile_sorted_mono (q q' : Q) :
  (0 <= q)%Q -> (q <= q')%Q -> (q' <= 1)%Q ->
  (quantile_sorted xs q <= quantile_sorted xs q')%Q.
Proof.
  intros H0 Hle H1. unfold quantile_sorted. fold last_pos.
  assert (Hl : (0 <= last_pos)%Q).
  { unfold last_pos, of_nat_Q. change 0%Q with (inject_Z 0).
    rewrite <- Zle_Qle. lia. }
  apply interp_mono; nra.
Qed.
End Interp.

(** ** [outlier_thresholds] and [replace_with_thresholds] *)

Lemma Qltb_lt (x y : Q) : Qltb x y = true <-> (x < y)%Q.
Proof.
  unfold Qltb. rewrite negb_true_iff. split.
  - intros E. destruct (Qlt_le_dec x y) as [Hlt|Hle]; [exact Hlt|].
    apply Qle_bool_iff in Hle. congruence.
  - intros Hlt. destruct (Qle_bool y x) eqn:E; [|reflexivity].
    apply Qle_bool_iff in E. lra.
Qed.

Lemma Qltb_ge (x y : Q) : Qltb x y = false <-> (y <= x)%Q.
Proof.
  unfold Qltb. rewrite negb_false_iff. apply Qle_bool_iff.
Qed.

Lemma dropna_In {A} (v : A) (vs : list (option A)) :
  In v (dropna vs) <-> In (Some v) vs.
Proof.
  induction vs as [|[a|] vs IH]; simpl.
  - reflexivity.
  - rewrite IH. split; (intros [E|Hin]; [left; congruence|now right]).
  - rewrite IH. split; [now right|]. intros [E|Hin]; [discriminate|exact Hin].
Qed.

Lemma outlier_thresholds_numeric (h : store) (r : ref) (df : DataFrame)
    (variable : string) (vs : list (option Q)) (lq uq : Q) :
  h !! r = Some df ->
  getitem df variable = Some (ColN vs) ->
  valid_percentile lq = true -> valid_percentile uq = true ->
  outlier_thresholds r variable lq uq h = (inr (limits_of vs lq uq), h).
Proof.
  intros Hr Hc Hl Hu.
  unfold outlier_thresholds, bind, deref, column_of, lift_opt, series_quantile, limits_of.
  rewrite Hr, Hc, Hl, Hu. simpl.
  destruct (isort (dropna vs)); reflexivity.
Qed.

Lemma limits_of_ordered (vs : list (option Q)) (lq uq : Q) (v : Q) :
  In (Some v) vs -> (0 <= lq)%Q -> (lq <= uq)%Q -> (uq <= 1)%Q ->
  exists lo hi, limits_of vs lq uq = (Some lo, Some hi) /\ (lo <= hi)%Q.
Proof.
  intros Hin H0 Hle H1. unfold limits_of.
  pose proof (isort_sorted_Q (dropna vs)) as Hs.
  destruct (isort (dropna vs)) as [|x xs] eqn:E.
  - apply isort_nil_inv in E. apply dropna_In in Hin. rewrite E in Hin. destruct Hin.
  - eexists _, _. split; [reflexivity|].
    assert (Hq : (quantile_sorted (x :: xs) lq <= quantile_sorted (x :: xs) uq)%Q).
    { apply quantile_sorted_mono; [exact Hs|simpl; lia|assumption..]. }
    cbv zeta. lra.
Qed.

Lemma clip_cell_missing (lo hi : option Q) : clip_cell lo hi None = None.
Proof. unfold clip_cell, fgt, flt. simpl. now destruct hi. Qed.

Lemma clip_cell_present (lo hi v : Q) :
  (lo <= hi)%Q ->
  exists v', clip_cell (Some lo) (Some hi) (Some v) = Some v' /\
    (lo <= v')%Q /\ (v' <= hi)%Q /\
    ((lo <= v)%Q -> (v <= hi)%Q -> v' = v) /\
    ((v < lo)%Q -> v' = lo) /\
    ((hi < v)%Q -> v' = hi).
Proof.
  intros Hlh. unfold clip_cell, fgt, flt.
  destruct (Qltb v lo) eqn:E1.
  - apply Qltb_lt in E1.
    destruct (Qltb hi lo) eqn:E2; [apply Qltb_lt in E2; lra|].
    exists lo. repeat split; try lra; intros; try reflexivity; lra.
  - apply Qltb_ge in E1.
    destruct (Qltb hi v) eqn:E2.
    + apply Qltb_lt in E2. exists hi. repeat split; try lra; intros; try reflexivity; lra.
    + apply Qltb_ge in E2. exists v. repeat split; try lra; intros; try reflexivity; lra.
Qed.

Lemma replace_with_thresholds_numeric (h : store) (r : ref) (df : DataFrame)
    (variable : string) (vs : list (option Q)) (lq uq : Q) :
  h !! r = Some df ->
  getitem df variable = Some (ColN vs) ->
  valid_percentile lq = true -> valid_percentile uq = true ->
  replace_with_thresholds r variable lq uq h =
    (inr tt,
     <[r := setitem df variable
              (ColN (List.map (clip_cell (fst (limits_of vs lq uq))
                                         (snd (limits_of vs lq uq))) vs))]> h).
Proof.
  intros Hr Hc Hl Hu. unfold replace_with_thresholds, bind.
  rewrite (outlier_thresholds_numeric h r df variable vs lq uq Hr Hc Hl Hu).
  destruct (limits_of vs lq uq) as [lo hi]. simpl.
  unfold clip_below, clip_above, bind, deref, column_of, lift_opt, assign, ret.
  rewrite Hr, Hc. simpl. rewrite lookup_insert_eq, getitem_setitem. simpl.
  rewrite insert_insert_eq, setitem_setitem. unfold loc_assign.
  rewrite List.map_map. reflexivity.
Qed.

(** C3: with the quantiles 0.10 and 0.90, [replace_with_thresholds] rewrites
    a numeric column in place so that every value lies in the closed interval
    [low, high] given by [outlier_thresholds]: a value inside the interval is
    kept, a value below [low] becomes [low], a value above [high] becomes
    [high].  Missing entries hold no value and stay missing; the column keeps
    its length. *)
Theorem replace_with_thresholds_clamps (h : store) (r : ref) (df : DataFrame)
    (variable : string) (vs : list (option Q)) :
  h !! r = Some df ->
  getitem df variable = Some (ColN vs) ->
  exists low high vs',
    outlier_thresholds r variable (1 # 10) (9 # 10) h = (inr (low, high), h) /\
    replace_with_thresholds r variable (1 # 10) (9 # 10) h =
      (inr tt, <[r := setitem df variable (ColN vs')]> h) /\
    length vs' = length vs /\
    (forall i, nth_error vs i = Some None -> nth_error vs' i = Some None) /\
    (forall i v, nth_error vs i = Some (Some v) ->
       exists lo hi v',
         low = Some lo /\ high = Some hi /\
         nth_error vs' i = Some (Some v') /\
         (lo <= v')%Q /\ (v' <= hi)%Q /\
         ((lo <= v)%Q -> (v <= hi)%Q -> v' = v) /\
         ((v < lo)%Q -> v' = lo) /\
         ((hi < v)%Q -> v' = hi)).
Proof.
  intros Hr Hc.
  exists (fst (limits_of vs (1 # 10) (9 # 10))), (snd (limits_of vs (1 # 10) (9 # 10))).
  eexists. split; [|split; [|split; [|split]]].
  - rewrite (outlier_thresholds_numeric h r df variable vs (1 # 10) (9 # 10) Hr Hc eq_refl eq_refl).
    now destruct (limits_of vs (1 # 10) (9 # 10)).
  - apply (replace_with_thresholds_numeric h r df variable vs (1 # 10) (9 # 10) Hr Hc eq_refl eq_refl).
  - apply List.length_map.
  - intros i Hi. rewrite nth_error_map, Hi. simpl. now rewrite clip_cell_missing.
  - intros i v Hi.
    destruct (limits_of_ordered vs (1 # 10) (9 # 10) v) as (lo & hi & E & Hlh);
      [eapply nth_error_In; exact Hi|lra..|].
    rewrite E. simpl.
    destruct (clip_cell_present lo hi v Hlh) as (v' & Ev & Hv).
    exists lo, hi, v'. split; [reflexivity|]. split; [reflexivity|].
    split; [|exact Hv]. now rewrite nth_error_map, Hi; simpl; rewrite Ev.
Qed.

Lemma replace_with_thresholds_clamps_witness :
  houses_store !! 1%positive = Some houses /\
  getitem houses "LotArea" = Some (ColN [Some 10%Q; None; Some 30%Q; Some 20%Q]) /\
  exists low high vs',
    outlier_thresholds 1%positive "LotArea" (1 # 10) (9 # 10) houses_store =
      (inr (low, high), houses_store) /\
    replace_with_thresholds 1%positive "LotArea" (1 # 10) (9 # 10) houses_store =
      (inr tt, <[1%positive := setitem houses "LotArea" (ColN vs')]> houses_store) /\
    length vs' = 4.
Proof.
  split; [reflexivity|]. split; [reflexivity|].
  destruct (replace_with_thresholds_clamps houses_store 1%positive houses "LotArea"
              [Some 10%Q; None; Some 30%Q; Some 20%Q] eq_refl eq_refl)
    as (low & high & vs' & H1 & H2 & H3 & _).
  exists low, high, vs'. split; [exact H1|]. split; [exact H2|exact H3].
Defined.

Lemma grab_col_names_partition_witness :
  houses_store !! 1%positive = Some houses /\
  List.NoDup (columns houses) /\
  exists cat_cols cat_but_car num_cols,
    grab_col_names 1%positive 10 20 houses_store =
      (inr (cat_cols, cat_but_car, num_cols), houses_store) /\
    Permutation (cat_cols ++ cat_but_car ++ num_cols) (columns houses).
Proof.
  assert (Hnd : List.NoDup (columns houses)).
  { repeat constructor; simpl; intuition discriminate. }
  split; [reflexivity|]. split; [exact Hnd|].
  destruct (grab_col_names_partition houses_store 1%positive houses 10 20 eq_refl Hnd)
    as (a & b & c & H1 & H2 & _).
  exists a, b, c. split; [exact H1|exact H2].
Defined.

(** *** Failures of [outlier_thresholds] *)

(** A numeric column without any present value is no error: both limits come
    out as NaN. *)
Lemma outlier_thresholds_all_missing_returns :
  getitem blank "LotArea" = Some (ColN [None; None]) /\
  outlier_thresholds 1%positive "LotArea" (1 # 10) (9 # 10) blank_store =
    (inr (None, None), blank_store) /\
  ~ (exists e h', outlier_thresholds 1%positive "LotArea" (1 # 10) (9 # 10) blank_store
                  = (inl e, h')).
Proof.
  split; [reflexivity|].
  assert (E : outlier_thresholds 1%positive "LotArea" (1 # 10) (9 # 10) blank_store =
              (inr (None, None), blank_store)).
  { apply (outlier_thresholds_numeric blank_store 1%positive blank "LotArea"
             [None; None] (1 # 10) (9 # 10)); reflexivity. }
  split; [exact E|]. intros (e & h' & F). rewrite E in F. discriminate.
Qed.

(** C7 (amended): [outlier_thresholds] raises when the named column is not in
    the frame, and when it is a text column that holds at least one text
    value; on a numeric column without any present value, with percentiles
    inside [0, 1], it raises nothing and returns NaN for both limits.  The
    store is never changed. *)
Theorem outlier_thresholds_failures (h : store) (r : ref) (df : DataFrame)
    (variable : string) (lq uq : Q) :
  h !! r = Some df ->
  (getitem df variable = None ->
     outlier_thresholds r variable lq uq h = (inl (KeyError variable), h)) /\
  (forall vs, getitem df variable = Some (ColO vs) -> dropna vs <> [] ->
     exists e, outlier_thresholds r variable lq uq h = (inl e, h)) /\
  (forall vs, getitem df variable = Some (ColN vs) -> dropna vs = [] ->
     valid_percentile lq = true -> valid_percentile uq = true ->
     outlier_thresholds r variable lq uq h = (inr (None, None), h)).
Proof.
  intros Hr. split; [|split].
  - intros Hc. unfold outlier_thresholds, bind, deref, column_of, lift_opt, raise.
    now rewrite Hr, Hc.
  - intros vs Hc Hne.
    unfold outlier_thresholds, bind, deref, column_of, lift_opt, series_quantile, raise, ret.
    rewrite Hr, Hc. simpl.
    destruct (valid_percentile lq); simpl; [|now eexists].
    destruct (dropna vs); [congruence|now eexists].
  - intros vs Hc He Hl Hu.
    rewrite (outlier_thresholds_numeric h r df variable vs lq uq Hr Hc Hl Hu).
    unfold limits_of. now rewrite He.
Qed.

Lemma outlier_thresholds_failures_witness :
  houses_store !! 1%positive = Some houses /\
  outlier_thresholds 1%positive "GarageArea" (1 # 10) (9 # 10) houses_store =
    (inl (KeyError "GarageArea"), houses_store) /\
  exists e, outlier_thresholds 1%positive "Neighborhood" (1 # 10) (9 # 10) houses_store =
    (inl e, houses_store).
Proof.
  split; [reflexivity|].
  destruct (outlier_thresholds_failures houses_store 1%positive houses "GarageArea"
              (1 # 10) (9 # 10) eq_refl) as (Habsent & _ & _).
  destruct (outlier_thresholds_failures houses_store 1%positive houses "Neighborhood"
              (1 # 10) (9 # 10) eq_refl) as (_ & Htext & _).
  split; [apply Habsent; reflexivity|].
  apply (Htext [Some "A"%string; Some "B"%string; None; Some "A"%string]);
    [reflexivity|discriminate].
Defined.

(** ** [rare_encoder] *)

Section RareLoop.
Variable rare_perc : Q.
Variable len : nat.

Let F := rare_partial rare_perc len.

Lemma rare_partial_name (done : list string) (p : string * Column) :
  fst (F done p) = fst p.
Proof. unfold F, rare_partial. now destruct (str_in (fst p) done). Qed.

Lemma rare_partial_get (done : list string) (l : list (string * Column)) (col : string) :
  ~ In col done ->
  assoc_get (List.map (F done) l) col = assoc_get l col.
Proof.
  intros Hnd. induction l as [|[n c] l IH]; simpl; [reflexivity|].
  pose proof (rare_partial_name done (n, c)) as Hn. simpl in Hn.
  destruct (F done (n, c)) as [n' c'] eqn:E. simpl in Hn. subst n'.
  destruct (String.eqb n col) eqn:En; [|exact IH].
  apply String.eqb_eq in En. subst n.
  unfold F, rare_partial in E. simpl in E.
  apply str_in_false in Hnd. rewrite Hnd in E. congruence.
Qed.

Lemma rare_partial_absent (done : list string) (l : list (string * Column)) (col : string) :
  ~ In col (List.map fst l) ->
  List.map (F (col :: done)) l = List.map (F done) l.
Proof.
  intros Hn. apply map_ext_in. intros [n c] Hin.
  unfold F, rare_partial. simpl.
  destruct (String.eqb n col) eqn:E; [|reflexivity].
  apply String.eqb_eq in E. subst n. exfalso. apply Hn.
  apply in_map_iff. now exists (col, c).
Qed.

Lemma rare_partial_set (done : list string) (l : list (string * Column))
    (col : string) (c : Column) :
  List.NoDup (List.map fst l) ->
  assoc_get l col = Some c ->
  ~ In col done ->
  assoc_set (List.map (F done) l) col (rare_column rare_perc len c) =
    List.map (F (col :: done)) l.
Proof.
  intros Hnd Hg Hd. induction l as [|[n c0] l IH]; simpl in *; [discriminate|].
  inversion Hnd as [|? ? Hnot Hnd']; subst.
  pose proof (rare_partial_name done (n, c0)) as Hn. simpl in Hn.
  destruct (F done (n, c0)) as [n' c'] eqn:E. simpl in Hn. subst n'.
  destruct (String.eqb n col) eqn:En.
  - apply String.eqb_eq in En. subst n. injection Hg as ->.
    rewrite (rare_partial_absent done l col Hnot).
    unfold F at 2. unfold rare_partial. simpl. now rewrite String.eqb_refl.
  - rewrite (IH Hnd' Hg). f_equal.
    unfold F, rare_partial in *. simpl in *. now rewrite En.
Qed.

Lemma rare_partial_ext (d1 d2 : list string) (l : list (string * Column)) :
  (forall c, In c d1 <-> In c d2) ->
  List.map (F d1) l = List.map (F d2) l.
Proof.
  intros Hd. apply map_ext. intros p. unfold F, rare_partial.
  assert (E : str_in (fst p) d1 = str_in (fst p) d2).
  { destruct (str_in (fst p) d2) eqn:E2.
    - apply str_in_In. apply Hd. now apply str_in_In.
    - apply str_in_false. rewrite Hd. now apply str_in_false. }
  now rewrite E.
Qed.

(** the loop of [rare_encoder], run on the frame behind [t] *)
Lemma rare_loop (t : ref) (l : list (string * Column)) (todo : list string) :
  List.NoDup (List.map fst l) ->
  forall (done : list string) (h : store),
    h !! t = Some (mkDF len (List.map (F done) l)) ->
    List.NoDup todo ->
    (forall c, In c todo -> ~ In c done) ->
    (forall c, In c todo -> exists vs, assoc_get l c = Some (ColO vs)) ->
    for_each todo (rare_encode_column t rare_perc) h =
      (inr tt, <[t := mkDF len (List.map (F (todo ++ done)) l)]> h).
Proof.
  intros Hnd. induction todo as [|col todo IH]; intros done h Ht Htodo Hdis Hobj; simpl.
  - unfold ret. now rewrite insert_id.
  - inversion Htodo as [|? ? Hnotin Htodo']; subst.
    destruct (Hobj col (or_introl eq_refl)) as [vs Hvs].
    assert (Hcd : ~ In col done) by (apply Hdis; now left).
    unfold bind at 1. unfold rare_encode_column at 1.
    unfold bind, deref, column_of, lift_opt, getitem, assign, ret.
    rewrite Ht. simpl. rewrite (rare_partial_get done l col Hcd), Hvs.
    unfold setitem. simpl.
    change (ColO (np_where_rare (rare_labels vs len rare_perc) vs))
      with (rare_column rare_perc len (ColO vs)).
    rewrite (rare_partial_set done l col (ColO vs) Hnd Hvs Hcd).
    rewrite (IH (col :: done) _ (lookup_insert_eq _ _ _) Htodo').
    + rewrite insert_insert_eq. f_equal. f_equal. f_equal.
      apply rare_partial_ext. intros c. rewrite !in_app_iff. simpl.
      rewrite in_app_iff. tauto.
    + intros c Hc [E|Hin]; [now subst|]. eapply Hdis; [right; exact Hc|exact Hin].
    + intros c Hc. apply Hobj. now right.
Qed.
End RareLoop.

Lemma assoc_get_In (l : list (string * Column)) (n : string) (c : Column) :
  List.NoDup (List.map fst l) -> In (n, c) l -> assoc_get l n = Some c.
Proof.
  induction l as [|[n0 c0] l IH]; simpl; [tauto|].
  intros Hnd [E|Hin]; inversion Hnd as [|? ? Hnot Hnd']; subst.
  - injection E as -> ->. now rewrite String.eqb_refl.
  - destruct (String.eqb n0 n) eqn:En; [|now apply IH].
    apply String.eqb_eq in En. subst n0. exfalso. apply Hnot.
    apply in_map_iff. now exists (n, c).
Qed.

Lemma assoc_get_Some_In (l : list (string * Column)) (n : string) (c : Column) :
  assoc_get l n = Some c -> In (n, c) l.
Proof.
  induction l as [|[n0 c0] l IH]; simpl; [discriminate|].
  destruct (String.eqb n0 n) eqn:En.
  - apply String.eqb_eq in En. intros [= ->]. subst. now left.
  - intros Hg. right. now apply IH.
Qed.

Lemma np_where_rare_nil (vs : list (option string)) : np_where_rare [] vs = vs.
Proof.
  unfold np_where_rare. rewrite <- (List.map_id vs) at 2.
  apply map_ext. now intros [x|].
Qed.

Lemma rare_column_id (rare_perc : Q) (len : nat) (c : Column) :
  is_object c && has_rare c len rare_perc = false ->
  rare_column rare_perc len c = c.
Proof.
  destruct c as [vs|vs]; simpl; [|reflexivity].
  intros Hn. unfold rare_labels.
  assert (E : List.filter (fun p => is_rare (snd p) len rare_perc) (value_counts vs) = []).
  { induction (value_counts vs) as [|p l IH]; simpl in *; [reflexivity|].
    apply orb_false_iff in Hn as [Hp Hl]. rewrite Hp. now apply IH. }
  rewrite E. simpl. now rewrite np_where_rare_nil.
Qed.

(** [rare_encoder] builds one new frame: the copy, with every column passed
    through [rare_column]; nothing else in the store changes. *)
Lemma rare_encoder_frame (h : store) (r : ref) (df : DataFrame) (rare_perc : Q) :
  h !! r = Some df ->
  List.NoDup (columns df) ->
  rare_encoder r rare_perc h =
    (inr (fresh (dom h)), <[fresh (dom h) := rare_frame rare_perc df]> h).
Proof.
  intros Hr Hnd. destruct df as [len l]. unfold columns in Hnd. simpl in Hnd.
  set (t := fresh (dom h)).
  assert (Hid : forall d, d = [] -> List.map (rare_partial rare_perc len d) l = l).
  { intros d ->. rewrite <- (List.map_id l) at 2. now apply map_ext. }
  unfold rare_encoder, copy, bind, deref, new_frame, ret. rewrite Hr. fold t.
  rewrite lookup_insert_eq.
  rewrite (rare_loop rare_perc len t l
             (rare_columns_of (mkDF len l) rare_perc) Hnd [] (<[t := mkDF len l]> h)).
  - rewrite insert_insert_eq. f_equal. f_equal. unfold rare_frame. simpl. f_equal.
    apply map_ext_in. intros [n c] Hin. unfold rare_partial. simpl.
    rewrite app_nil_r.
    destruct (str_in n (rare_columns_of (mkDF len l) rare_perc)) eqn:E; [reflexivity|].
    unfold rare_columns_of, columns in E. simpl in E.
    rewrite str_in_filter in E by (apply in_map_iff; now exists (n, c)).
    unfold getitem in E. simpl in E. rewrite (assoc_get_In l n c Hnd Hin) in E.
    now rewrite rare_column_id.
  - rewrite lookup_insert_eq. now rewrite Hid.
  - apply List.NoDup_filter. exact Hnd.
  - tauto.
  - intros c Hc. unfold rare_columns_of in Hc. apply filter_In in Hc as [_ Hc].
    unfold getitem in Hc. simpl in Hc.
    destruct (assoc_get l c) as [[vs|vs]|]; [now exists vs|discriminate..].
Qed.

Lemma memb_In_str (x : string) (l : list string) : memb x l = true <-> In x l.
Proof. apply str_in_In. Qed.

Lemma uniq_acc_In_str (seen l : list string) (x : string) :
  In x (uniq_acc seen l) <-> In x seen \/ In x l.
Proof.
  revert seen. induction l as [|y l IH]; intros seen; simpl.
  - rewrite <- in_rev. tauto.
  - destruct (memb y seen) eqn:E; rewrite IH; simpl.
    + apply memb_In_str in E. split; [tauto|]. intros [H|[->|H]]; tauto.
    + tauto.
Qed.

Lemma uniq_In_str (l : list string) (x : string) : In x (uniq l) <-> In x l.
Proof. unfold uniq. rewrite uniq_acc_In_str. simpl. tauto. Qed.

Lemma rare_labels_In (vs : list (option string)) (len : nat) (rare_perc : Q) (x : string) :
  In x (rare_labels vs len rare_perc) <->
  In (Some x) vs /\ is_rare (count x (dropna vs)) len rare_perc = true.
Proof.
  unfold rare_labels, value_counts. rewrite in_map_iff. split.
  - intros ([y n] & E & Hin). simpl in E. subst y.
    apply filter_In in Hin as [Hin Hr]. simpl in Hr.
    apply in_map_iff in Hin as (z & Ez & Hz). injection Ez as -> <-.
    apply uniq_In_str, dropna_In in Hz. now split.
  - intros [Hin Hr]. exists (x, count x (dropna vs)). split; [reflexivity|].
    apply filter_In. split; [|exact Hr].
    apply in_map_iff. exists x. split; [reflexivity|].
    now apply uniq_In_str, dropna_In.
Qed.

Lemma np_where_rare_relabel (vs : list (option string)) (len : nat) (rare_perc : Q) :
  np_where_rare (rare_labels vs len rare_perc) vs = List.map (relabel rare_perc len vs) vs.
Proof.
  unfold np_where_rare. apply map_ext_in. intros [x|] Hin; simpl; [|reflexivity].
  destruct (is_rare (count x (dropna vs)) len rare_perc) eqn:E.
  - assert (Hl : str_in x (rare_labels vs len rare_perc) = true)
      by (apply str_in_In, rare_labels_In; now split).
    now rewrite Hl.
  - assert (Hl : str_in x (rare_labels vs len rare_perc) = false).
    { apply str_in_false. rewrite rare_labels_In. intros [_ F]. congruence. }
    now rewrite Hl.
Qed.

(** a category that is kept keeps all its rows, and gains none *)
Lemma count_relabel (vs ws : list (option string)) (len : nat) (rare_perc : Q) (x : string) :
  x <> "Rare"%string ->
  is_rare (count x (dropna vs)) len rare_perc = false ->
  count x (dropna (List.map (relabel rare_perc len vs) ws)) = count x (dropna ws).
Proof.
  intros Hx Hkeep. unfold count.
  induction ws as [|[y|] ws IH]; simpl; [reflexivity| |exact IH].
  destruct (is_rare (count y (dropna vs)) len rare_perc) eqn:Ey; simpl.
  - destruct (String.eqb x "Rare") eqn:E1; [apply String.eqb_eq in E1; contradiction|].
    destruct (String.eqb x y) eqn:E2; [|exact IH].
    apply String.eqb_eq in E2. subst y. unfold count in Hkeep, Ey. congruence.
  - destruct (String.eqb x y); simpl; [f_equal|]; exact IH.
Qed.

Lemma relabel_idempotent (vs : list (option string)) (len : nat) (rare_perc : Q) :
  let ws := List.map (relabel rare_perc len vs) vs in
  List.map (relabel rare_perc len ws) ws = ws.
Proof.
  intros ws. rewrite <- (List.map_id ws) at 3. apply map_ext_in.
  intros c Hc. unfold ws in Hc. apply in_map_iff in Hc as (c0 & E & Hc0).
  destruct c0 as [y|]; simpl in E; [|now subst c].
  destruct (is_rare (count y (dropna vs)) len rare_perc) eqn:Ey; subst c; simpl.
  - destruct (is_rare (count "Rare" (dropna ws)) len rare_perc); reflexivity.
  - destruct (String.eqb_spec y "Rare") as [->|Hne].
    + destruct (is_rare (count "Rare" (dropna ws)) len rare_perc); reflexivity.
    + unfold ws. rewrite (count_relabel vs vs len rare_perc y Hne Ey). now rewrite Ey.
Qed.

Lemma rare_column_idempotent (rare_perc : Q) (len : nat) (c : Column) :
  rare_column rare_perc len (rare_column rare_perc len c) = rare_column rare_perc len c.
Proof.
  destruct c as [vs|vs]; simpl; [|reflexivity].
  rewrite !np_where_rare_relabel. f_equal. apply relabel_idempotent.
Qed.

Lemma rare_frame_idempotent (rare_perc : Q) (df : DataFrame) :
  rare_frame rare_perc (rare_frame rare_perc df) = rare_frame rare_perc df.
Proof.
  unfold rare_frame. simpl. f_equal. rewrite List.map_map. apply map_ext.
  intros [n c]. simpl. now rewrite rare_column_idempotent.
Qed.

Lemma rare_frame_columns (rare_perc : Q) (df : DataFrame) :
  columns (rare_frame rare_perc df) = columns df.
Proof.
  unfold columns, rare_frame. simpl. rewrite List.map_map. now apply map_ext.
Qed.

(** C4: [rare_encoder] is idempotent.  Encoding a frame gives a new frame
    [out]; encoding [out] again gives one more new frame whose content is
    exactly [out], whatever the threshold -- also when the label "Rare" is
    itself below the threshold, in which case its cells are rewritten to
    "Rare" again.  Neither call changes a frame that existed before it. *)
Theorem rare_encoder_idempotent (h : store) (r : ref) (df : DataFrame) (rare_perc : Q) :
  h !! r = Some df ->
  List.NoDup (columns df) ->
  exists r1 h1 r2 h2 out,
    rare_encoder r rare_perc h = (inr r1, h1) /\
    h1 !! r1 = Some out /\
    h1 !! r = Some df /\
    rare_encoder r1 rare_perc h1 = (inr r2, h2) /\
    h2 !! r2 = Some out /\
    h2 !! r1 = Some out /\
    h2 !! r = Some df.
Proof.
  intros Hr Hnd.
  set (r1 := fresh (dom h)). set (out := rare_frame rare_perc df).
  set (h1 := <[r1 := out]> h).
  assert (H1 : h1 !! r1 = Some out) by apply lookup_insert_eq.
  assert (Hne : r1 <> r) by (eapply fresh_ne; exact Hr).
  assert (Hnd1 : List.NoDup (columns out)) by (unfold out; now rewrite rare_frame_columns).
  set (r2 := fresh (dom h1)).
  assert (Hne1 : r2 <> r1) by (eapply fresh_ne; exact H1).
  assert (H1r : h1 !! r = Some df) by (unfold h1; now rewrite lookup_insert_ne).
  assert (Hne2 : r2 <> r) by (eapply fresh_ne; exact H1r).
  exists r1, h1, r2, (<[r2 := out]> h1), out. repeat split.
  - apply rare_encoder_frame; assumption.
  - exact H1.
  - exact H1r.
  - rewrite (rare_encoder_frame h1 r1 out rare_perc H1 Hnd1). fold r2.
    replace (rare_frame rare_perc out) with out; [reflexivity|].
    unfold out. now rewrite rare_frame_idempotent.
  - apply lookup_insert_eq.
  - now rewrite lookup_insert_ne.
  - now rewrite lookup_insert_ne.
Qed.

Lemma rare_encoder_idempotent_witness :
  houses_store !! 1%positive = Some houses /\
  List.NoDup (columns houses) /\
  exists r1 h1 r2 h2 out,
    rare_encoder 1%positive (1 # 2) houses_store = (inr r1, h1) /\
    h1 !! r1 = Some out /\
    rare_encoder r1 (1 # 2) h1 = (inr r2, h2) /\
    h2 !! r2 = Some out.
Proof.
  assert (Hnd : List.NoDup (columns houses)).
  { repeat constructor; simpl; intuition discriminate. }
  split; [reflexivity|]. split; [exact Hnd|].
  destruct (rare_encoder_idempotent houses_store 1%positive houses (1 # 2) eq_refl Hnd)
    as (r1 & h1 & r2 & h2 & out & H1 & H2 & _ & H3 & H4 & _).
  exists r1, h1, r2, h2, out. repeat split; assumption.
Defined.

Lemma is_rare_spec (n len : nat) (rare_perc : Q) :
  is_rare n len rare_perc = true <->
  len <> 0%nat /\ (of_nat_Q n / of_nat_Q len < rare_perc)%Q.
Proof.
  unfold is_rare, fdiv, flt.
  destruct (Qeq_bool (of_nat_Q len) 0) eqn:E.
  - apply Qeq_bool_iff in E. unfold of_nat_Q, Qeq in E. simpl in E.
    split; [discriminate|]. intros [Hn _]. lia.
  - rewrite Qltb_lt. split; [|tauto]. intros Hlt. split; [|exact Hlt].
    intros ->. discriminate.
Qed.

Lemma getitem_rare_frame (rare_perc : Q) (df : DataFrame) (col : string) :
  getitem (rare_frame rare_perc df) col =
  option_map (rare_column rare_perc (nrows df)) (getitem df col).
Proof.
  unfold getitem, rare_frame. simpl.
  induction (dcols df) as [|[n c] l IH]; simpl; [reflexivity|].
  now destruct (String.eqb n col).
Qed.

(** C10: [rare_encoder] never touches a missing entry.  In the frame it
    returns, a numeric column is as it was; a text column has the same length
    and is missing at exactly the same positions, and a present cell is
    either kept or becomes "Rare".  The labels that are replaced are those of
    present cells whose count, divided by the number of rows of the frame
    (missing rows included), is below the threshold. *)
Theorem rare_encoder_keeps_missing (h : store) (r : ref) (df : DataFrame) (rare_perc : Q) :
  h !! r = Some df ->
  frame_wf df ->
  exists r' out,
    rare_encoder r rare_perc h = (inr r', <[r' := out]> h) /\
    h !! r' = None /\
    columns out = columns df /\
    nrows out = nrows df /\
    (forall col vs, getitem df col = Some (ColN vs) -> getitem out col = Some (ColN vs)) /\
    (forall col vs, getitem df col = Some (ColO vs) ->
       exists vs',
         getitem out col = Some (ColO vs') /\
         length vs' = length vs /\
         (forall i, nth_error vs i = Some None <-> nth_error vs' i = Some None) /\
         (forall i x, nth_error vs i = Some (Some x) ->
            nth_error vs' i =
              Some (Some (if str_in x (rare_labels vs (nrows df) rare_perc)
                          then "Rare"%string else x))) /\
         (forall x, In x (rare_labels vs (nrows df) rare_perc) <->
            In (Some x) vs /\
            (of_nat_Q (count x (dropna vs)) / of_nat_Q (length vs) < rare_perc)%Q)).
Proof.
  intros Hr [Hnd Hlen].
  exists (fresh (dom h)), (rare_frame rare_perc df).
  split; [now apply rare_encoder_frame|].
  split; [apply fresh_lookup_None|].
  split; [apply rare_frame_columns|]. split; [reflexivity|]. split.
  - intros col vs Hc. now rewrite getitem_rare_frame, Hc.
  - intros col vs Hc. eexists. split; [now rewrite getitem_rare_frame, Hc|].
    assert (Hl : length vs = nrows df).
    { rewrite List.Forall_forall in Hlen.
      apply (Hlen (col, ColO vs)). now apply assoc_get_Some_In. }
    unfold np_where_rare. split; [apply List.length_map|]. split; [|split].
    + intros i. rewrite nth_error_map.
      destruct (nth_error vs i) as [[x|]|]; simpl; [|tauto|tauto].
      destruct (str_in x _); split; discriminate.
    + intros i x Hi. rewrite nth_error_map, Hi. simpl.
      now destruct (str_in x _).
    + intros x. rewrite rare_labels_In, is_rare_spec, Hl. split; [tauto|].
      intros [Hin Hlt]. split; [exact Hin|]. split; [|exact Hlt].
      rewrite <- Hl. destruct vs; [destruct Hin|discriminate].
Qed.

Lemma houses_wf : frame_wf houses.
Proof.
  split.
  - repeat constructor; simpl; intuition discriminate.
  - repeat constructor.
Qed.

Lemma rare_encoder_keeps_missing_witness :
  houses_store !! 1%positive = Some houses /\
  frame_wf houses /\
  exists r' out,
    rare_encoder 1%positive (1 # 2) houses_store = (inr r', <[r' := out]> houses_store) /\
    columns out = columns houses.
Proof.
  split; [reflexivity|]. split; [exact houses_wf|].
  destruct (rare_encoder_keeps_missing houses_store 1%positive houses (1 # 2)
              eq_refl houses_wf) as (r' & out & H1 & _ & H2 & _).
  exists r', out. split; assumption.
Defined.

(** ** [quick_missing_imp] *)

Lemma apply_columns_categorical (cat_length : Z) (l : list (string * Column)) (h : store) :
  apply_columns (fill_categorical cat_length) l h =
    match cat_filled_all cat_length l with
    | Some l' => (inr l', h)
    | None => (inl LookupError, h)
    end.
Proof.
  induction l as [|[n s] l IH]; simpl; [reflexivity|].
  unfold bind at 1.
  assert (E : fill_categorical cat_length s h =
              match cat_filled cat_length s with
              | Some s' => (inr s', h)
              | None => (inl LookupError, h)
              end).
  { destruct s as [vs|vs]; simpl; [|reflexivity].
    fold (cat_eligible cat_length vs).
    destruct (cat_eligible cat_length vs); [|reflexivity].
    unfold bind, mode0. now destruct (mode vs). }
  rewrite E. destruct (cat_filled cat_length s) as [s'|]; [|reflexivity].
  unfold bind. rewrite IH. now destruct (cat_filled_all cat_length l).
Qed.

Lemma apply_columns_numeric (stat : list (option Q) -> option Q)
    (l : list (string * Column)) (h : store) :
  apply_columns (fill_numeric stat) l h =
    (inr (List.map (fun p => (fst p, num_filled stat (snd p))) l), h).
Proof.
  induction l as [|[n s] l IH]; simpl; [reflexivity|].
  unfold bind at 1.
  assert (E : fill_numeric stat s h = (inr (num_filled stat s), h)).
  { destruct s as [vs|vs]; simpl; [reflexivity|]. now destruct (isnull_any vs). }
  rewrite E. unfold bind. now rewrite IH.
Qed.

Lemma bind_inr {A B} (c : M A) (k : A -> M B) (h h' : store) (a : A) :
  c h = (inr a, h') -> bind c k h = k a h'.
Proof. intros E. unfold bind. now rewrite E. Qed.

Lemma bind_inl {A B} (c : M A) (k : A -> M B) (h h' : store) (e : exn) :
  c h = (inl e, h') -> bind c k h = (inl e, h').
Proof. intros E. unfold bind. now rewrite E. Qed.

Lemma deref_run (h : store) (r : ref) (df : DataFrame) :
  h !! r = Some df -> deref r h = (inr df, h).
Proof. intros E. unfold deref. now rewrite E. Qed.

Lemma copy_run (h : store) (r : ref) (df : DataFrame) :
  h !! r = Some df -> copy r h = (inr (fresh (dom h)), <[fresh (dom h) := df]> h).
Proof. intros E. unfold copy. now rewrite (bind_inr _ _ _ _ _ (deref_run h r df E)). Qed.

Lemma df_apply_categorical_run (h : store) (r : ref) (df : DataFrame) (cat_length : Z) :
  h !! r = Some df ->
  df_apply r (fill_categorical cat_length) h =
    match cat_filled_all cat_length (dcols df) with
    | Some cs => (inr (fresh (dom h)), <[fresh (dom h) := mkDF (nrows df) cs]> h)
    | None => (inl LookupError, h)
    end.
Proof.
  intros E. unfold df_apply. rewrite (bind_inr _ _ _ _ _ (deref_run h r df E)).
  unfold bind. rewrite apply_columns_categorical.
  now destruct (cat_filled_all cat_length (dcols df)).
Qed.

Lemma df_apply_numeric_run (h : store) (r : ref) (df : DataFrame)
    (stat : list (option Q) -> option Q) :
  h !! r = Some df ->
  df_apply r (fill_numeric stat) h =
    (inr (fresh (dom h)),
     <[fresh (dom h) :=
         mkDF (nrows df) (List.map (fun p => (fst p, num_filled stat (snd p))) (dcols df))]> h).
Proof.
  intros E. unfold df_apply. rewrite (bind_inr _ _ _ _ _ (deref_run h r df E)).
  unfold bind. now rewrite apply_columns_numeric.
Qed.

(** What a call of [quick_missing_imp] does to the store: the copy and the
    frames of the two passes are new objects; the last one is returned. *)
Lemma quick_missing_imp_run (h : store) (r : ref) (df : DataFrame)
    (num_method : string) (cat_length : Z) (target : string) :
  h !! r = Some df ->
  let r1 := fresh (dom h) in
  let h1 := <[r1 := df]> h in
  quick_missing_imp r num_method cat_length target h =
    match cat_filled_all cat_length (dcols df) with
    | None => (inl LookupError, h1)
    | Some cs1 =>
        let r2 := fresh (dom h1) in
        let h2 := <[r2 := mkDF (nrows df) cs1]> h1 in
        let r3 := fresh (dom h2) in
        (inr r3, <[r3 := imputed_frame df num_method target cs1]> h2)
    end.
Proof.
  intros Hr r1 h1. unfold quick_missing_imp.
  rewrite (bind_inr _ _ _ _ _ (copy_run h r df Hr)). fold r1 h1.
  assert (H1 : h1 !! r1 = Some df) by apply lookup_insert_eq.
  rewrite (bind_inr _ _ _ _ _ (deref_run h1 r1 df H1)).
  pose proof (df_apply_categorical_run h1 r1 df cat_length H1) as Hc.
  destruct (cat_filled_all cat_length (dcols df)) as [cs1|].
  - rewrite (bind_inr _ _ _ _ _ Hc). cbv zeta.
    set (r2 := fresh (dom h1)). set (h2 := <[r2 := mkDF (nrows df) cs1]> h1).
    assert (H2 : h2 !! r2 = Some (mkDF (nrows df) cs1)) by apply lookup_insert_eq.
    assert (E : (if String.eqb num_method "mean"
                 then df_apply r2 (fill_numeric mean)
                 else df_apply r2 (fill_numeric median)) h2 =
                df_apply r2 (fill_numeric (stat_of num_method)) h2).
    { unfold stat_of. now destruct (String.eqb num_method "mean"). }
    rewrite (df_apply_numeric_run h2 r2 _ _ H2) in E. simpl in E.
    rewrite (bind_inr _ _ _ _ _ E).
    set (r3 := fresh (dom h2)). unfold imputed_frame.
    destruct (getitem df target) as [t|].
    + unfold bind, deref, assign, ret. rewrite lookup_insert_eq.
      now rewrite insert_insert_eq.
    + reflexivity.
  - now rewrite (bind_inl _ _ _ _ _ Hc).
Qed.

(** *** The mode *)

Lemma max_attained {A} (f : A -> nat) (l : list A) :
  l <> [] -> exists z, In z l /\ f z = fold_right Nat.max 0 (List.map f l).
Proof.
  induction l as [|x l IH]; [congruence|]. intros _. simpl.
  destruct l as [|y l].
  - exists x. split; [now left|]. simpl. lia.
  - destruct IH as (z & Hz & Ez); [discriminate|].
    destruct (Nat.max_spec (f x) (fold_right Nat.max 0 (List.map f (y :: l))))
      as [[_ E]|[_ E]]; rewrite E.
    + exists z. split; [now right|exact Ez].
    + exists x. split; [now left|reflexivity].
Qed.

Lemma max_ge {A} (f : A -> nat) (l : list A) (y : A) :
  In y l -> f y <= fold_right Nat.max 0 (List.map f l).
Proof.
  induction l as [|x l IH]; simpl; [tauto|].
  intros [->|Hin]; [lia|]. specialize (IH Hin). lia.
Qed.

Lemma count_absent (y : string) (l : list string) : ~ In y l -> count y l = 0.
Proof.
  intros Hn. unfold count. induction l as [|x l IH]; simpl; [reflexivity|].
  destruct (String.eqb_spec y x) as [->|_]; [exfalso; apply Hn; now left|].
  apply IH. intros Hin. apply Hn. now right.
Qed.

Lemma mode_nil_iff (vs : list (option string)) : mode vs = [] <-> dropna vs = [].
Proof.
  unfold mode. split.
  - intros E. apply isort_nil_inv in E.
    destruct (dropna vs) as [|x l] eqn:Ep; [reflexivity|exfalso].
    destruct (max_attained (fun y => count y (x :: l)) (x :: l)) as (z & Hz & Ez);
      [discriminate|].
    assert (Hin : In z (List.filter
               (fun y => count y (x :: l) =?
                         fold_right Nat.max 0 (List.map (fun y0 => count y0 (x :: l)) (x :: l)))
               (uniq (x :: l)))).
    { apply filter_In. split; [now apply uniq_In_str|]. apply Nat.eqb_eq. exact Ez. }
    rewrite E in Hin. destruct Hin.
  - intros ->. reflexivity.
Qed.

(** the head of [s.mode()] is a present value of the column, and no value
    occurs more often *)
Lemma mode_head_most_frequent (vs : list (option string)) (m : string) (rest : list string) :
  mode vs = m :: rest ->
  In (Some m) vs /\ forall y, count y (dropna vs) <= count m (dropna vs).
Proof.
  unfold mode. intros E.
  assert (Hin : In m (isort (List.filter
             (fun x => count x (dropna vs) =?
                       fold_right Nat.max 0 (List.map (fun x0 => count x0 (dropna vs)) (dropna vs)))
             (uniq (dropna vs))))) by (rewrite E; now left).
  eapply Permutation_in in Hin; [|apply isort_perm].
  apply filter_In in Hin as [Hu Hc]. apply Nat.eqb_eq in Hc.
  apply (proj1 (uniq_In_str _ _)) in Hu. split; [exact (proj1 (dropna_In m vs) Hu)|].
  intros y. rewrite Hc.
  destruct (in_dec string_dec y (dropna vs)) as [Hy|Hy].
  - apply (max_ge (fun x => count x (dropna vs))). exact Hy.
  - rewrite (count_absent y _ Hy). lia.
Qed.

Lemma cat_filled_None (cat_length : Z) (s : Column) :
  cat_filled cat_length s = None <-> blank_text cat_length s.
Proof.
  unfold blank_text. destruct s as [vs|vs]; simpl.
  - destruct (cat_eligible cat_length vs) eqn:E.
    + destruct (mode vs) as [|m rest] eqn:Em.
      * split; [|reflexivity]. intros _. exists vs.
        split; [reflexivity|]. split; [exact E|]. now apply mode_nil_iff.
      * split; [discriminate|]. intros (ws & [= <-] & _ & Hd).
        apply mode_nil_iff in Hd. congruence.
    + split; [discriminate|]. intros (ws & [= <-] & F & _). congruence.
  - split; [discriminate|]. intros (ws & F & _). discriminate.
Qed.

Lemma cat_filled_all_None (cat_length : Z) (l : list (string * Column)) :
  cat_filled_all cat_length l = None <->
  List.Exists (fun p => blank_text cat_length (snd p)) l.
Proof.
  induction l as [|[n s] l IH]; simpl.
  - split; [discriminate|]. intros F. inversion F.
  - rewrite List.Exists_cons. simpl. rewrite <- IH, <- cat_filled_None.
    destruct (cat_filled cat_length s), (cat_filled_all cat_length l);
      split; try discriminate; try tauto; intros [F|F]; discriminate.
Qed.

(** C1: whatever the frame and the fill strategy, [quick_missing_imp] leaves
    every frame that existed before the call -- the caller's one included --
    exactly as it was.  It raises precisely when some text column is selected
    for filling but has no present value; otherwise it returns a new frame
    with the same number of rows in which the target column, if the input
    has one, is the original column, missing entries included. *)
Theorem quick_missing_imp_preserves_target (h : store) (r : ref) (df : DataFrame)
    (num_method : string) (cat_length : Z) (target : string) :
  h !! r = Some df ->
  let res := quick_missing_imp r num_method cat_length target h in
  (forall r0 df0, h !! r0 = Some df0 -> snd res !! r0 = Some df0) /\
  ((exists e, fst res = inl e) <->
   List.Exists (fun p => blank_text cat_length (snd p)) (dcols df)) /\
  (~ List.Exists (fun p => blank_text cat_length (snd p)) (dcols df) ->
   exists r' out,
     fst res = inr r' /\
     h !! r' = None /\
     snd res !! r' = Some out /\
     nrows out = nrows df /\
     (forall t, getitem df target = Some t -> getitem out target = Some t)).
Proof.
  intros Hr res. unfold res. clear res.
  rewrite (quick_missing_imp_run h r df num_method cat_length target Hr). cbv zeta.
  set (r1 := fresh (dom h)). set (h1 := <[r1 := df]> h).
  assert (Hkeep1 : forall r0 df0, h !! r0 = Some df0 -> h1 !! r0 = Some df0).
  { intros r0 df0 H0. unfold h1. rewrite lookup_insert_ne; [exact H0|].
    eapply fresh_ne. exact H0. }
  pose proof (cat_filled_all_None cat_length (dcols df)) as Hnone.
  destruct (cat_filled_all cat_length (dcols df)) as [cs1|].
  - set (r2 := fresh (dom h1)). set (h2 := <[r2 := mkDF (nrows df) cs1]> h1).
    set (r3 := fresh (dom h2)).
    assert (Hkeep2 : forall r0 df0, h1 !! r0 = Some df0 -> h2 !! r0 = Some df0).
    { intros r0 df0 H0. unfold h2. rewrite lookup_insert_ne; [exact H0|].
      eapply fresh_ne. exact H0. }
    simpl. split; [|split].
    + intros r0 df0 H0. rewrite lookup_insert_ne; [now apply Hkeep2, Hkeep1|].
      eapply fresh_ne. apply Hkeep2, Hkeep1. exact H0.
    + split; [intros [e F]; discriminate|].
      intros F. apply Hnone in F. discriminate.
    + intros _. exists r3, (imputed_frame df num_method target cs1).
      split; [reflexivity|]. split; [|split; [apply lookup_insert_eq|split]].
      * destruct (h !! r3) as [d|] eqn:E; [|reflexivity].
        apply Hkeep1, Hkeep2 in E. unfold r3 in E.
        rewrite fresh_lookup_None in E. discriminate.
      * unfold imputed_frame. now destruct (getitem df target).
      * intros t Ht. unfold imputed_frame. rewrite Ht. apply getitem_setitem.
  - simpl. split; [exact Hkeep1|]. split.
    + split; [intros _; now apply Hnone|]. intros _. now exists LookupError.
    + intros F. exfalso. apply F. now apply Hnone.
Qed.

Lemma quick_missing_imp_preserves_target_witness :
  houses_store !! 1%positive = Some houses /\
  exists r' out,
    fst (quick_missing_imp 1%positive "median" 17 "SalePrice" houses_store) = inr r' /\
    snd (quick_missing_imp 1%positive "median" 17 "SalePrice" houses_store) !! r' = Some out /\
    getitem out "SalePrice" = Some (ColN [Some 100%Q; Some 200%Q; None; Some 300%Q]) /\
    snd (quick_missing_imp 1%positive "median" 17 "SalePrice" houses_store) !! 1%positive
      = Some houses.
Proof.
  split; [reflexivity|].
  destruct (quick_missing_imp_preserves_target houses_store 1%positive houses
              "median" 17 "SalePrice" eq_refl) as (Hkeep & _ & Hret).
  destruct Hret as (r' & out & H1 & _ & H2 & _ & H3).
  - intros F. repeat (apply List.Exists_cons in F as [F|F];
      [destruct F as (vs & E & He & Hd); simpl in E; try discriminate;
       injection E as <-; discriminate|]).
    inversion F.
  - exists r', out. split; [exact H1|]. split; [exact H2|].
    split; [apply H3; reflexivity|]. apply Hkeep. reflexivity.
Defined.

(** *** What the two passes leave in a column *)

(** With [cat_length = 1] a text column with one category and a missing
    entry is not filled: [len(s.unique())] counts the missing entry as a
    second distinct value. *)
Lemma quick_missing_imp_leaves_gap :
  getitem streets "Street" = Some (ColO [Some "Pave"%string; None]) /\
  (Z.of_nat (nunique [Some "Pave"%string; None]) <= 1)%Z /\
  exists r' h' out,
    quick_missing_imp 1%positive "median" 1 "SalePrice" streets_store = (inr r', h') /\
    h' !! r' = Some out /\
    getitem out "Street" = Some (ColO [Some "Pave"%string; None]) /\
    isnull_any [Some "Pave"%string; None] = true.
Proof.
  split; [reflexivity|]. split; [vm_compute; discriminate|].
  eexists _, _, _. split; [|split; [|split]].
  - rewrite (quick_missing_imp_run streets_store 1%positive streets "median" 1 "SalePrice"
               eq_refl). simpl. reflexivity.
  - apply lookup_insert_eq.
  - reflexivity.
  - reflexivity.
Qed.

Lemma isnull_any_fillna {A} (v : A) (vs : list (option A)) :
  isnull_any (fillna v vs) = false.
Proof.
  unfold isnull_any, fillna. induction vs as [|[x|] vs IH]; simpl; auto.
Qed.

Lemma mean_Some (vs : list (option Q)) : dropna vs <> [] -> exists v, mean vs = Some v.
Proof. unfold mean. destruct (dropna vs); [congruence|]. intros _. now eexists. Qed.

Lemma median_Some (vs : list (option Q)) : dropna vs <> [] -> exists v, median vs = Some v.
Proof.
  unfold median. intros Hne.
  destruct (isort (dropna vs)) as [|x xs] eqn:E.
  - apply isort_nil_inv in E. congruence.
  - destruct (Nat.even (length (x :: xs))); now eexists.
Qed.

Lemma stat_of_Some (num_method : string) (vs : list (option Q)) :
  dropna vs <> [] -> exists v, stat_of num_method vs = Some v.
Proof.
  unfold stat_of. destruct (String.eqb num_method "mean");
    [apply mean_Some|apply median_Some].
Qed.

Lemma cat_filled_all_get (cat_length : Z) (l cs : list (string * Column)) (col : string) :
  cat_filled_all cat_length l = Some cs ->
  assoc_get cs col =
    match assoc_get l col with
    | Some s => cat_filled cat_length s
    | None => None
    end.
Proof.
  revert cs. induction l as [|[n s] l IH]; intros cs; simpl.
  - now intros [= <-].
  - destruct (cat_filled cat_length s) as [s'|] eqn:Es; [|discriminate].
    destruct (cat_filled_all cat_length l) as [r'|]; [|discriminate].
    intros [= <-]. simpl. destruct (String.eqb n col); [now rewrite Es|].
    now apply IH.
Qed.

Lemma assoc_get_map (f : Column -> Column) (l : list (string * Column)) (col : string) :
  assoc_get (List.map (fun p => (fst p, f (snd p))) l) col = option_map f (assoc_get l col).
Proof.
  induction l as [|[n s] l IH]; simpl; [reflexivity|].
  now destruct (String.eqb n col).
Qed.

(** a column other than the target, in the returned frame *)
Lemma imputed_frame_get (df : DataFrame) (num_method target : string) (cat_length : Z)
    (cs1 : list (string * Column)) (col : string) (s : Column) :
  cat_filled_all cat_length (dcols df) = Some cs1 ->
  col <> target ->
  getitem df col = Some s ->
  getitem (imputed_frame df num_method target cs1) col =
    option_map (num_filled (stat_of num_method)) (cat_filled cat_length s).
Proof.
  intros Hcs Hne Hs. unfold imputed_frame.
  assert (E : getitem (mkDF (nrows df)
                (List.map (fun p => (fst p, num_filled (stat_of num_method) (snd p))) cs1)) col =
              option_map (num_filled (stat_of num_method)) (cat_filled cat_length s)).
  { unfold getitem. simpl. rewrite assoc_get_map.
    rewrite (cat_filled_all_get cat_length (dcols df) cs1 col Hcs).
    unfold getitem in Hs. now rewrite Hs. }
  destruct (getitem df target); [|exact E].
  rewrite getitem_setitem_other; [exact E|congruence].
Qed.

(** C2 (amended): when no text column selected for filling is without any
    present value (the call raises otherwise), [quick_missing_imp] returns a
    frame in which, apart from the target column,
    - a text column whose number of distinct values, a missing entry counted
      as one value, is at most [cat_length] has no missing entry: its missing
      entries hold a most frequent present value of the column, the other
      entries are unchanged;
    - a numeric column with at least one present value has no missing entry:
      its missing entries hold the mean (strategy "mean") or the median (any
      other strategy) of the column, the other entries are unchanged. *)
Theorem quick_missing_imp_fills (h : store) (r : ref) (df : DataFrame)
    (num_method : string) (cat_length : Z) (target : string) :
  h !! r = Some df ->
  ~ List.Exists (fun p => blank_text cat_length (snd p)) (dcols df) ->
  let res := quick_missing_imp r num_method cat_length target h in
  exists r' out,
    fst res = inr r' /\
    snd res !! r' = Some out /\
    (forall col vs,
       col <> target ->
       getitem df col = Some (ColO vs) ->
       (Z.of_nat (unique_len vs) <= cat_length)%Z ->
       exists vs',
         getitem out col = Some (ColO vs') /\
         isnull_any vs' = false /\
         (isnull_any vs = false -> vs' = vs) /\
         (isnull_any vs = true ->
          exists m, In (Some m) vs /\
                    (forall y, count y (dropna vs) <= count m (dropna vs)) /\
                    vs' = fillna m vs)) /\
    (forall col vs,
       col <> target ->
       getitem df col = Some (ColN vs) ->
       dropna vs <> [] ->
       exists vs',
         getitem out col = Some (ColN vs') /\
         isnull_any vs' = false /\
         (isnull_any vs = false -> vs' = vs) /\
         (isnull_any vs = true ->
          exists v, stat_of num_method vs = Some v /\ vs' = fillna v vs)).
Proof.
  intros Hr Hnb res. unfold res. clear res.
  rewrite (quick_missing_imp_run h r df num_method cat_length target Hr). cbv zeta.
  pose proof (cat_filled_all_None cat_length (dcols df)) as Hnone.
  destruct (cat_filled_all cat_length (dcols df)) as [cs1|] eqn:Hcs;
    [|exfalso; now apply Hnb, Hnone].
  eexists _, _. split; [reflexivity|]. split; [apply lookup_insert_eq|]. split.
  - intros col vs Hne Hc Hu.
    rewrite (imputed_frame_get df num_method target cat_length cs1 col (ColO vs) Hcs Hne Hc).
    simpl. unfold cat_eligible. apply Z.leb_le in Hu. rewrite Hu. simpl.
    destruct (isnull_any vs) eqn:En.
    + destruct (mode vs) as [|m rest] eqn:Em.
      * exfalso. apply Hnb. apply List.Exists_exists. exists (col, ColO vs).
        split; [now apply assoc_get_Some_In|]. exists vs. split; [reflexivity|].
        unfold cat_eligible. rewrite Hu, En. split; [reflexivity|].
        now apply mode_nil_iff.
      * destruct (mode_head_most_frequent vs m rest Em) as [Hin Hmax].
        exists (fillna m vs). simpl. split; [reflexivity|].
        split; [apply isnull_any_fillna|]. split; [discriminate|].
        intros _. now exists m.
    + exists vs. simpl. split; [reflexivity|]. split; [exact En|].
      split; [reflexivity|discriminate].
  - intros col vs Hne Hc Hd.
    rewrite (imputed_frame_get df num_method target cat_length cs1 col (ColN vs) Hcs Hne Hc).
    simpl. destruct (isnull_any vs) eqn:En.
    + destruct (stat_of_Some num_method vs Hd) as [v Ev]. rewrite Ev. simpl.
      exists (fillna v vs). split; [reflexivity|]. split; [apply isnull_any_fillna|].
      split; [discriminate|]. intros _. now exists v.
    + exists vs. split; [reflexivity|]. split; [exact En|].
      split; [reflexivity|discriminate].
Qed.

Lemma houses_not_blank (cat_length : Z) :
  ~ List.Exists (fun p => blank_text cat_length (snd p)) (dcols houses).
Proof.
  intros F. repeat (apply List.Exists_cons in F as [F|F];
    [destruct F as (vs & E & He & Hd); simpl in E; try discriminate;
     injection E as <-; discriminate|]).
  inversion F.
Qed.

Lemma quick_missing_imp_fills_witness :
  houses_store !! 1%positive = Some houses /\
  ~ List.Exists (fun p => blank_text 17 (snd p)) (dcols houses) /\
  exists r' out,
    fst (quick_missing_imp 1%positive "median" 17 "SalePrice" houses_store) = inr r' /\
    snd (quick_missing_imp 1%positive "median" 17 "SalePrice" houses_store) !! r' = Some out /\
    (exists vs', getitem out "LotArea" = Some (ColN vs') /\ isnull_any vs' = false) /\
    (exists vs', getitem out "Neighborhood" = Some (ColO vs') /\ isnull_any vs' = false).
Proof.
  split; [reflexivity|]. split; [apply houses_not_blank|].
  destruct (quick_missing_imp_fills houses_store 1%positive houses "median" 17 "SalePrice"
              eq_refl (houses_not_blank 17)) as (r' & out & H1 & H2 & Htext & Hnum).
  exists r', out. split; [exact H1|]. split; [exact H2|]. split.
  - destruct (Hnum "LotArea"%string [Some 10%Q; None; Some 30%Q; Some 20%Q])
      as (vs' & Hg & Hn & _); [discriminate|reflexivity|discriminate|].
    now exists vs'.
  - destruct (Htext "Neighborhood"%string
                [Some "A"%string; Some "B"%string; None; Some "A"%string])
      as (vs' & Hg & Hn & _); [discriminate|reflexivity|vm_compute; discriminate|].
    now exists vs'.
Defined.

(** ** [one_hot_encoder] *)

#[global] Instance string_cell_laws : CellLaws string.
Proof.
  split; simpl.
  - apply String.eqb_refl.
  - apply String.eqb_sym.
  - intros x y z Hxy Hyz. apply String.eqb_eq in Hxy, Hyz. subst. apply String.eqb_refl.
Qed.

#[global] Instance Q_cell_laws : CellLaws Q.
Proof.
  split; simpl.
  - intros x. apply Qeq_bool_iff. reflexivity.
  - intros x y. destruct (Qeq_bool y x) eqn:E.
    + apply Qeq_bool_iff. apply Qeq_bool_iff in E. now symmetry.
    + destruct (Qeq_bool x y) eqn:E'; [|reflexivity].
      apply Qeq_bool_iff in E'. symmetry in E'. apply Qeq_bool_iff in E'. congruence.
  - intros x y z Hxy Hyz. apply Qeq_bool_iff in Hxy, Hyz. apply Qeq_bool_iff.
    now rewrite Hxy.
Qed.

Section Distinct.
Context {A : Type} `{CellLaws A}.

Lemma memb_equiv (x y : A) (l : list A) :
  ceqb x y = true -> memb y l = true -> memb x l = true.
Proof.
  unfold memb. rewrite !existsb_exists. intros Hxy (z & Hz & Hyz).
  exists z. split; [exact Hz|]. now apply ceqb_trans with y.
Qed.

Lemma count_rev (x : A) (l : list A) : count x (List.rev l) = count x l.
Proof.
  unfold count. induction l as [|y l IH]; simpl; [reflexivity|].
  rewrite List.filter_app, List.length_app, IH. simpl.
  destruct (ceqb x y); simpl; lia.
Qed.

Lemma count_perm (x : A) (l l' : list A) :
  Permutation l l' -> count x l = count x l'.
Proof.
  unfold count. induction 1; simpl; try congruence.
  - destruct (ceqb x x0); simpl; congruence.
  - destruct (ceqb x x0), (ceqb x y); reflexivity.
Qed.

(** among the distinct values, each value met is found exactly once *)
Lemma count_uniq_acc (l seen : list A) :
  (forall x, count x seen = if memb x seen then 1 else 0) ->
  forall x, count x (uniq_acc seen l) = if memb x seen || memb x l then 1 else 0.
Proof.
  revert seen. induction l as [|y l IH]; intros seen Hseen x; simpl.
  - rewrite count_rev, orb_false_r. apply Hseen.
  - destruct (memb y seen) eqn:Ey.
    + rewrite (IH seen Hseen x).
      destruct (memb x seen) eqn:Ex; [reflexivity|]. simpl.
      destruct (ceqb x y) eqn:Exy; [|reflexivity].
      rewrite (memb_equiv x y seen Exy Ey) in Ex. discriminate.
    + rewrite (IH (y :: seen)).
      * unfold memb. simpl.
        destruct (ceqb x y), (existsb (ceqb x) seen), (existsb (ceqb x) l); reflexivity.
      * intros z. specialize (Hseen z). unfold count, memb in *. simpl.
        destruct (ceqb z y) eqn:Ezy; simpl; [|exact Hseen].
        destruct (existsb (ceqb z) seen) eqn:Ez.
        -- rewrite ceqb_sym in Ezy.
           pose proof (memb_equiv y z seen Ezy Ez) as F. unfold memb in F. congruence.
        -- now rewrite Hseen.
Qed.

Lemma count_levels (vs : list (option A)) (x : A) :
  In (Some x) vs -> count x (levels vs) = 1.
Proof.
  intros Hin. unfold levels.
  rewrite (count_perm x _ _ (isort_perm _)). unfold uniq.
  rewrite count_uniq_acc by reflexivity. simpl.
  assert (E : memb x (dropna vs) = true).
  { unfold memb. apply existsb_exists. exists x.
    split; [now apply dropna_In|apply ceqb_refl]. }
  now rewrite E.
Qed.

Lemma Qsum_indicator (x : A) (l : list A) :
  (Qsum (List.map (fun lv => if ceqb x lv then 1 else 0) l) == of_nat_Q (count x l))%Q.
Proof.
  unfold count, of_nat_Q. induction l as [|y l IH]; simpl; [reflexivity|].
  rewrite IH. destruct (ceqb x y); simpl length.
  - rewrite Nat2Z.inj_succ, <- Z.add_1_l, inject_Z_plus. reflexivity.
  - ring.
Qed.

(** the indicator cells of one row add up to 1 when the row holds a value,
    and to 0 when it does not *)
Lemma indicator_row_sum (name : A -> string) (vs : list (option A)) (i : nat) :
  (i < length vs)%nat ->
  (row_sum (List.map (fun lv => (name lv, indicator lv vs)) (levels vs)) i ==
     match nth i vs None with Some _ => 1 | None => 0 end)%Q.
Proof.
  intros Hi. unfold row_sum. rewrite List.map_map. simpl.
  assert (Hcell : forall lv,
            match nth i (List.map (fun c => match c with
                                            | Some x => if ceqb x lv then Some 1%Q else Some 0%Q
                                            | None => Some 0%Q
                                            end) vs) None with
            | Some v => v
            | None => 0%Q
            end =
            match nth i vs None with
            | Some x => if ceqb x lv then 1%Q else 0%Q
            | None => 0%Q
            end).
  { intros lv.
    rewrite (nth_indep _ None (Some 0%Q)) by (rewrite List.length_map; exact Hi).
    change (Some 0%Q) with ((fun c : option A => match c with
                              | Some x => if ceqb x lv then Some 1%Q else Some 0%Q
                              | None => Some 0%Q
                              end) None).
    rewrite map_nth. destruct (nth i vs None) as [x|]; [|reflexivity].
    now destruct (ceqb x lv). }
  rewrite (map_ext _ _ Hcell).
  destruct (nth i vs None) as [x|] eqn:Ex.
  - rewrite Qsum_indicator, count_levels; [reflexivity|].
    rewrite <- Ex. apply nth_In. exact Hi.
  - induction (levels vs) as [|lv l IH]; simpl; [reflexivity|].
    rewrite IH. ring.
Qed.
End Distinct.

Section OneHotProps.
Variable str_of_num : Q -> string.

Lemma filter_absent_nil (df : DataFrame) (cols : list string) :
  (forall c, In c cols -> getitem df c <> None) ->
  List.filter (absent df) cols = [].
Proof.
  induction cols as [|c cols IH]; intros Hall; simpl; [reflexivity|].
  unfold absent at 1. destruct (getitem df c) eqn:Ec.
  - apply IH. intros c' Hc'. apply Hall. now right.
  - exfalso. apply (Hall c); [now left|exact Ec].
Qed.

Lemma not_in_index_nil (df : DataFrame) (cols : list string) :
  (forall c, In c cols -> getitem df c <> None) ->
  not_in_index df cols = [].
Proof.
  intros Hall. unfold not_in_index. now rewrite filter_absent_nil.
Qed.

Lemma dummies_1d_drop_first_length (prefix : string) (s : Column) :
  length (dummies_1d str_of_num prefix s true) = pred (col_nunique s).
Proof.
  destruct s as [vs|vs]; simpl; rewrite List.length_map; unfold levels, nunique;
    rewrite <- (isort_length (uniq (dropna vs)));
    now destruct (isort (uniq (dropna vs))).
Qed.

Lemma dummies_1d_row_sum (prefix : string) (s : Column) (i : nat) :
  (i < col_len s)%nat ->
  (row_sum (dummies_1d str_of_num prefix s false) i ==
     if present_at s i then 1 else 0)%Q.
Proof.
  destruct s as [vs|vs]; simpl; intros Hi.
  - rewrite (indicator_row_sum (fun lv => (prefix ++ "_" ++ lv)%string) vs i Hi).
    now destruct (nth i vs None).
  - rewrite (indicator_row_sum (fun lv => (prefix ++ "_" ++ str_of_num lv)%string) vs i Hi).
    now destruct (nth i vs None).
Qed.

Lemma one_hot_encoder_run (h : store) (r : ref) (df : DataFrame)
    (cols : list string) (drop_first : bool) :
  h !! r = Some df ->
  cols <> [] ->
  (forall c, In c cols -> getitem df c <> None) ->
  one_hot_encoder str_of_num r cols drop_first h =
    (inr (fresh (dom h)),
     <[fresh (dom h) :=
         mkDF (nrows df)
              (List.filter (fun p => negb (str_in (fst p) cols)) (dcols df) ++
               flat_map (fun c => match getitem df c with
                                  | Some s => dummies_1d str_of_num c s drop_first
                                  | None => []
                                  end) cols)]> h).
Proof.
  intros Hr Hne Hall. destruct cols as [|c cols]; [congruence|].
  unfold one_hot_encoder. rewrite (bind_inr _ _ _ _ _ (deref_run h r df Hr)).
  unfold get_dummies. rewrite (not_in_index_nil df (c :: cols) Hall).
  reflexivity.
Qed.

(** C5 (amended): with an empty list of columns [one_hot_encoder] returns
    the very frame it was given and changes nothing in the store.
    Otherwise, when every listed column exists, it leaves the input frame
    as it is and returns a new frame made of the columns that are not
    listed followed by one block of indicator columns per listed column.
    With [drop_first] the block of a column with k distinct values has
    k - 1 columns (none when the column holds no value), so 2 for the
    values A, B, C.  Without [drop_first] the indicator cells of a row add
    up to 1 when the row holds a value in the encoded column, and to 0
    when that entry is missing. *)
Theorem one_hot_encoder_blocks (h : store) (r : ref) (df : DataFrame)
    (cols : list string) (drop_first : bool) :
  h !! r = Some df ->
  one_hot_encoder str_of_num r [] drop_first h = (inr r, h) /\
  (cols <> [] ->
   (forall c, In c cols -> getitem df c <> None) ->
   one_hot_encoder str_of_num r cols drop_first h =
     (inr (fresh (dom h)),
      <[fresh (dom h) :=
          mkDF (nrows df)
               (List.filter (fun p => negb (str_in (fst p) cols)) (dcols df) ++
                flat_map (fun c => match getitem df c with
                                   | Some s => dummies_1d str_of_num c s drop_first
                                   | None => []
                                   end) cols)]> h) /\
   h !! fresh (dom h) = None) /\
  (forall c s, getitem df c = Some s ->
     length (dummies_1d str_of_num c s true) = pred (col_nunique s)) /\
  List.map fst (dummies_1d str_of_num "MSZoning"
                  (ColO [Some "B"; Some "A"; Some "C"; Some "A"]%string) true)
    = ["MSZoning_B"; "MSZoning_C"]%string /\
  (forall c s i, getitem df c = Some s -> (i < col_len s)%nat ->
     (row_sum (dummies_1d str_of_num c s false) i ==
        if present_at s i then 1 else 0)%Q).
Proof.
  intros Hr. split; [reflexivity|]. split; [|split; [|split]].
  - intros Hne Hall. split; [|apply fresh_lookup_None].
    now apply one_hot_encoder_run.
  - intros c s _. apply dummies_1d_drop_first_length.
  - reflexivity.
  - intros c s i _. apply dummies_1d_row_sum.
Qed.
End OneHotProps.

(** With [drop_first] unset, the indicator cells of a row whose entry is
    missing add up to 0, not to 1. *)
Lemma one_hot_encoder_missing_row :
  getitem houses "Neighborhood"
    = Some (ColO [Some "A"; Some "B"; None; Some "A"]%string) /\
  exists r' h',
    one_hot_encoder (fun _ => EmptyString) 1%positive ["Neighborhood"%string] false
      houses_store = (inr r', h') /\
    h' !! r' =
      Some (mkDF 4 [("LotArea"%string, ColN [Some 10%Q; None; Some 30%Q; Some 20%Q]);
                    ("SalePrice"%string, ColN [Some 100%Q; Some 200%Q; None; Some 300%Q]);
                    ("Neighborhood_A"%string, ColN [Some 1%Q; Some 0%Q; Some 0%Q; Some 1%Q]);
                    ("Neighborhood_B"%string, ColN [Some 0%Q; Some 1%Q; Some 0%Q; Some 0%Q])]) /\
    ~ (row_sum [("Neighborhood_A"%string, ColN [Some 1%Q; Some 0%Q; Some 0%Q; Some 1%Q]);
                ("Neighborhood_B"%string, ColN [Some 0%Q; Some 1%Q; Some 0%Q; Some 0%Q])] 2
       == 1)%Q.
Proof.
  split; [reflexivity|].
  assert (Hrun := one_hot_encoder_run (fun _ => EmptyString) houses_store 1%positive houses
                    ["Neighborhood"%string] false eq_refl).
  eexists _, _. split; [apply Hrun|split].
  - discriminate.
  - intros c [<-|[]]. discriminate.
  - apply lookup_insert_eq.
  - vm_compute. discriminate.
Qed.

Lemma one_hot_encoder_blocks_witness :
  houses_store !! 1%positive = Some houses /\
  one_hot_encoder (fun _ => EmptyString) 1%positive [] true houses_store
    = (inr 1%positive, houses_store) /\
  length (dummies_1d (fun _ => EmptyString) "Neighborhood"
            (ColO [Some "A"; Some "B"; None; Some "A"]%string) true) = 1 /\
  (row_sum (dummies_1d (fun _ => EmptyString) "Neighborhood"
              (ColO [Some "A"; Some "B"; None; Some "A"]%string) false) 0 == 1)%Q.
Proof.
  split; [reflexivity|].
  destruct (one_hot_encoder_blocks (fun _ => EmptyString) houses_store 1%positive houses
              ["Neighborhood"%string] true eq_refl) as (Hempty & _ & Hlen & _ & Hsum).
  split; [exact Hempty|]. split.
  - apply (Hlen "Neighborhood"%string). reflexivity.
  - apply (Hsum "Neighborhood"%string
             (ColO [Some "A"; Some "B"; None; Some "A"]%string) 0%nat); [reflexivity|simpl; lia].
Defined.

(** ** [target_mean_encode] *)

Section SmoothProps.
Context {A : Type} `{CellLaws A}.

Lemma uniq_acc_from (l seen : list A) (x : A) :
  In x (uniq_acc seen l) -> In x seen \/ In x l.
Proof.
  revert seen. induction l as [|y l IH]; intros seen; simpl.
  - rewrite <- in_rev. tauto.
  - destruct (memb y seen); intros Hin; apply IH in Hin; simpl in Hin; tauto.
Qed.

Lemma levels_from (vs : list (option A)) (x : A) :
  In x (levels vs) -> In (Some x) vs.
Proof.
  unfold levels, uniq. intros Hin.
  eapply Permutation_in in Hin; [|apply isort_perm].
  apply uniq_acc_from in Hin as [[]|Hin]. now apply dropna_In.
Qed.

Lemma smooth_items_keys (keys : list (option A)) (tg : list (option Q))
    (gm : option Q) (m : Q) :
  List.map fst (smooth_items keys tg gm m) = levels keys.
Proof.
  unfold smooth_items, groupby_mean_count, levels. rewrite !List.map_map. simpl.
  apply List.map_id.
Qed.

Lemma smooth_items_score (keys : list (option A)) (tg : list (option Q))
    (gm : option Q) (m : Q) (c : A) (score : option Q) :
  In (c, score) (smooth_items keys tg gm m) ->
  score = smooth_score (length (dropna (group_rows c keys tg)))
                       (mean (group_rows c keys tg)) gm m.
Proof.
  unfold smooth_items, groupby_mean_count. rewrite List.map_map. simpl.
  intros Hin. apply in_map_iff in Hin as (k & E & _). now injection E as <- <-.
Qed.

Lemma group_rows_sub (c : A) (keys : list (option A)) (tg : list (option Q)) (v : option Q) :
  In v (group_rows c keys tg) -> In v tg.
Proof.
  unfold group_rows. intros Hin. apply in_map_iff in Hin as ([k t] & E & Hin).
  simpl in E. subst t. apply filter_In in Hin as [Hin _].
  eapply in_combine_r. exact Hin.
Qed.
End SmoothProps.

Lemma of_nat_Q_pos (n : nat) : (1 <= n)%nat -> (1 <= of_nat_Q n)%Q.
Proof.
  intros Hn. unfold of_nat_Q. change 1%Q with (inject_Z 1). rewrite <- Zle_Qle. lia.
Qed.

Lemma smooth_score_value (n : nat) (mu gm m : Q) :
  ~ (of_nat_Q n + m == 0)%Q ->
  smooth_score n (Some mu) (Some gm) m =
    Some ((of_nat_Q n * mu + m * gm) / (of_nat_Q n + m))%Q.
Proof.
  intros Hne. unfold smooth_score. simpl.
  destruct (Qeq_bool (of_nat_Q n + m) 0) eqn:E; [|reflexivity].
  apply Qeq_bool_iff in E. contradiction.
Qed.

Lemma mean_None_iff (vs : list (option Q)) : mean vs = None <-> dropna vs = [].
Proof. unfold mean. destruct (dropna vs); split; congruence. Qed.

Lemma target_mean_encode_run (h : store) (frame : ref) (df : DataFrame)
    (column target : string) (m : Q) (keys : list (option string)) (tg : list (option Q)) :
  h !! frame = Some df ->
  getitem df column = Some (ColO keys) ->
  getitem df target = Some (ColN tg) ->
  target_mean_encode frame column target m h =
    (inr (SerO (smooth_items keys tg (mean tg) m)), h).
Proof.
  intros Hr Hk Ht. unfold target_mean_encode.
  rewrite (bind_inr _ _ _ _ _ (deref_run h frame df Hr)).
  unfold column_of, lift_opt, bind, ret. rewrite Ht, Hk. reflexivity.
Qed.

(** With one priced and one unpriced row in category A, the score of A is
    computed with n = 1, not with its row count 2. *)
Lemma target_mean_encode_counts_present_targets :
  length (group_rows "A"%string
            [Some "A"; Some "A"; Some "B"; Some "C"]%string
            [Some 100%Q; None; Some 300%Q; None]) = 2 /\
  mean (group_rows "A"%string
          [Some "A"; Some "A"; Some "B"; Some "C"]%string
          [Some 100%Q; None; Some 300%Q; None]) = Some (100 / 1)%Q /\
  mean [Some 100%Q; None; Some 300%Q; None] = Some ((100 + (300 + 0)) / 2)%Q /\
  exists items s,
    target_mean_encode 1%positive "Neighborhood" "SalePrice" 1 sales_store
      = (inr (SerO items), sales_store) /\
    In ("A"%string, Some s) items /\
    (s == 150)%Q /\
    ~ (s == (2 * 100 + 1 * 200) / (2 + 1))%Q.
Proof.
  split; [reflexivity|]. split; [reflexivity|]. split; [reflexivity|].
  eexists _, _. split; [|split; [|split]].
  - apply (target_mean_encode_run sales_store 1%positive sales "Neighborhood" "SalePrice" 1
             [Some "A"; Some "A"; Some "B"; Some "C"]%string
             [Some 100%Q; None; Some 300%Q; None]); reflexivity.
  - left. reflexivity.
  - vm_compute. reflexivity.
  - vm_compute. discriminate.
Qed.

(** C8 (amended): [target_mean_encode] leaves the store as it is and returns
    a series with exactly one entry per category of the column (rows with a
    missing category belong to none).  The entry of a category is
    (n * mean + m * global_mean) / (n + m), where n is the number of rows of
    the category whose target is present, mean the mean of those targets and
    global_mean the mean of all present targets; it is NaN when the category
    has no row with a present target. *)
Theorem target_mean_encode_scores (h : store) (frame : ref) (df : DataFrame)
    (column target : string) (m : Q) (keys : list (option string)) (tg : list (option Q)) :
  h !! frame = Some df ->
  getitem df column = Some (ColO keys) ->
  getitem df target = Some (ColN tg) ->
  exists items,
    target_mean_encode frame column target m h = (inr (SerO items), h) /\
    (forall c, In c (List.map fst items) -> In (Some c) keys) /\
    (forall c, In (Some c) keys -> count c (List.map fst items) = 1) /\
    (forall c score, In (c, score) items ->
       let g := group_rows c keys tg in
       let n := length (dropna g) in
       (n = 0%nat -> score = None) /\
       (forall mu gm,
          mean g = Some mu -> mean tg = Some gm -> ~ (of_nat_Q n + m == 0)%Q ->
          score = Some ((of_nat_Q n * mu + m * gm) / (of_nat_Q n + m))%Q)).
Proof.
  intros Hr Hk Ht. exists (smooth_items keys tg (mean tg) m).
  split; [now apply target_mean_encode_run with df|].
  rewrite smooth_items_keys. split; [apply levels_from|]. split; [apply count_levels|].
  intros c score Hin g n. apply smooth_items_score in Hin. fold g n in Hin. split.
  - intros Hn. assert (Hg : mean g = None).
    { apply mean_None_iff. unfold n in Hn. now destruct (dropna g). }
    rewrite Hin, Hg. reflexivity.
  - intros mu gm Hmu Hgm Hne. rewrite Hin, Hmu, Hgm. now apply smooth_score_value.
Qed.

Lemma target_mean_encode_scores_witness :
  sales_store !! 1%positive = Some sales /\
  exists items,
    target_mean_encode 1%positive "Neighborhood" "SalePrice" 1 sales_store
      = (inr (SerO items), sales_store) /\
    count "B"%string (List.map fst items) = 1.
Proof.
  split; [reflexivity|].
  destruct (target_mean_encode_scores sales_store 1%positive sales "Neighborhood" "SalePrice" 1
              [Some "A"; Some "A"; Some "B"; Some "C"]%string
              [Some 100%Q; None; Some 300%Q; None] eq_refl eq_refl eq_refl)
    as (items & Hrun & _ & Hone & _).
  exists items. split; [exact Hrun|]. apply Hone. simpl. tauto.
Defined.

(** *** Rounding of the score

    The exact value of (n * mean + m * global_mean) / (n + m) lies between
    the mean of the category and the global mean.  The score of line 177 is
    that expression in binary64, rounded after each operation, and can fall
    outside: in a frame with a single category of nine rows whose prices add
    up to 3905635, the mean of the category and the global mean are both the
    binary64 quotient 3905635 / 9, and with m = 100 the score is smaller
    than this quotient. *)
Module Binary64Facts.
Import PrimFloat.

Lemma smooth_below_both_means :
  let mean := (3905635 / 9)%float in
  (Binary64.smooth 9 mean 100 mean <? mean)%float = true.
Proof. vm_compute. reflexivity. Qed.
End Binary64Facts.

(** * Further properties *)

(** ** The order of cells *)

Lemma ascii_compare_lt_trans (a b c : Ascii.ascii) :
  Ascii.compare a b = Lt -> Ascii.compare b c = Lt -> Ascii.compare a c = Lt.
Proof.
  unfold Ascii.compare. rewrite !N.compare_lt_iff. apply N.lt_trans.
Qed.

Lemma string_compare_lt_trans (s1 s2 s3 : string) :
  String.compare s1 s2 = Lt -> String.compare s2 s3 = Lt -> String.compare s1 s3 = Lt.
Proof.
  revert s2 s3. induction s1 as [|a s1 IH]; intros [|b s2] [|c s3]; simpl;
    try congruence.
  destruct (Ascii.compare a b) eqn:Eab; try discriminate;
    destruct (Ascii.compare b c) eqn:Ebc; try discriminate.
  - apply Ascii.compare_eq_iff in Eab, Ebc. subst.
    replace (Ascii.compare c c) with Eq.
    + apply IH.
    + symmetry. unfold Ascii.compare. apply N.compare_refl.
  - apply Ascii.compare_eq_iff in Eab. subst. now rewrite Ebc.
  - apply Ascii.compare_eq_iff in Ebc. subst. now rewrite Eab.
  - now rewrite (ascii_compare_lt_trans a b c Eab Ebc).
Qed.

Lemma string_compare_refl (s : string) : String.compare s s = Eq.
Proof.
  induction s as [|a s IH]; simpl; [reflexivity|].
  replace (Ascii.compare a a) with Eq; [exact IH|].
  symmetry. unfold Ascii.compare. apply N.compare_refl.
Qed.

Lemma string_leb_trans (s1 s2 s3 : string) :
  String.leb s1 s2 = true -> String.leb s2 s3 = true -> String.leb s1 s3 = true.
Proof.
  unfold String.leb.
  destruct (String.compare s1 s2) eqn:E12; try discriminate;
    destruct (String.compare s2 s3) eqn:E23; try discriminate; intros _ _.
  - apply String.compare_eq_iff in E12, E23. subst. now rewrite string_compare_refl.
  - apply String.compare_eq_iff in E12. subst. now rewrite E23.
  - apply String.compare_eq_iff in E23. subst. now rewrite E12.
  - now rewrite (string_compare_lt_trans s1 s2 s3 E12 E23).
Qed.

#[global] Instance string_cell_order : CellOrder string.
Proof.
  split; simpl.
  - apply String.leb_total.
  - apply string_leb_trans.
  - intros x y Hxy Hyx. apply String.eqb_eq. now apply String.leb_antisym.
  - intros x y E. apply String.eqb_eq in E. subst. unfold String.leb.
    now rewrite string_compare_refl.
Qed.

#[global] Instance Q_cell_order : CellOrder Q.
Proof.
  split; simpl.
  - intros x y. rewrite !Qle_bool_iff. destruct (Qlt_le_dec x y); [left|right]; lra.
  - intros x y z. rewrite !Qle_bool_iff. apply Qle_trans.
  - intros x y. rewrite !Qle_bool_iff, Qeq_bool_iff. apply Qle_antisym.
  - intros x y. rewrite Qle_bool_iff, Qeq_bool_iff. intros E. rewrite E. apply Qle_refl.
Qed.

Section Ascending.
Context {A : Type} `{CellLaws A} `{!CellOrder A}.

Lemma insert_sorted_ascending (x : A) (l : list A) :
  ascending l -> ascending (insert_sorted x l).
Proof.
  induction l as [|y l IH]; simpl; [tauto|]. intros [Hy Hl].
  destruct (cleb x y) eqn:E; simpl.
  - split; [|now split]. intros z [<-|Hz]; [exact E|].
    apply cleb_trans with y; [exact E|now apply Hy].
  - split; [|now apply IH]. intros z Hz.
    eapply Permutation_in in Hz; [|apply insert_sorted_perm].
    destruct Hz as [<-|Hz]; [|now apply Hy].
    destruct (cleb_total x y) as [F|F]; [congruence|exact F].
Qed.

(** sorting puts the cells in ascending order *)
Lemma isort_ascending (l : list A) : ascending (isort l).
Proof.
  induction l as [|x l IH]; simpl; [exact I|now apply insert_sorted_ascending].
Qed.

Lemma index_of_found (x : A) (l : list A) :
  memb x l = true ->
  (index_of x l < length l)%nat /\
  exists y, nth_error l (index_of x l) = Some y /\ ceqb x y = true.
Proof.
  unfold memb. induction l as [|z l IH]; simpl; [discriminate|].
  destruct (ceqb x z) eqn:E; simpl.
  - intros _. split; [lia|]. now exists z.
  - intros Hm. destruct (IH Hm) as [Hlt Hy]. split; [lia|exact Hy].
Qed.

(** in a list without two equal cells, a cell is found at its own position *)
Lemma index_of_nth (l : list A) (i : nat) (x : A) :
  (forall y, count y l <= 1)%nat ->
  nth_error l i = Some x ->
  index_of x l = i.
Proof.
  revert i. induction l as [|z l IH]; intros i Hc Hi; [now destruct i|].
  assert (Hc' : forall y, (count y l <= 1)%nat).
  { intros y. specialize (Hc y). unfold count in *. simpl in Hc.
    destruct (ceqb y z); simpl in Hc; lia. }
  destruct i as [|i]; simpl in *.
  - injection Hi as ->. now rewrite ceqb_refl.
  - destruct (ceqb x z) eqn:E.
    + exfalso. specialize (Hc x). unfold count in Hc. simpl in Hc. rewrite E in Hc.
      simpl in Hc. apply nth_error_In in Hi.
      assert (Hpos : (1 <= length (List.filter (ceqb x) l))%nat).
      { clear -Hi H0. induction l as [|w l IHl]; [destruct Hi|]. simpl.
        destruct Hi as [->|Hi].
        - rewrite ceqb_refl. simpl. lia.
        - destruct (ceqb x w); simpl; [lia|now apply IHl]. }
      lia.
    + f_equal. now apply IH.
Qed.

(** in an ascending list, positions follow the order of the cells *)
Lemma index_of_monotone (l : list A) (x y : A) :
  ascending l -> In x l -> In y l -> cleb x y = true ->
  (index_of x l <= index_of y l)%nat.
Proof.
  induction l as [|z l IH]; simpl; [tauto|].
  intros [Hz Hl] Hx Hy Hxy.
  destruct (ceqb x z) eqn:Exz; [lia|].
  assert (Hx' : In x l).
  { destruct Hx as [->|Hx]; [|exact Hx]. rewrite ceqb_refl in Exz. discriminate. }
  destruct (ceqb y z) eqn:Eyz.
  - exfalso. assert (Hzx : cleb z x = true) by now apply Hz.
    assert (Hxz : cleb x z = true).
    { apply cleb_trans with y; [exact Hxy|now apply ceqb_cleb]. }
    pose proof (cleb_antisym x z Hxz Hzx). congruence.
  - assert (Hy' : In y l).
    { destruct Hy as [->|Hy]; [|exact Hy]. rewrite ceqb_refl in Eyz. discriminate. }
    specialize (IH Hl Hx' Hy' Hxy). lia.
Qed.
End Ascending.

(** ** [label_encoder] *)

Lemma assoc_set_keeps_names (l : list (string * Column)) (col : string) (c c0 : Column) :
  assoc_get l col = Some c0 -> List.map fst (assoc_set l col c) = List.map fst l.
Proof.
  induction l as [|[n c1] l IH]; simpl; [discriminate|].
  destruct (String.eqb n col) eqn:E; simpl; [reflexivity|].
  intros Hg. now rewrite IH.
Qed.

Lemma label_codes_length (s : Column) : col_len (label_codes s) = col_len s.
Proof.
  destruct s as [vs|vs]; simpl; unfold fit_transform; now rewrite !List.length_map.
Qed.

Lemma label_encoder_run (h : store) (r : ref) (df : DataFrame) (col : string) (s : Column) :
  h !! r = Some df ->
  getitem df col = Some s ->
  label_encoder r col h = (inr r, <[r := setitem df col (label_codes s)]> h).
Proof.
  intros Hr Hc. unfold label_encoder.
  rewrite (bind_inr _ _ _ _ _ (deref_run h r df Hr)).
  unfold column_of, lift_opt, bind, ret, assign. now rewrite Hc.
Qed.

(** [label_encoder] works in place: it hands back the reference it was given,
    and in the frame behind it only the named column changes -- into a
    numeric column of the same length without missing entries.  Names, order
    and row count stay, and so does every other frame.  A name that is not a
    column raises [KeyError] and changes nothing. *)
Theorem label_encoder_in_place (h : store) (r : ref) (df : DataFrame) (col : string) :
  h !! r = Some df ->
  (getitem df col = None -> label_encoder r col h = (inl (KeyError col), h)) /\
  (forall s, getitem df col = Some s ->
     exists codes out,
       label_encoder r col h = (inr r, <[r := out]> h) /\
       getitem out col = Some (ColN codes) /\
       length codes = col_len s /\
       isnull_any codes = false /\
       columns out = columns df /\
       nrows out = nrows df /\
       (forall c, c <> col -> getitem out c = getitem df c) /\
       (forall r0, r0 <> r -> (<[r := out]> h) !! r0 = h !! r0)).
Proof.
  intros Hr. split.
  - intros Hc. unfold label_encoder.
    rewrite (bind_inr _ _ _ _ _ (deref_run h r df Hr)).
    unfold column_of, lift_opt, bind, raise. now rewrite Hc.
  - intros s Hc.
    destruct (label_codes s) as [ws|codes] eqn:E; [destruct s; discriminate|].
    exists codes, (setitem df col (ColN codes)).
    split; [rewrite <- E; now apply label_encoder_run|].
    split; [apply getitem_setitem|].
    split; [change (length codes) with (col_len (ColN codes)); rewrite <- E;
            apply label_codes_length|].
    split.
    { assert (Hc' : exists ns, codes = List.map (fun n => Some (of_nat_Q n)) ns).
      { destruct s; simpl in E; injection E as <-; now eexists. }
      destruct Hc' as [ns ->]. clear E. unfold isnull_any.
      induction ns as [|n ns IH]; simpl; [reflexivity|exact IH]. }
    split; [unfold columns, setitem; simpl; eapply assoc_set_keeps_names; exact Hc|].
    split; [reflexivity|].
    split; [intros c Hne; apply getitem_setitem_other; congruence|].
    intros r0 Hne. apply lookup_insert_ne. congruence.
Qed.

Lemma label_encoder_in_place_witness :
  houses_store !! 1%positive = Some houses /\
  label_encoder 1%positive "Street" houses_store = (inl (KeyError "Street"), houses_store) /\
  exists codes out,
    label_encoder 1%positive "Neighborhood" houses_store
      = (inr 1%positive, <[1%positive := out]> houses_store) /\
    getitem out "Neighborhood" = Some (ColN codes) /\
    length codes = 4.
Proof.
  split; [reflexivity|].
  destruct (label_encoder_in_place houses_store 1%positive houses "Street" eq_refl)
    as [Habsent _].
  destruct (label_encoder_in_place houses_store 1%positive houses "Neighborhood" eq_refl)
    as [_ Hthere].
  split; [apply Habsent; reflexivity|].
  destruct (Hthere (ColO [Some "A"; Some "B"; None; Some "A"]%string) eq_refl)
    as (codes & out & H1 & H2 & H3 & _).
  exists codes, out. split; [exact H1|]. split; [exact H2|exact H3].
Defined.

Section Codes.
Context {A : Type} `{CellLaws A} `{!CellOrder A}.

Lemma levels_count_le (vs : list (option A)) (y : A) : (count y (levels vs) <= 1)%nat.
Proof.
  unfold levels. rewrite (count_perm y _ _ (isort_perm _)). unfold uniq.
  rewrite count_uniq_acc by reflexivity.
  destruct (memb y [] || memb y (dropna vs)); lia.
Qed.

Lemma levels_memb (vs : list (option A)) (x : A) :
  In (Some x) vs -> memb x (levels vs) = true.
Proof.
  intros Hin. pose proof (count_levels vs x Hin) as Hc. unfold count in Hc.
  unfold memb. induction (levels vs) as [|z l IH]; simpl in *; [discriminate|].
  destruct (ceqb x z); [reflexivity|]. simpl. now apply IH.
Qed.

Lemma levels_ascending (vs : list (option A)) : ascending (levels vs).
Proof. apply isort_ascending. Qed.

(** the code of a present cell is the position of an equal class *)
Lemma fit_transform_present (vs : list (option A)) (i : nat) (x : A) :
  nth_error vs i = Some (Some x) ->
  exists c y,
    nth_error (fit_transform vs) i = Some c /\
    c = index_of x (levels vs) /\
    (c < nunique vs)%nat /\
    nth_error (levels vs) c = Some y /\ ceqb x y = true.
Proof.
  intros Hi. unfold fit_transform. rewrite nth_error_map, Hi. simpl.
  assert (Hin : In (Some x) vs) by (eapply nth_error_In; exact Hi).
  destruct (index_of_found x (levels vs) (levels_memb vs x Hin)) as [Hlt (y & Hy & Exy)].
  exists (index_of x (levels vs)), y. split; [reflexivity|]. split; [reflexivity|].
  split; [|now split].
  unfold nunique. unfold levels in Hlt. now rewrite isort_length in Hlt.
Qed.

(** every class is the code of some row *)
Lemma fit_transform_covers (vs : list (option A)) (c : nat) :
  (c < nunique vs)%nat ->
  exists i x, nth_error vs i = Some (Some x) /\ nth_error (fit_transform vs) i = Some c.
Proof.
  intros Hc. unfold nunique in Hc. rewrite <- (isort_length (uniq (dropna vs))) in Hc.
  fold (levels vs) in Hc.
  destruct (nth_error (levels vs) c) as [x|] eqn:Ex;
    [|apply nth_error_None in Ex; lia].
  assert (Hin : In (Some x) vs) by (apply levels_from; eapply nth_error_In; exact Ex).
  apply In_nth_error in Hin as [i Hi]. exists i, x. split; [exact Hi|].
  unfold fit_transform. rewrite nth_error_map, Hi. simpl. f_equal.
  apply index_of_nth; [apply levels_count_le|exact Ex].
Qed.

(** codes follow the order of the values *)
Lemma fit_transform_order (vs : list (option A)) (i j : nat) (x y : A) (ci cj : nat) :
  nth_error vs i = Some (Some x) ->
  nth_error vs j = Some (Some y) ->
  nth_error (fit_transform vs) i = Some ci ->
  nth_error (fit_transform vs) j = Some cj ->
  (cleb x y = true <-> (ci <= cj)%nat).
Proof.
  intros Hi Hj Hci Hcj.
  destruct (fit_transform_present vs i x Hi) as (c1 & x' & E1 & -> & _ & Hx' & Exx').
  destruct (fit_transform_present vs j y Hj) as (c2 & y' & E2 & -> & _ & Hy' & Eyy').
  rewrite E1 in Hci. rewrite E2 in Hcj. injection Hci as <-. injection Hcj as <-.
  assert (Hmono : forall a b a' b',
             nth_error (levels vs) (index_of a (levels vs)) = Some a' -> ceqb a a' = true ->
             nth_error (levels vs) (index_of b (levels vs)) = Some b' -> ceqb b b' = true ->
             cleb a b = true ->
             (index_of a (levels vs) <= index_of b (levels vs))%nat).
  { intros a b a' b' Ha Eaa Hb Ebb Hab.
    assert (Ia : index_of a' (levels vs) = index_of a (levels vs))
      by (apply index_of_nth; [apply levels_count_le|exact Ha]).
    assert (Ib : index_of b' (levels vs) = index_of b (levels vs))
      by (apply index_of_nth; [apply levels_count_le|exact Hb]).
    rewrite <- Ia, <- Ib.
    apply index_of_monotone;
      [apply levels_ascending|eapply nth_error_In; exact Ha|eapply nth_error_In; exact Hb|].
    apply cleb_trans with a; [apply ceqb_cleb; now rewrite ceqb_sym|].
    apply cleb_trans with b; [exact Hab|now apply ceqb_cleb]. }
  split.
  - intros Hxy. now apply (Hmono x y x' y').
  - intros Hle. destruct (cleb_total x y) as [Hxy|Hyx]; [exact Hxy|].
    pose proof (Hmono y x y' x' Hy' Eyy' Hx' Exx' Hyx) as Hge.
    assert (Eq : index_of x (levels vs) = index_of y (levels vs)) by lia.
    rewrite Eq in Hx'. rewrite Hx' in Hy'. injection Hy' as <-.
    apply ceqb_cleb. apply ceqb_trans with x'; [exact Exx'|now rewrite ceqb_sym].
Qed.
End Codes.

(** The codes of a text column can be decoded: the code of a present cell is
    smaller than the number k of distinct values, and the class at that
    position in the sorted distinct values is the cell itself.  Every code
    from 0 to k - 1 is in use. *)
Theorem label_encoder_decodes (h : store) (r : ref) (df : DataFrame) (col : string)
    (vs : list (option string)) :
  h !! r = Some df ->
  getitem df col = Some (ColO vs) ->
  exists codes,
    label_encoder r col h =
      (inr r, <[r := setitem df col (ColN (List.map (fun n => Some (of_nat_Q n)) codes))]> h) /\
    length codes = length vs /\
    (forall i x, nth_error vs i = Some (Some x) ->
       exists c, nth_error codes i = Some c /\ (c < nunique vs)%nat /\
                 nth_error (levels vs) c = Some x) /\
    (forall c, (c < nunique vs)%nat ->
       exists i x, nth_error vs i = Some (Some x) /\ nth_error codes i = Some c).
Proof.
  intros Hr Hc. exists (fit_transform vs).
  split; [apply (label_encoder_run h r df col (ColO vs) Hr Hc)|].
  split; [unfold fit_transform; apply List.length_map|]. split.
  - intros i x Hi.
    destruct (fit_transform_present vs i x Hi) as (c & y & E & _ & Hlt & Hy & Exy).
    simpl in Exy. apply String.eqb_eq in Exy. subst y. now exists c.
  - apply fit_transform_covers.
Qed.

Lemma label_encoder_decodes_witness :
  houses_store !! 1%positive = Some houses /\
  exists codes,
    label_encoder 1%positive "Neighborhood" houses_store =
      (inr 1%positive,
       <[1%positive := setitem houses "Neighborhood"
                         (ColN (List.map (fun n => Some (of_nat_Q n)) codes))]> houses_store) /\
    exists c, nth_error codes 1 = Some c /\
              nth_error (levels [Some "A"; Some "B"; None; Some "A"]%string) c
                = Some "B"%string.
Proof.
  split; [reflexivity|].
  destruct (label_encoder_decodes houses_store 1%positive houses "Neighborhood"
              [Some "A"; Some "B"; None; Some "A"]%string eq_refl eq_refl)
    as (codes & Hrun & _ & Hdec & _).
  exists codes. split; [exact Hrun|].
  destruct (Hdec 1%nat "B"%string eq_refl) as (c & H1 & _ & H2). now exists c.
Defined.

(** The codes of a text column follow the alphabetical order of its values:
    of two present cells, the one with the smaller or equal value has the
    smaller or equal code; so two cells have the same code exactly when they
    hold the same value. *)
Theorem label_encoder_keeps_order (h : store) (r : ref) (df : DataFrame) (col : string)
    (vs : list (option string)) :
  h !! r = Some df ->
  getitem df col = Some (ColO vs) ->
  exists codes,
    label_encoder r col h =
      (inr r, <[r := setitem df col (ColN (List.map (fun n => Some (of_nat_Q n)) codes))]> h) /\
    forall i j x y ci cj,
      nth_error vs i = Some (Some x) ->
      nth_error vs j = Some (Some y) ->
      nth_error codes i = Some ci ->
      nth_error codes j = Some cj ->
      (String.leb x y = true <-> (ci <= cj)%nat) /\ (x = y <-> ci = cj).
Proof.
  intros Hr Hc. exists (fit_transform vs).
  split; [apply (label_encoder_run h r df col (ColO vs) Hr Hc)|].
  intros i j x y ci cj Hi Hj Hci Hcj.
  pose proof (fit_transform_order vs i j x y ci cj Hi Hj Hci Hcj) as Hxy.
  pose proof (fit_transform_order vs j i y x cj ci Hj Hi Hcj Hci) as Hyx.
  simpl in Hxy, Hyx. split; [exact Hxy|]. split.
  - intros ->. apply Nat.le_antisymm; [apply Hxy|apply Hyx];
      unfold String.leb; now rewrite string_compare_refl.
  - intros ->. apply String.leb_antisym; [apply Hxy|apply Hyx]; lia.
Qed.

Lemma label_encoder_keeps_order_witness :
  houses_store !! 1%positive = Some houses /\
  exists codes,
    label_encoder 1%positive "Neighborhood" houses_store =
      (inr 1%positive,
       <[1%positive := setitem houses "Neighborhood"
                         (ColN (List.map (fun n => Some (of_nat_Q n)) codes))]> houses_store) /\
    forall ci cj, nth_error codes 0 = Some ci -> nth_error codes 1 = Some cj -> (ci <= cj)%nat.
Proof.
  split; [reflexivity|].
  destruct (label_encoder_keeps_order houses_store 1%positive houses "Neighborhood"
              [Some "A"; Some "B"; None; Some "A"]%string eq_refl eq_refl)
    as (codes & Hrun & Hord).
  exists codes. split; [exact Hrun|]. intros ci cj Hi Hj.
  destruct (Hord 0%nat 1%nat "A"%string "B"%string ci cj eq_refl eq_refl Hi Hj) as [Hle _].
  apply Hle. reflexivity.
Defined.

(** ** More on [rare_encoder] *)

Lemma count_le_length {A} `{Cell A} (x : A) (vs : list (option A)) :
  (count x (dropna vs) <= length vs)%nat.
Proof.
  unfold count. induction vs as [|[y|] vs IH]; simpl; [lia| |lia].
  destruct (ceqb x y); simpl; lia.
Qed.

Lemma relabel_In (rare_perc : Q) (len : nat) (vs : list (option string)) (x : string) :
  In (Some x) (List.map (relabel rare_perc len vs) vs) ->
  x <> "Rare"%string ->
  In (Some x) vs /\ is_rare (count x (dropna vs)) len rare_perc = false.
Proof.
  intros Hin Hx. apply in_map_iff in Hin as ([y|] & E & Hy); simpl in E; [|discriminate].
  destruct (is_rare (count y (dropna vs)) len rare_perc) eqn:Er.
  - injection E as <-. contradiction.
  - injection E as <-. now split.
Qed.

Lemma of_nat_Q_zero (n : nat) : Qeq_bool (of_nat_Q n) 0 = true -> n = 0%nat.
Proof.
  intros E. apply Qeq_bool_iff in E. unfold of_nat_Q, Qeq in E. simpl in E. lia.
Qed.

Lemma wf_column_length (df : DataFrame) (col : string) (s : Column) :
  frame_wf df -> getitem df col = Some s -> col_len s = nrows df.
Proof.
  intros [_ Hlen] Hc. rewrite List.Forall_forall in Hlen.
  apply (Hlen (col, s)). now apply assoc_get_Some_In.
Qed.

(** After [rare_encoder] no text column holds a category, other than "Rare"
    itself, whose share of the rows is below the threshold. *)
Theorem rare_encoder_leaves_no_rare (h : store) (r : ref) (df : DataFrame) (rare_perc : Q) :
  h !! r = Some df ->
  frame_wf df ->
  exists r' out,
    rare_encoder r rare_perc h = (inr r', <[r' := out]> h) /\
    nrows out = nrows df /\
    forall col vs' x,
      getitem out col = Some (ColO vs') ->
      In (Some x) vs' ->
      x <> "Rare"%string ->
      (rare_perc <= of_nat_Q (count x (dropna vs')) / of_nat_Q (nrows out))%Q.
Proof.
  intros Hr Hwf. exists (fresh (dom h)), (rare_frame rare_perc df).
  split; [apply rare_encoder_frame; [exact Hr|apply Hwf]|]. split; [reflexivity|].
  intros col vs' x Hc Hin Hx. rewrite getitem_rare_frame in Hc.
  destruct (getitem df col) as [[vs|vs]|] eqn:Hcol; simpl in Hc; try discriminate.
  injection Hc as <-. rewrite np_where_rare_relabel in *.
  destruct (relabel_In rare_perc (nrows df) vs x Hin Hx) as [Hin0 Hkeep].
  rewrite (count_relabel vs vs (nrows df) rare_perc x Hx Hkeep). simpl.
  pose proof (wf_column_length df col (ColO vs) Hwf Hcol) as Hlen. simpl in Hlen.
  unfold is_rare, fdiv, flt in Hkeep.
  destruct (Qeq_bool (of_nat_Q (nrows df)) 0) eqn:E0.
  - apply of_nat_Q_zero in E0. rewrite E0 in Hlen. destruct vs; [destruct Hin0|discriminate].
  - now apply Qltb_ge in Hkeep.
Qed.

Lemma rare_encoder_leaves_no_rare_witness :
  houses_store !! 1%positive = Some houses /\
  frame_wf houses /\
  exists r' out,
    rare_encoder 1%positive (1 # 2) houses_store = (inr r', <[r' := out]> houses_store) /\
    nrows out = 4%nat.
Proof.
  split; [reflexivity|]. split; [exact houses_wf|].
  destruct (rare_encoder_leaves_no_rare houses_store 1%positive houses (1 # 2)
              eq_refl houses_wf) as (r' & out & H1 & H2 & _).
  exists r', out. split; assumption.
Defined.

(** freq = count / rows is never negative and never above 1 *)
Lemma is_rare_nonpositive (n len : nat) (rare_perc : Q) :
  (rare_perc <= 0)%Q -> is_rare n len rare_perc = false.
Proof.
  intros Hp. destruct (is_rare n len rare_perc) eqn:E; [|reflexivity].
  apply is_rare_spec in E as [Hlen Hlt]. exfalso.
  assert (Hq : (0 <= of_nat_Q n / of_nat_Q len)%Q).
  { apply Qle_shift_div_l.
    - pose proof (of_nat_Q_pos len ltac:(lia)). lra.
    - rewrite Qmult_0_l. unfold of_nat_Q. change 0%Q with (inject_Z 0).
      rewrite <- Zle_Qle. lia. }
  lra.
Qed.

Lemma is_rare_above_one (n len : nat) (rare_perc : Q) :
  (1 < rare_perc)%Q -> (n <= len)%nat -> len <> 0%nat -> is_rare n len rare_perc = true.
Proof.
  intros Hp Hn Hlen. apply is_rare_spec. split; [exact Hlen|].
  apply Qle_lt_trans with 1%Q; [|exact Hp].
  apply Qle_shift_div_r.
  - pose proof (of_nat_Q_pos len ltac:(lia)). lra.
  - rewrite Qmult_1_l. unfold of_nat_Q. rewrite <- Zle_Qle. lia.
Qed.

Lemma rare_frame_nonpositive (rare_perc : Q) (df : DataFrame) :
  (rare_perc <= 0)%Q -> rare_frame rare_perc df = df.
Proof.
  intros Hp. destruct df as [len l]. unfold rare_frame. simpl. f_equal.
  rewrite <- (List.map_id l) at 2. apply map_ext. intros [n c]. simpl. f_equal.
  apply rare_column_id. destruct c as [vs|vs]; simpl; [|reflexivity].
  induction (value_counts vs) as [|p q IH]; simpl; [reflexivity|].
  now rewrite is_rare_nonpositive.
Qed.

(** The two ends of the threshold.  With a threshold of 0 or less no
    category is rare: the frame returned is a copy equal to the input.  With
    a threshold above 1 every category is rare: every present text cell
    becomes "Rare", and the missing ones stay missing. *)
Theorem rare_encoder_extreme_thresholds (h : store) (r : ref) (df : DataFrame)
    (rare_perc : Q) :
  h !! r = Some df ->
  frame_wf df ->
  exists r' out,
    rare_encoder r rare_perc h = (inr r', <[r' := out]> h) /\
    h !! r' = None /\
    ((rare_perc <= 0)%Q -> out = df) /\
    ((1 < rare_perc)%Q ->
     forall col vs, getitem df col = Some (ColO vs) ->
       getitem out col =
         Some (ColO (List.map (fun c => match c with
                                        | Some _ => Some "Rare"%string
                                        | None => None
                                        end) vs))).
Proof.
  intros Hr Hwf. exists (fresh (dom h)), (rare_frame rare_perc df).
  split; [apply rare_encoder_frame; [exact Hr|apply Hwf]|].
  split; [apply fresh_lookup_None|]. split.
  - apply rare_frame_nonpositive.
  - intros Hp col vs Hc. rewrite getitem_rare_frame, Hc. simpl.
    rewrite np_where_rare_relabel. do 2 f_equal.
    pose proof (wf_column_length df col (ColO vs) Hwf Hc) as Hlen. simpl in Hlen.
    apply map_ext_in. intros [x|] Hin; [|reflexivity]. simpl.
    rewrite is_rare_above_one; [reflexivity|exact Hp| |].
    + rewrite <- Hlen. apply count_le_length.
    + rewrite <- Hlen. destruct vs; [destruct Hin|discriminate].
Qed.

Lemma rare_encoder_extreme_thresholds_witness :
  houses_store !! 1%positive = Some houses /\
  frame_wf houses /\
  exists r' out,
    rare_encoder 1%positive 0 houses_store = (inr r', <[r' := out]> houses_store) /\
    out = houses.
Proof.
  split; [reflexivity|]. split; [exact houses_wf|].
  destruct (rare_encoder_extreme_thresholds houses_store 1%positive houses 0
              eq_refl houses_wf) as (r' & out & H1 & _ & H2 & _).
  exists r', out. split; [exact H1|]. apply H2. discriminate.
Defined.

(** ** More on [quick_missing_imp] *)

Lemma num_filled_idempotent (stat : list (option Q) -> option Q) (s : Column) :
  num_filled stat (num_filled stat s) = num_filled stat s.
Proof.
  destruct s as [vs|vs]; simpl; [reflexivity|].
  destruct (isnull_any vs) eqn:En; simpl; [|now rewrite En].
  destruct (stat vs) as [v|] eqn:Es; simpl.
  - now rewrite isnull_any_fillna.
  - rewrite En, Es. reflexivity.
Qed.

Lemma cat_filled_stable (cat_length : Z) (stat : list (option Q) -> option Q)
    (s s1 : Column) :
  cat_filled cat_length s = Some s1 ->
  cat_filled cat_length (num_filled stat s1) = Some (num_filled stat s1).
Proof.
  destruct s as [vs|vs]; simpl.
  - destruct (cat_eligible cat_length vs) eqn:Ee.
    + destruct (mode vs) as [|m rest]; [discriminate|]. intros [= <-]. simpl.
      unfold cat_eligible. now rewrite isnull_any_fillna, andb_false_r.
    + intros [= <-]. simpl. now rewrite Ee.
  - intros [= <-]. simpl. now destruct (isnull_any vs).
Qed.

Lemma cat_filled_shape (cat_length : Z) (s s1 : Column) :
  cat_filled cat_length s = Some s1 ->
  is_object s1 = is_object s /\ col_len s1 = col_len s /\
  (match s with
   | ColO vs => isnull_any vs = false
   | ColN vs => True
   end -> s1 = s).
Proof.
  destruct s as [vs|vs]; simpl.
  - unfold cat_eligible. destruct (isnull_any vs) eqn:En.
    + destruct (_ <=? _)%Z; simpl.
      * destruct (mode vs); [discriminate|]. intros [= <-]. simpl.
        unfold fillna. rewrite List.length_map. repeat split. discriminate.
      * intros [= <-]. repeat split.
    + rewrite andb_false_r. intros [= <-]. repeat split.
  - intros [= <-]. repeat split.
Qed.

Lemma num_filled_shape (stat : list (option Q) -> option Q) (s : Column) :
  is_object (num_filled stat s) = is_object s /\
  col_len (num_filled stat s) = col_len s /\
  (match s with
   | ColO vs => True
   | ColN vs => isnull_any vs = false
   end -> num_filled stat s = s).
Proof.
  destruct s as [vs|vs]; simpl; [repeat split|].
  destruct (isnull_any vs); simpl; [|repeat split].
  destruct (stat vs); simpl; unfold fillna; rewrite ?List.length_map; repeat split;
    discriminate.
Qed.

Lemma cat_filled_all_names (cat_length : Z) (l cs : list (string * Column)) :
  cat_filled_all cat_length l = Some cs -> List.map fst cs = List.map fst l.
Proof.
  revert cs. induction l as [|[n s] l IH]; intros cs; simpl; [now intros [= <-]|].
  destruct (cat_filled cat_length s); [|discriminate].
  destruct (cat_filled_all cat_length l) as [r'|]; [|discriminate].
  intros [= <-]. simpl. f_equal. now apply IH.
Qed.

Lemma cat_filled_all_origin (cat_length : Z) (l cs : list (string * Column)) :
  cat_filled_all cat_length l = Some cs ->
  forall p, In p cs -> exists s, cat_filled cat_length s = Some (snd p).
Proof.
  revert cs. induction l as [|[n s] l IH]; intros cs; simpl.
  - intros [= <-] p [].
  - destruct (cat_filled cat_length s) as [s'|] eqn:Es; [|discriminate].
    destruct (cat_filled_all cat_length l) as [r'|]; [|discriminate].
    intros [= <-] p [<-|Hp]; [now exists s|]. now apply (IH r').
Qed.

Lemma cat_filled_all_fixed (cat_length : Z) (l : list (string * Column)) :
  (forall p, In p l -> cat_filled cat_length (snd p) = Some (snd p)) ->
  cat_filled_all cat_length l = Some l.
Proof.
  induction l as [|[n s] l IH]; intros Hfix; simpl; [reflexivity|].
  pose proof (Hfix (n, s) (or_introl eq_refl)) as E. simpl in E. rewrite E.
  rewrite IH; [reflexivity|]. intros p Hp. apply Hfix. now right.
Qed.

Lemma cat_filled_all_set (cat_length : Z) (l l' : list (string * Column))
    (n : string) (c c' : Column) :
  cat_filled_all cat_length l = Some l' ->
  cat_filled cat_length c = Some c' ->
  cat_filled_all cat_length (assoc_set l n c) = Some (assoc_set l' n c').
Proof.
  revert l'. induction l as [|[n0 s] l IH]; intros l'; simpl.
  - intros [= <-] Hc. simpl. now rewrite Hc.
  - destruct (cat_filled cat_length s) as [s'|] eqn:Es; [|discriminate].
    destruct (cat_filled_all cat_length l) as [r'|] eqn:Er; [|discriminate].
    intros [= <-] Hc. simpl. destruct (String.eqb n0 n); simpl.
    + now rewrite Hc, Er.
    + now rewrite Es, (IH r' eq_refl Hc).
Qed.

Lemma map_assoc_set (f : Column -> Column) (l : list (string * Column))
    (n : string) (c : Column) :
  List.map (fun p => (fst p, f (snd p))) (assoc_set l n c) =
  assoc_set (List.map (fun p => (fst p, f (snd p))) l) n (f c).
Proof.
  induction l as [|[n0 s] l IH]; simpl; [reflexivity|].
  destruct (String.eqb n0 n); simpl; [reflexivity|now rewrite IH].
Qed.

Lemma assoc_set_same_value (l : list (string * Column)) (n : string) (c : Column) :
  assoc_get l n = Some c -> assoc_set l n c = l.
Proof.
  induction l as [|[n0 s] l IH]; simpl; [discriminate|].
  destruct (String.eqb n0 n); [now intros [= ->]|].
  intros Hg. now rewrite IH.
Qed.

(** the frame returned by [quick_missing_imp] is a fixed point of both passes *)
Lemma imputed_frame_fixed (df : DataFrame) (num_method target : string) (cat_length : Z)
    (cs1 : list (string * Column)) :
  cat_filled_all cat_length (dcols df) = Some cs1 ->
  let out := imputed_frame df num_method target cs1 in
  exists cs2,
    cat_filled_all cat_length (dcols out) = Some cs2 /\
    imputed_frame out num_method target cs2 = out.
Proof.
  intros Hcs out.
  set (fn := fun p : string * Column => (fst p, num_filled (stat_of num_method) (snd p))).
  set (L1 := List.map fn cs1).
  assert (Hfix1 : cat_filled_all cat_length L1 = Some L1).
  { apply cat_filled_all_fixed. intros p Hp. unfold L1 in Hp.
    apply in_map_iff in Hp as (p1 & <- & Hp1). simpl.
    destruct (cat_filled_all_origin cat_length _ _ Hcs p1 Hp1) as [s Hs].
    eapply cat_filled_stable. exact Hs. }
  assert (Hfix2 : List.map fn L1 = L1).
  { unfold L1. rewrite List.map_map. apply map_ext. intros [n s]. unfold fn. simpl.
    now rewrite num_filled_idempotent. }
  assert (Hget1 : assoc_get L1 target =
                  match getitem df target with
                  | Some t => option_map (num_filled (stat_of num_method))
                                         (cat_filled cat_length t)
                  | None => None
                  end).
  { unfold L1, fn. rewrite assoc_get_map.
    rewrite (cat_filled_all_get cat_length _ _ target Hcs). unfold getitem.
    now destruct (assoc_get (dcols df) target). }
  unfold out, imputed_frame. fold fn. fold L1.
  destruct (getitem df target) as [t|] eqn:Ht.
  - destruct (cat_filled cat_length t) as [t1|] eqn:Et.
    2:{ exfalso. apply cat_filled_None in Et.
        assert (F : cat_filled_all cat_length (dcols df) = None).
        { apply cat_filled_all_None. apply List.Exists_exists. exists (target, t).
          split; [now apply assoc_get_Some_In|exact Et]. }
        congruence. }
    exists (assoc_set L1 target t1). simpl. split.
    + now apply cat_filled_all_set.
    + unfold getitem. simpl. rewrite assoc_get_set_same. unfold setitem. simpl.
      pose proof (map_assoc_set (num_filled (stat_of num_method)) L1 target t1) as Hm.
      fold fn in Hm. rewrite Hm, Hfix2. now rewrite assoc_set_set.
  - exists L1. simpl. split; [exact Hfix1|].
    unfold getitem. simpl. rewrite Hget1. fold fn. now rewrite Hfix2.
Qed.

(** [quick_missing_imp] is idempotent: when a call returns a frame, a second
    call on that frame returns again, with a new frame of the same content. *)
Theorem quick_missing_imp_idempotent (h h1 : store) (r r1 : ref) (df : DataFrame)
    (num_method : string) (cat_length : Z) (target : string) :
  h !! r = Some df ->
  quick_missing_imp r num_method cat_length target h = (inr r1, h1) ->
  exists out r2 h2,
    h1 !! r1 = Some out /\
    quick_missing_imp r1 num_method cat_length target h1 = (inr r2, h2) /\
    h2 !! r2 = Some out /\
    h2 !! r1 = Some out /\
    r2 <> r1.
Proof.
  intros Hr Hrun.
  rewrite (quick_missing_imp_run h r df num_method cat_length target Hr) in Hrun.
  cbv zeta in Hrun.
  destruct (cat_filled_all cat_length (dcols df)) as [cs1|] eqn:Hcs; [|discriminate].
  injection Hrun as <- <-.
  set (out := imputed_frame df num_method target cs1).
  match goal with |- context [<[?k := out]> ?m] => set (r1 := k); set (h0 := m) end.
  assert (H1 : (<[r1 := out]> h0) !! r1 = Some out) by apply lookup_insert_eq.
  destruct (imputed_frame_fixed df num_method target cat_length cs1 Hcs) as (cs2 & Hcs2 & Hfix).
  fold out in Hcs2, Hfix.
  exists out. eexists _, _. split; [exact H1|].
  rewrite (quick_missing_imp_run _ r1 out num_method cat_length target H1). cbv zeta.
  rewrite Hcs2, Hfix. split; [reflexivity|]. split; [apply lookup_insert_eq|].
  match goal with |- (<[?a := _]> (<[?b := ?x]> ?m)) !! _ = _ /\ _ =>
    set (r3 := a); set (r2 := b); set (hm := m); set (fx := x) end.
  assert (Hm1 : hm !! r1 = Some out).
  { unfold hm. rewrite lookup_insert_ne; [exact H1|]. eapply fresh_ne. exact H1. }
  assert (Hm2 : (<[r2 := fx]> hm) !! r1 = Some out).
  { rewrite lookup_insert_ne; [exact Hm1|]. eapply fresh_ne. exact Hm1. }
  assert (Hne : r3 <> r1) by (eapply fresh_ne; exact Hm2).
  split; [now rewrite lookup_insert_ne|exact Hne].
Qed.

Lemma quick_missing_imp_idempotent_witness :
  houses_store !! 1%positive = Some houses /\
  exists r1 h1,
    quick_missing_imp 1%positive "median" 17 "SalePrice" houses_store = (inr r1, h1) /\
    exists out r2 h2,
      h1 !! r1 = Some out /\
      quick_missing_imp r1 "median" 17 "SalePrice" h1 = (inr r2, h2) /\
      h2 !! r2 = Some out.
Proof.
  split; [reflexivity|].
  pose proof (quick_missing_imp_run houses_store 1%positive houses "median" 17 "SalePrice"
                eq_refl) as Hrun.
  cbv zeta in Hrun.
  destruct (cat_filled_all 17 (dcols houses)) as [cs1|] eqn:Hcs;
    [|vm_compute in Hcs; discriminate].
  eexists _, _. split; [exact Hrun|].
  destruct (quick_missing_imp_idempotent houses_store _ 1%positive _ houses
              "median" 17 "SalePrice" eq_refl Hrun)
    as (out & r2 & h2 & H1 & H2 & H3 & _).
  exists out, r2, h2. repeat split; assumption.
Defined.

Lemma cat_filled_all_origin_in (cat_length : Z) (l cs : list (string * Column)) :
  cat_filled_all cat_length l = Some cs ->
  forall p, In p cs -> exists s, In (fst p, s) l /\ cat_filled cat_length s = Some (snd p).
Proof.
  revert cs. induction l as [|[n s] l IH]; intros cs; simpl.
  - intros [= <-] p [].
  - destruct (cat_filled cat_length s) as [s'|] eqn:Es; [|discriminate].
    destruct (cat_filled_all cat_length l) as [r'|]; [|discriminate].
    intros [= <-] p [<-|Hp]; [exists s; split; [now left|exact Es]|].
    destruct (IH r' eq_refl p Hp) as (s0 & Hin & E0). exists s0. split; [now right|exact E0].
Qed.

Lemma cat_filled_all_member (cat_length : Z) (l cs : list (string * Column))
    (col : string) (s : Column) :
  cat_filled_all cat_length l = Some cs ->
  assoc_get l col = Some s ->
  exists s1, cat_filled cat_length s = Some s1.
Proof.
  revert cs. induction l as [|[n s0] l IH]; intros cs; simpl; [discriminate|].
  destruct (cat_filled cat_length s0) as [s'|] eqn:Es; [|discriminate].
  destruct (cat_filled_all cat_length l) as [r'|]; [|discriminate].
  intros _. destruct (String.eqb n col).
  - intros [= <-]. now exists s'.
  - now apply (IH r').
Qed.

Lemma Forall_assoc_set (P : string * Column -> Prop) (l : list (string * Column))
    (n : string) (c : Column) :
  List.Forall P l -> (forall n0, P (n0, c)) -> List.Forall P (assoc_set l n c).
Proof.
  intros Hl Hc. induction l as [|[n0 s] l IH]; simpl.
  - constructor; [apply Hc|constructor].
  - inversion Hl; subst. destruct (String.eqb n0 n); constructor; auto.
Qed.

(** [quick_missing_imp] keeps the shape of the frame: the frame it returns
    has the columns of the input, under the same names and in the same
    order, each of the same kind and length; a column without missing
    entries comes back unchanged; and a well-formed input gives a
    well-formed output. *)
Theorem quick_missing_imp_keeps_shape (h h1 : store) (r r1 : ref) (df : DataFrame)
    (num_method : string) (cat_length : Z) (target : string) :
  h !! r = Some df ->
  quick_missing_imp r num_method cat_length target h = (inr r1, h1) ->
  exists out,
    h1 !! r1 = Some out /\
    columns out = columns df /\
    nrows out = nrows df /\
    (forall col s, getitem df col = Some s ->
       exists s',
         getitem out col = Some s' /\
         is_object s' = is_object s /\
         col_len s' = col_len s /\
         (col_isnull_any s = false -> s' = s)) /\
    (frame_wf df -> frame_wf out).
Proof.
  intros Hr Hrun.
  rewrite (quick_missing_imp_run h r df num_method cat_length target Hr) in Hrun.
  cbv zeta in Hrun.
  destruct (cat_filled_all cat_length (dcols df)) as [cs1|] eqn:Hcs; [|discriminate].
  injection Hrun as <- <-.
  set (out := imputed_frame df num_method target cs1).
  exists out. split; [apply lookup_insert_eq|].
  set (fn := fun p : string * Column => (fst p, num_filled (stat_of num_method) (snd p))).
  assert (Hnames1 : List.map fst (List.map fn cs1) = columns df).
  { rewrite List.map_map. simpl. apply (cat_filled_all_names cat_length _ _ Hcs). }
  assert (Hcols : columns out = columns df).
  { unfold out, imputed_frame. fold fn. destruct (getitem df target) as [t|] eqn:Ht.
    - unfold columns, setitem. simpl.
      destruct (cat_filled_all_member cat_length _ _ target t Hcs Ht) as [t1 Et].
      rewrite (assoc_set_keeps_names _ target t (num_filled (stat_of num_method) t1));
        [exact Hnames1|].
      unfold fn. rewrite assoc_get_map.
      rewrite (cat_filled_all_get cat_length _ _ target Hcs).
      unfold getitem in Ht. now rewrite Ht, Et.
    - exact Hnames1. }
  assert (Hrows : nrows out = nrows df).
  { unfold out, imputed_frame. now destruct (getitem df target). }
  split; [exact Hcols|]. split; [exact Hrows|]. split.
  - intros col s Hs. destruct (String.eqb_spec col target) as [->|Hne].
    + exists s. unfold out, imputed_frame. rewrite Hs.
      split; [apply getitem_setitem|]. now repeat split.
    + unfold out.
      rewrite (imputed_frame_get df num_method target cat_length cs1 col s Hcs Hne Hs).
      destruct (cat_filled_all_member cat_length _ _ col s Hcs Hs) as [s1 Es1].
      rewrite Es1. simpl. eexists. split; [reflexivity|].
      destruct (cat_filled_shape cat_length s s1 Es1) as (Ho1 & Hl1 & Hk1).
      destruct (num_filled_shape (stat_of num_method) s1) as (Ho2 & Hl2 & Hk2).
      split; [congruence|]. split; [congruence|].
      intros Hn. assert (E1 : s1 = s).
      { apply Hk1. destruct s; [exact Hn|exact I]. }
      subst s1. apply Hk2. destruct s; [exact I|exact Hn].
  - intros [Hnd Hlen]. split; [now rewrite Hcols|].
    rewrite Hrows. rewrite List.Forall_forall in Hlen.
    assert (H1 : List.Forall (fun p => col_len (snd p) = nrows df) (List.map fn cs1)).
    { apply List.Forall_forall. intros p Hp. apply in_map_iff in Hp as (p1 & <- & Hp1).
      simpl. destruct (cat_filled_all_origin_in cat_length _ _ Hcs p1 Hp1) as (s & Hin & Es).
      destruct (cat_filled_shape cat_length s _ Es) as (_ & Hl1 & _).
      destruct (num_filled_shape (stat_of num_method) (snd p1)) as (_ & Hl2 & _).
      rewrite Hl2, Hl1. apply (Hlen (fst p1, s) Hin). }
    unfold out, imputed_frame. fold fn. destruct (getitem df target) as [t|] eqn:Ht.
    + simpl. apply Forall_assoc_set; [exact H1|]. intros n0. simpl.
      apply (Hlen (target, t)). now apply assoc_get_Some_In.
    + exact H1.
Qed.

Lemma quick_missing_imp_keeps_shape_witness :
  houses_store !! 1%positive = Some houses /\
  exists r1 h1,
    quick_missing_imp 1%positive "mean" 17 "SalePrice" houses_store = (inr r1, h1) /\
    exists out, h1 !! r1 = Some out /\ columns out = columns houses /\ frame_wf out.
Proof.
  split; [reflexivity|].
  pose proof (quick_missing_imp_run houses_store 1%positive houses "mean" 17 "SalePrice"
                eq_refl) as Hrun.
  cbv zeta in Hrun.
  destruct (cat_filled_all 17 (dcols houses)) as [cs1|] eqn:Hcs;
    [|vm_compute in Hcs; discriminate].
  eexists _, _. split; [exact Hrun|].
  destruct (quick_missing_imp_keeps_shape houses_store _ 1%positive _ houses
              "mean" 17 "SalePrice" eq_refl Hrun)
    as (out & H1 & H2 & _ & _ & H3).
  exists out. split; [exact H1|]. split; [exact H2|]. apply H3. exact houses_wf.
Defined.

(** ** More on the outlier helpers *)




(** [replace_with_thresholds] checks before it writes: a name that is not a
    column, a lower percentile outside [0, 1], an upper percentile outside
    [0, 1] on a numeric column, or a text column holding text each raise
    with the store exactly as it was. *)
Theorem replace_with_thresholds_failures (h : store) (r : ref) (df : DataFrame)
    (variable : string) (lq uq : Q) :
  h !! r = Some df ->
  (getitem df variable = None ->
     replace_with_thresholds r variable lq uq h = (inl (KeyError variable), h)) /\
  (forall s, getitem df variable = Some s -> valid_percentile lq = false ->
     replace_with_thresholds r variable lq uq h = (inl ValueError, h)) /\
  (forall vs, getitem df variable = Some (ColN vs) -> valid_percentile uq = false ->
     replace_with_thresholds r variable lq uq h = (inl ValueError, h)) /\
  (forall vs, getitem df variable = Some (ColO vs) -> dropna vs <> [] ->
     valid_percentile lq = true ->
     replace_with_thresholds r variable lq uq h = (inl TypeError, h)).
Proof.
  intros Hr. unfold replace_with_thresholds, outlier_thresholds.
  repeat split.
  - intros Hc. unfold bind, deref, column_of, lift_opt, raise. now rewrite Hr, Hc.
  - intros s Hc Hl. unfold bind, deref, column_of, lift_opt, raise, ret, series_quantile.
    now rewrite Hr, Hc, Hl.
  - intros vs Hc Hu. unfold bind, deref, column_of, lift_opt, raise, ret, series_quantile.
    rewrite Hr, Hc, Hu. simpl.
    destruct (valid_percentile lq); simpl; [|reflexivity].
    now destruct (isort (dropna vs)).
  - intros vs Hc Hne Hl. unfold bind, deref, column_of, lift_opt, raise, ret, series_quantile.
    rewrite Hr, Hc, Hl. simpl. destruct (dropna vs); [contradiction|reflexivity].
Qed.

Lemma replace_with_thresholds_failures_witness :
  houses_store !! 1%positive = Some houses /\
  replace_with_thresholds 1%positive "GarageArea" (1 # 10) (9 # 10) houses_store
    = (inl (KeyError "GarageArea"), houses_store) /\
  replace_with_thresholds 1%positive "LotArea" (1 # 10) (11 # 10) houses_store
    = (inl ValueError, houses_store) /\
  replace_with_thresholds 1%positive "Neighborhood" (1 # 10) (9 # 10) houses_store
    = (inl TypeError, houses_store).
Proof.
  split; [reflexivity|].
  destruct (replace_with_thresholds_failures houses_store 1%positive houses "GarageArea"
              (1 # 10) (9 # 10) eq_refl) as (Hkey & _).
  destruct (replace_with_thresholds_failures houses_store 1%positive houses "LotArea"
              (1 # 10) (11 # 10) eq_refl) as (_ & _ & Hval & _).
  destruct (replace_with_thresholds_failures houses_store 1%positive houses "Neighborhood"
              (1 # 10) (9 # 10) eq_refl) as (_ & _ & _ & Htype).
  split; [apply Hkey; reflexivity|]. split.
  - apply (Hval [Some 10%Q; None; Some 30%Q; Some 20%Q]); reflexivity.
  - apply (Htype [Some "A"; Some "B"; None; Some "A"]%string);
      [reflexivity|discriminate|reflexivity].
Defined.

(** On a numeric column [replace_with_thresholds] rewrites that column of
    the caller's frame and nothing else: names, order and row count stay,
    every other column and every other frame is as before, and the column
    is still numeric. *)
Theorem replace_with_thresholds_frame (h : store) (r : ref) (df : DataFrame)
    (variable : string) (vs : list (option Q)) (lq uq : Q) :
  h !! r = Some df ->
  getitem df variable = Some (ColN vs) ->
  valid_percentile lq = true -> valid_percentile uq = true ->
  exists out vs',
    replace_with_thresholds r variable lq uq h = (inr tt, <[r := out]> h) /\
    getitem out variable = Some (ColN vs') /\
    length vs' = length vs /\
    columns out = columns df /\
    nrows out = nrows df /\
    (forall c, c <> variable -> getitem out c = getitem df c) /\
    (forall r0, r0 <> r -> (<[r := out]> h) !! r0 = h !! r0).
Proof.
  intros Hr Hc Hl Hu. eexists _, _.
  split; [apply (replace_with_thresholds_numeric h r df variable vs lq uq Hr Hc Hl Hu)|].
  split; [apply getitem_setitem|]. split; [apply List.length_map|].
  split; [unfold columns, setitem; simpl; eapply assoc_set_keeps_names; exact Hc|].
  split; [reflexivity|].
  split; [intros c Hne; apply getitem_setitem_other; congruence|].
  intros r0 Hne. apply lookup_insert_ne. congruence.
Qed.

Lemma replace_with_thresholds_frame_witness :
  houses_store !! 1%positive = Some houses /\
  exists out,
    replace_with_thresholds 1%positive "LotArea" (1 # 10) (9 # 10) houses_store
      = (inr tt, <[1%positive := out]> houses_store) /\
    getitem out "SalePrice" = getitem houses "SalePrice" /\
    columns out = columns houses.
Proof.
  split; [reflexivity|].
  destruct (replace_with_thresholds_frame houses_store 1%positive houses "LotArea"
              [Some 10%Q; None; Some 30%Q; Some 20%Q] (1 # 10) (9 # 10)
              eq_refl eq_refl eq_refl eq_refl)
    as (out & vs' & H1 & _ & _ & H2 & _ & H3 & _).
  exists out. split; [exact H1|]. split; [apply H3; discriminate|exact H2].
Defined.

Lemma interp_at_index (xs : list Q) (i : nat) (h : Q) :
  (h == inject_Z (Z.of_nat i))%Q -> (interp xs h == nth i xs 0)%Q.
Proof.
  intros Hh. unfold interp. rewrite (Qfloor_comp _ _ Hh), Qfloor_Z, Nat2Z.id.
  rewrite Hh. ring.
Qed.

Lemma limits_full_range (vs : list (option Q)) (v : Q) :
  In (Some v) vs ->
  exists lo hi, limits_of vs 0 1 = (Some lo, Some hi) /\ (lo <= v)%Q /\ (v <= hi)%Q.
Proof.
  intros Hin. unfold limits_of.
  pose proof (isort_sorted_Q (dropna vs)) as Hs.
  assert (Hv : In v (isort (dropna vs))).
  { eapply Permutation_in; [symmetry; apply isort_perm|]. now apply dropna_In. }
  destruct (isort (dropna vs)) as [|x xs] eqn:E; [destruct Hv|].
  eexists _, _. split; [reflexivity|]. cbv zeta.
  set (l := x :: xs) in *.
  assert (Hq1 : (quantile_sorted l 0 == nth 0 l 0)%Q).
  { unfold quantile_sorted. apply interp_at_index. simpl. ring. }
  assert (Hq3 : (quantile_sorted l 1 == nth (length l - 1) l 0)%Q).
  { unfold quantile_sorted. apply interp_at_index. unfold of_nat_Q. ring. }
  apply In_nth with (d := 0%Q) in Hv as (i & Hi & <-).
  assert (Hlo : (nth 0 l 0 <= nth i l 0)%Q) by (apply sorted_nth_le; [exact Hs|lia]).
  assert (Hhi : (nth i l 0 <= nth (length l - 1) l 0)%Q)
    by (apply sorted_nth_le; [exact Hs|lia]).
  split; lra.
Qed.

(** With the percentiles 0 and 1 the limits lie at or beyond the smallest
    and the largest value, so [replace_with_thresholds] changes nothing:
    the store after the call is the store before it. *)
Theorem replace_with_thresholds_full_range (h : store) (r : ref) (df : DataFrame)
    (variable : string) (vs : list (option Q)) :
  h !! r = Some df ->
  getitem df variable = Some (ColN vs) ->
  replace_with_thresholds r variable 0 1 h = (inr tt, h).
Proof.
  intros Hr Hc.
  rewrite (replace_with_thresholds_numeric h r df variable vs 0 1 Hr Hc eq_refl eq_refl).
  assert (Hid : List.map (clip_cell (fst (limits_of vs 0 1)) (snd (limits_of vs 0 1))) vs = vs).
  { transitivity (List.map (fun c : option Q => c) vs); [|apply List.map_id].
    apply map_ext_in. intros [v|] Hin.
    - destruct (limits_full_range vs v Hin) as (lo & hi & E & Hlo & Hhi).
      rewrite E. simpl.
      destruct (clip_cell_present lo hi v ltac:(lra)) as (v' & Ev & _ & _ & Hkeep & _).
      rewrite Ev. f_equal. now apply Hkeep.
    - apply clip_cell_missing. }
  rewrite Hid. f_equal. apply insert_id. rewrite Hr. f_equal.
  destruct df as [n l]. unfold setitem, getitem in *. simpl in *.
  now rewrite assoc_set_same_value.
Qed.

Lemma replace_with_thresholds_full_range_witness :
  houses_store !! 1%positive = Some houses /\
  replace_with_thresholds 1%positive "SalePrice" 0 1 houses_store = (inr tt, houses_store).
Proof.
  split; [reflexivity|].
  apply (replace_with_thresholds_full_range houses_store 1%positive houses "SalePrice"
           [Some 100%Q; Some 200%Q; None; Some 300%Q]); reflexivity.
Defined.

(** ** More on [one_hot_encoder] *)

Lemma assoc_get_app (l1 l2 : list (string * Column)) (col : string) :
  assoc_get (l1 ++ l2) col =
    match assoc_get l1 col with
    | Some c => Some c
    | None => assoc_get l2 col
    end.
Proof.
  induction l1 as [|[n s] l1 IH]; simpl; [reflexivity|].
  now destruct (String.eqb n col).
Qed.

Lemma assoc_get_filter_out (cols : list string) (l : list (string * Column)) (col : string) :
  ~ In col cols ->
  assoc_get (List.filter (fun p => negb (str_in (fst p) cols)) l) col = assoc_get l col.
Proof.
  intros Hn. induction l as [|[n s] l IH]; simpl; [reflexivity|].
  destruct (String.eqb_spec n col) as [->|Hne].
  - apply str_in_false in Hn. rewrite Hn. simpl. now rewrite String.eqb_refl.
  - destruct (str_in n cols); simpl; [exact IH|].
    destruct (String.eqb_spec n col); [contradiction|exact IH].
Qed.

Lemma absent_true (df : DataFrame) (c : string) :
  absent df c = true <-> getitem df c = None.
Proof. unfold absent. destruct (getitem df c); split; congruence. Qed.

(** the labels of the error are the listed names that are no column *)
Lemma not_in_index_In (df : DataFrame) (cols : list string) (c : string) :
  In c (not_in_index df cols) <-> In c cols /\ getitem df c = None.
Proof.
  unfold not_in_index. rewrite <- absent_true, <- filter_In.
  destruct (List.filter (absent df) cols) as [|c0 l] eqn:E; [reflexivity|].
  destruct (forallb (absent df) cols) eqn:Ef.
  - rewrite <- E, filter_In. rewrite forallb_forall in Ef.
    split; [|tauto]. intros Hc. split; [exact Hc|now apply Ef].
  - exact (uniq_In_str (c0 :: l) c).
Qed.

Lemma not_in_index_all (df : DataFrame) (cols : list string) :
  (forall c, In c cols -> getitem df c = None) -> not_in_index df cols = cols.
Proof.
  intros Hall. unfold not_in_index.
  assert (Ef : forallb (absent df) cols = true).
  { apply forallb_forall. intros c Hc. apply absent_true. now apply Hall. }
  rewrite Ef. destruct (List.filter (absent df) cols) as [|c0 l] eqn:E; [|reflexivity].
  destruct cols as [|c cols]; [reflexivity|].
  assert (F : In c (List.filter (absent df) (c :: cols))).
  { apply filter_In. split; [now left|]. apply absent_true, Hall. now left. }
  rewrite E in F. destruct F.
Qed.

Lemma count_In_str (x : string) (l : list string) : In x l -> (1 <= count x l)%nat.
Proof.
  unfold count. induction l as [|y l IH]; simpl; [tauto|].
  intros [->|Hx].
  - rewrite String.eqb_refl. simpl. lia.
  - destruct (String.eqb x y); simpl; [lia|now apply IH].
Qed.

(** a list in which no text is counted twice has no duplicate *)
Lemma count_le_NoDup_str (l : list string) :
  (forall x, (count x l <= 1)%nat) -> List.NoDup l.
Proof.
  induction l as [|y l IH]; intros Hc; constructor.
  - intros Hy. apply count_In_str in Hy. specialize (Hc y).
    unfold count in *. simpl in *. rewrite String.eqb_refl in Hc. simpl in Hc. lia.
  - apply IH. intros x. specialize (Hc x). unfold count in *. simpl in *.
    destruct (String.eqb x y); simpl in Hc; lia.
Qed.

Lemma uniq_NoDup_str (l : list string) : List.NoDup (uniq l).
Proof.
  apply count_le_NoDup_str. intros x. unfold uniq.
  rewrite count_uniq_acc by reflexivity. destruct (memb x [] || memb x l); lia.
Qed.

Lemma not_in_index_NoDup (df : DataFrame) (cols : list string) (c : string) :
  In c cols -> getitem df c <> None -> List.NoDup (not_in_index df cols).
Proof.
  intros Hc Hp. unfold not_in_index.
  destruct (List.filter (absent df) cols) as [|c0 l] eqn:E; [constructor|].
  destruct (forallb (absent df) cols) eqn:Ef; [|apply uniq_NoDup_str].
  rewrite forallb_forall in Ef. apply Ef, absent_true in Hc. contradiction.
Qed.

Section OneHotMore.
Variable str_of_num : Q -> string.

Lemma dummies_1d_lengths (prefix : string) (s : Column) (drop_first : bool) :
  List.Forall (fun p => col_len (snd p) = col_len s)
              (dummies_1d str_of_num prefix s drop_first).
Proof.
  destruct s as [vs|vs]; simpl; apply List.Forall_forall; intros p Hp;
    apply in_map_iff in Hp as (lv & <- & _); simpl; apply List.length_map.
Qed.

(** A listed name that is not a column makes [one_hot_encoder] raise
    one [KeyError] and leave the store as it was.  The error names the
    listed names that are no column of the frame, all of them and no other
    name: the whole list as it was given when none of its names is a
    column, and otherwise each missing name once. *)
Theorem one_hot_encoder_missing_column (h : store) (r : ref) (df : DataFrame)
    (cols : list string) (c : string) (drop_first : bool) :
  h !! r = Some df ->
  In c cols ->
  getitem df c = None ->
  exists labels,
    one_hot_encoder str_of_num r cols drop_first h = (inl (KeyErrorLabels labels), h) /\
    (forall c', In c' labels <-> In c' cols /\ getitem df c' = None) /\
    ((forall c', In c' cols -> getitem df c' = None) -> labels = cols) /\
    (forall c', In c' cols -> getitem df c' <> None -> List.NoDup labels).
Proof.
  intros Hr Hc Ha. exists (not_in_index df cols). split; [|split; [|split]].
  - unfold one_hot_encoder. destruct cols as [|c0 l] eqn:E; [destruct Hc|]. rewrite <- E in *.
    rewrite (bind_inr _ _ _ _ _ (deref_run h r df Hr)). unfold get_dummies.
    destruct (not_in_index df cols) as [|c1 labels] eqn:En; [|reflexivity].
    assert (F : In c (not_in_index df cols)) by (apply not_in_index_In; now split).
    rewrite En in F. destruct F.
  - intros c'. apply not_in_index_In.
  - apply not_in_index_all.
  - intros c'. apply not_in_index_NoDup.
Qed.

(** When every listed name is a column, the frame [one_hot_encoder] returns
    has the rows of the input; every column of the input that is not listed
    is found in it unchanged; and on a well-formed input every column of the
    result, the indicator columns included, is as long as the frame. *)
Theorem one_hot_encoder_keeps_unlisted (h : store) (r : ref) (df : DataFrame)
    (cols : list string) (drop_first : bool) :
  h !! r = Some df ->
  cols <> [] ->
  (forall c, In c cols -> getitem df c <> None) ->
  exists r' out,
    one_hot_encoder str_of_num r cols drop_first h = (inr r', <[r' := out]> h) /\
    h !! r' = None /\
    nrows out = nrows df /\
    (forall c s, ~ In c cols -> getitem df c = Some s -> getitem out c = Some s) /\
    (frame_wf df -> List.Forall (fun p => col_len (snd p) = nrows out) (dcols out)).
Proof.
  intros Hr Hne Hall. eexists _, _.
  split; [apply (one_hot_encoder_run str_of_num h r df cols drop_first Hr Hne Hall)|].
  split; [apply fresh_lookup_None|]. split; [reflexivity|]. split.
  - intros c s Hn Hs. unfold getitem. simpl. rewrite assoc_get_app.
    rewrite (assoc_get_filter_out cols (dcols df) c Hn). unfold getitem in Hs.
    now rewrite Hs.
  - intros Hwf. simpl. apply List.Forall_app. split.
    + destruct Hwf as [_ Hlen]. rewrite List.Forall_forall in *.
      intros p Hp. apply filter_In in Hp as [Hp _]. now apply Hlen.
    + apply List.Forall_forall. intros p Hp. apply in_flat_map in Hp as (c & Hc & Hp).
      destruct (getitem df c) as [s|] eqn:Es; [|destruct Hp].
      pose proof (dummies_1d_lengths c s drop_first) as Hd.
      rewrite List.Forall_forall in Hd. rewrite (Hd p Hp).
      now apply (wf_column_length df c s).
Qed.
End OneHotMore.

Lemma one_hot_encoder_missing_column_witness :
  houses_store !! 1%positive = Some houses /\
  In "Street"%string ["Neighborhood"; "Street"; "LotArea"; "Alley"]%string /\
  getitem houses "Street" = None /\
  exists labels,
    one_hot_encoder (fun _ => EmptyString) 1%positive
      ["Neighborhood"; "Street"; "LotArea"; "Alley"]%string true houses_store
      = (inl (KeyErrorLabels labels), houses_store) /\
    (In "Alley"%string labels /\ ~ In "LotArea"%string labels).
Proof.
  split; [reflexivity|]. split; [right; now left|]. split; [reflexivity|].
  destruct (one_hot_encoder_missing_column (fun _ => EmptyString) houses_store 1%positive houses
              ["Neighborhood"; "Street"; "LotArea"; "Alley"]%string "Street" true eq_refl)
    as (labels & Hrun & Hin & _); [right; now left|reflexivity|].
  exists labels. split; [exact Hrun|]. split.
  - apply Hin. split; [|reflexivity]. do 3 right. now left.
  - intros F. apply Hin in F as [_ F]. discriminate.
Defined.

Lemma one_hot_encoder_keeps_unlisted_witness :
  houses_store !! 1%positive = Some houses /\
  exists r' out,
    one_hot_encoder (fun _ => EmptyString) 1%positive ["Neighborhood"%string] true houses_store
      = (inr r', <[r' := out]> houses_store) /\
    getitem out "SalePrice" = Some (ColN [Some 100%Q; Some 200%Q; None; Some 300%Q]).
Proof.
  split; [reflexivity|].
  destruct (one_hot_encoder_keeps_unlisted (fun _ => EmptyString) houses_store 1%positive houses
              ["Neighborhood"%string] true eq_refl) as (r' & out & H1 & _ & _ & H2 & _).
  - discriminate.
  - intros c [<-|[]]. discriminate.
  - exists r', out. split; [exact H1|]. apply H2; [|reflexivity].
    intros [F|[]]. discriminate.
Defined.

Section DropFirst.
Context {A : Type} `{CellLaws A} `{!CellOrder A}.

Lemma indicator_cell (lv : A) (vs : list (option A)) (i : nat) :
  (i < length vs)%nat ->
  cell_value (indicator lv vs) i =
    match nth i vs None with
    | Some x => if ceqb x lv then 1%Q else 0%Q
    | None => 0%Q
    end.
Proof.
  intros Hi. unfold indicator, cell_value.
  rewrite (nth_indep _ None (Some 0%Q)) by (rewrite List.length_map; exact Hi).
  change (Some 0%Q) with ((fun c : option A => match c with
                            | Some x => if ceqb x lv then Some 1%Q else Some 0%Q
                            | None => Some 0%Q
                            end) None).
  rewrite map_nth. destruct (nth i vs None) as [x|]; [|reflexivity].
  now destruct (ceqb x lv).
Qed.

(** the indicator cells of a row, over any list of levels, add up to the
    number of levels equal to the value of the row *)
Lemma indicator_row_count (name : A -> string) (L : list A) (vs : list (option A)) (i : nat) :
  (i < length vs)%nat ->
  (row_sum (List.map (fun lv => (name lv, indicator lv vs)) L) i ==
     match nth i vs None with
     | Some x => of_nat_Q (count x L)
     | None => 0
     end)%Q.
Proof.
  intros Hi. unfold row_sum. rewrite List.map_map. simpl.
  rewrite (map_ext _ _ (fun lv => indicator_cell lv vs i Hi)).
  destruct (nth i vs None) as [x|].
  - apply Qsum_indicator.
  - induction L as [|lv L IH]; simpl; [reflexivity|]. rewrite IH. ring.
Qed.

Lemma cleb_refl (x : A) : cleb x x = true.
Proof. apply ceqb_cleb, ceqb_refl. Qed.

Lemma levels_head_least (vs : list (option A)) (hd0 : A) (tl0 : list A) (y : A) :
  levels vs = hd0 :: tl0 -> In (Some y) vs -> cleb hd0 y = true.
Proof.
  intros E Hy. pose proof (levels_ascending vs) as Hasc. rewrite E in Hasc.
  destruct Hasc as [Hhd _].
  destruct (index_of_found y (levels vs) (levels_memb vs y Hy)) as [_ (y' & Hy' & Eyy')].
  apply nth_error_In in Hy'. rewrite E in Hy'.
  apply cleb_trans with y'; [|apply ceqb_cleb; now rewrite ceqb_sym].
  destruct Hy' as [<-|Hy']; [apply cleb_refl|now apply Hhd].
Qed.

(** the dropped level is the least value: among the remaining levels a
    value is found once, unless it is the least one *)
Lemma count_tl_levels (vs : list (option A)) (x : A) :
  In (Some x) vs ->
  count x (tl (levels vs)) = if forallb (cleb x) (dropna vs) then 0%nat else 1%nat.
Proof.
  intros Hx. pose proof (count_levels vs x Hx) as Hc.
  destruct (levels vs) as [|hd0 tl0] eqn:E; [discriminate|].
  assert (Hhd : In (Some hd0) vs) by (apply levels_from; rewrite E; now left).
  unfold count in *. simpl in *.
  assert (Eq : ceqb x hd0 = forallb (cleb x) (dropna vs)).
  { destruct (forallb (cleb x) (dropna vs)) eqn:Ef.
    - rewrite forallb_forall in Ef. apply cleb_antisym.
      + apply Ef. now apply dropna_In.
      + now apply (levels_head_least vs hd0 tl0 x E).
    - destruct (ceqb x hd0) eqn:Exh; [|reflexivity].
      assert (F : forallb (cleb x) (dropna vs) = true); [|congruence].
      apply forallb_forall. intros y Hy. apply dropna_In in Hy.
      apply cleb_trans with hd0; [now apply ceqb_cleb|].
      now apply (levels_head_least vs hd0 tl0 y E). }
  rewrite <- Eq. destruct (ceqb x hd0); simpl in Hc; lia.
Qed.
End DropFirst.

Section IndicatorCells.
Context {A : Type} `{CellLaws A} `{!CellOrder A}.

Lemma indicator_cell_is (q : Q) (lv : A) (vs : list (option A)) (i : nat) :
  (i < length vs)%nat ->
  cell_is q (indicator lv vs) i =
    Qeq_bool (match nth i vs None with
              | Some x => if ceqb x lv then 1 else 0
              | None => 0
              end) q.
Proof.
  intros Hi. unfold cell_is, indicator. rewrite List.nth_error_map.
  rewrite (nth_error_nth' vs None Hi). simpl.
  destruct (nth i vs None) as [x|]; [|reflexivity]. now destruct (ceqb x lv).
Qed.

(** every cell of an indicator column is 0 or 1 *)
Lemma indicator_zero_or_one (name : A -> string) (L : list A) (vs : list (option A)) (i : nat) :
  (i < length vs)%nat ->
  forallb (fun p => cell_is 0 (snd p) i || cell_is 1 (snd p) i)
          (List.map (fun lv => (name lv, indicator lv vs)) L) = true.
Proof.
  intros Hi. apply forallb_forall. intros p Hp.
  apply in_map_iff in Hp as (lv & <- & _). cbn [snd].
  rewrite !(indicator_cell_is _ lv vs i Hi).
  destruct (nth i vs None) as [x|]; [|reflexivity]. now destruct (ceqb x lv).
Qed.

(** the indicators that are 1 in a row are those of the levels equal to the
    value of the row *)
Lemma indicator_ones (name : A -> string) (L : list A) (vs : list (option A)) (i : nat) :
  (i < length vs)%nat ->
  cells_equal 1 (List.map (fun lv => (name lv, indicator lv vs)) L) i =
    match nth i vs None with
    | Some x => count x L
    | None => 0%nat
    end.
Proof.
  intros Hi. unfold cells_equal, count.
  induction L as [|lv L IH]; cbn [List.map List.filter snd];
    [now destruct (nth i vs None)|].
  rewrite (indicator_cell_is 1 lv vs i Hi).
  destruct (nth i vs None) as [x|]; simpl in *.
  - destruct (ceqb x lv); simpl; now rewrite IH.
  - exact IH.
Qed.

(** and the indicators that are 0 are all the others *)
Lemma indicator_zeros (name : A -> string) (L : list A) (vs : list (option A)) (i : nat) :
  (i < length vs)%nat ->
  cells_equal 0 (List.map (fun lv => (name lv, indicator lv vs)) L) i =
    match nth i vs None with
    | Some x => (length L - count x L)%nat
    | None => length L
    end.
Proof.
  intros Hi. unfold cells_equal, count.
  induction L as [|lv L IH]; cbn [List.map List.filter snd];
    [now destruct (nth i vs None)|].
  rewrite (indicator_cell_is 0 lv vs i Hi).
  destruct (nth i vs None) as [x|]; simpl in *.
  - pose proof (List.filter_length_le (ceqb x) L) as Hle.
    destruct (ceqb x lv); simpl; rewrite IH; lia.
  - now rewrite IH.
Qed.
End IndicatorCells.

Section OneHotDropFirst.
Variable str_of_num : Q -> string.

(** With [drop_first], a text column is replaced by the indicators of all
    its categories but the alphabetically first, one column for each of the
    k - 1 others, named after it.  Every cell of these columns is 0 or 1.
    In a row of that first category, as in a row with a missing entry, all
    the indicators are 0; in every other row exactly one indicator is 1 and
    the others are 0. *)
Theorem one_hot_encoder_drop_first_rows (h : store) (r : ref) (df : DataFrame)
    (col : string) (vs : list (option string)) :
  h !! r = Some df ->
  getitem df col = Some (ColO vs) ->
  exists r' block,
    one_hot_encoder str_of_num r [col] true h =
      (inr r',
       <[r' := mkDF (nrows df)
                 (List.filter (fun p => negb (str_in (fst p) [col])) (dcols df) ++ block)]> h) /\
    length block = pred (nunique vs) /\
    List.map fst block = List.map (fun lv => (col ++ "_" ++ lv)%string) (tl (levels vs)) /\
    (forall x, In x (tl (levels vs)) <->
       In (Some x) vs /\ forallb (String.leb x) (dropna vs) = false) /\
    forall i, (i < length vs)%nat ->
      forallb (fun p => cell_is 0 (snd p) i || cell_is 1 (snd p) i) block = true /\
      match nth i vs None with
      | Some x =>
          if forallb (String.leb x) (dropna vs)
          then cells_equal 1 block i = 0%nat /\ cells_equal 0 block i = length block
          else cells_equal 1 block i = 1%nat /\ cells_equal 0 block i = pred (length block)
      | None => cells_equal 1 block i = 0%nat /\ cells_equal 0 block i = length block
      end.
Proof.
  intros Hr Hc. exists (fresh (dom h)), (dummies_1d str_of_num col (ColO vs) true).
  split; [|split; [|split; [|split]]].
  - rewrite (one_hot_encoder_run str_of_num h r df [col] true Hr).
    + unfold dummies_all. simpl. rewrite Hc. now rewrite app_nil_r.
    + discriminate.
    + intros c [<-|[]]. congruence.
  - apply (dummies_1d_drop_first_length str_of_num col (ColO vs)).
  - simpl. rewrite List.map_map. reflexivity.
  - intros x. split.
    + intros Hx.
      assert (Hin : In (Some x) vs).
      { apply levels_from. destruct (levels vs); [destruct Hx|now right]. }
      split; [exact Hin|].
      pose proof (count_tl_levels vs x Hin) as Hcount.
      apply count_In_str in Hx.
      simpl in Hcount. destruct (forallb (String.leb x) (dropna vs)); [|reflexivity].
      rewrite Hcount in Hx. lia.
    + intros [Hin Hf]. pose proof (count_tl_levels vs x Hin) as Hcount.
      simpl in Hcount. rewrite Hf in Hcount.
      destruct (in_dec string_dec x (tl (levels vs))) as [Hx|Hx]; [exact Hx|].
      apply count_absent in Hx. rewrite Hx in Hcount. discriminate.
  - intros i Hi. simpl. split.
    + apply (indicator_zero_or_one (fun lv => (col ++ "_" ++ lv)%string) _ vs i Hi).
    + rewrite (indicator_ones (fun lv => (col ++ "_" ++ lv)%string) _ vs i Hi).
      rewrite (indicator_zeros (fun lv => (col ++ "_" ++ lv)%string) _ vs i Hi).
      rewrite List.length_map.
      destruct (nth i vs None) as [x|] eqn:Ex; [|now split].
      rewrite count_tl_levels by (rewrite <- Ex; apply nth_In; exact Hi).
      simpl. destruct (forallb (String.leb x) (dropna vs)); split; lia.
Qed.
End OneHotDropFirst.

Lemma one_hot_encoder_drop_first_rows_witness :
  houses_store !! 1%positive = Some houses /\
  getitem houses "Neighborhood" = Some (ColO [Some "A"; Some "B"; None; Some "A"]%string) /\
  exists r' block,
    one_hot_encoder (fun _ => EmptyString) 1%positive ["Neighborhood"%string] true houses_store =
      (inr r',
       <[r' := mkDF (nrows houses)
                 (List.filter (fun p => negb (str_in (fst p) ["Neighborhood"%string]))
                              (dcols houses) ++ block)]> houses_store) /\
    List.map fst block = ["Neighborhood_B"%string] /\
    cells_equal 1 block 0 = 0%nat /\ cells_equal 1 block 1 = 1%nat /\
    cells_equal 1 block 2 = 0%nat.
Proof.
  split; [reflexivity|]. split; [reflexivity|].
  destruct (one_hot_encoder_drop_first_rows (fun _ => EmptyString) houses_store 1%positive
              houses "Neighborhood" [Some "A"; Some "B"; None; Some "A"]%string
              eq_refl eq_refl) as (r' & block & H1 & _ & Hnames & _ & H2).
  exists r', block. split; [exact H1|]. split; [exact Hnames|]. split; [|split].
  - destruct (H2 0%nat) as [_ H0]; [simpl; lia|]. exact (proj1 H0).
  - destruct (H2 1%nat) as [_ H0]; [simpl; lia|]. exact (proj1 H0).
  - destruct (H2 2%nat) as [_ H0]; [simpl; lia|]. exact (proj1 H0).
Defined.

(** ** More on [target_mean_encode] *)

(** The target is looked up first and the grouping column after it
    ([KeyError] for the one that is missing); a text target holding text has
    no mean ([TypeError]).  In each case the store is as before. *)
Theorem target_mean_encode_failures (h : store) (frame : ref) (df : DataFrame)
    (column target : string) (m : Q) :
  h !! frame = Some df ->
  (getitem df target = None ->
     target_mean_encode frame column target m h = (inl (KeyError target), h)) /\
  (forall vs, getitem df target = Some (ColO vs) -> dropna vs <> [] ->
     target_mean_encode frame column target m h = (inl TypeError, h)) /\
  (forall tg, getitem df target = Some (ColN tg) -> getitem df column = None ->
     target_mean_encode frame column target m h = (inl (KeyError column), h)).
Proof.
  intros Hr. unfold target_mean_encode.
  rewrite (bind_inr _ _ _ _ _ (deref_run h frame df Hr)).
  unfold column_of, lift_opt, bind, ret, raise, numeric_cells. repeat split.
  - intros Ht. now rewrite Ht.
  - intros vs Ht Hne. rewrite Ht. destruct (dropna vs); [contradiction|reflexivity].
  - intros tg Ht Hc. now rewrite Ht, Hc.
Qed.

Lemma target_mean_encode_failures_witness :
  houses_store !! 1%positive = Some houses /\
  target_mean_encode 1%positive "Neighborhood" "Price" 100 houses_store
    = (inl (KeyError "Price"), houses_store) /\
  target_mean_encode 1%positive "Street" "SalePrice" 100 houses_store
    = (inl (KeyError "Street"), houses_store) /\
  target_mean_encode 1%positive "LotArea" "Neighborhood" 100 houses_store
    = (inl TypeError, houses_store).
Proof.
  split; [reflexivity|].
  destruct (target_mean_encode_failures houses_store 1%positive houses
              "Neighborhood" "Price" 100 eq_refl) as (H1 & _).
  destruct (target_mean_encode_failures houses_store 1%positive houses
              "Street" "SalePrice" 100 eq_refl) as (_ & _ & H2).
  destruct (target_mean_encode_failures houses_store 1%positive houses
              "LotArea" "Neighborhood" 100 eq_refl) as (_ & H3 & _).
  split; [apply H1; reflexivity|]. split.
  - apply (H2 [Some 100%Q; Some 200%Q; None; Some 300%Q]); reflexivity.
  - apply (H3 [Some "A"; Some "B"; None; Some "A"]%string); [reflexivity|discriminate].
Defined.

(** a sorted list of numbers without repetition is strictly sorted *)
Lemma sorted_distinct_strict (l : list Q) :
  StronglySorted Qle l -> (forall y, count y l <= 1)%nat -> StronglySorted Qlt l.
Proof.
  induction 1 as [|a l Hs IH Ha]; intros Hc; [constructor|].
  assert (Hc' : forall y, (count y l <= 1)%nat).
  { intros y. specialize (Hc y). unfold count in *. simpl in *.
    destruct (Qeq_bool y a); simpl in Hc; lia. }
  constructor; [now apply IH|].
  rewrite List.Forall_forall in *. intros x Hx.
  destruct (Qlt_le_dec a x) as [Hlt|Hle]; [exact Hlt|]. exfalso.
  assert (E : (a == x)%Q) by (apply Qle_antisym; [now apply Ha|exact Hle]).
  specialize (Hc a). unfold count in Hc. simpl in Hc.
  assert (Eaa : Qeq_bool a a = true) by (apply Qeq_bool_iff; reflexivity).
  rewrite Eaa in Hc. simpl in Hc.
  assert (Hpos : (1 <= length (List.filter (Qeq_bool a) l))%nat).
  { clear -Hx E. induction l as [|w l IHl]; [destruct Hx|]. simpl.
    destruct Hx as [->|Hx].
    - apply Qeq_bool_iff in E. rewrite E. simpl. lia.
    - destruct (Qeq_bool a w); simpl; [lia|now apply IHl]. }
  lia.
Qed.

Lemma target_mean_encode_run_numeric (h : store) (frame : ref) (df : DataFrame)
    (column target : string) (m : Q) (keys tg : list (option Q)) :
  h !! frame = Some df ->
  getitem df column = Some (ColN keys) ->
  getitem df target = Some (ColN tg) ->
  target_mean_encode frame column target m h =
    (inr (SerN (smooth_items keys tg (mean tg) m)), h).
Proof.
  intros Hr Hk Ht. unfold target_mean_encode.
  rewrite (bind_inr _ _ _ _ _ (deref_run h frame df Hr)).
  unfold column_of, lift_opt, bind, ret. rewrite Ht, Hk. reflexivity.
Qed.

(** The series returned by [target_mean_encode] lists the categories in
    ascending order and each of them once, for a text column as for a
    numeric one.  For a numeric grouping column the entries are the numbers
    met in the column, in strictly ascending order, so each number once,
    scored by the same formula as for text categories. *)
Theorem target_mean_encode_index_sorted (h : store) (frame : ref) (df : DataFrame)
    (column target : string) (m : Q) (tg : list (option Q)) :
  h !! frame = Some df ->
  getitem df target = Some (ColN tg) ->
  (forall keys, getitem df column = Some (ColO keys) ->
     exists items,
       target_mean_encode frame column target m h = (inr (SerO items), h) /\
       ascending (List.map fst items) /\
       List.NoDup (List.map fst items)) /\
  (forall keys, getitem df column = Some (ColN keys) ->
     exists items,
       target_mean_encode frame column target m h = (inr (SerN items), h) /\
       StronglySorted Qlt (List.map fst items) /\
       (forall c, In c (List.map fst items) -> In (Some c) keys) /\
       (forall c, In (Some c) keys ->
          exists c', In c' (List.map fst items) /\ (c == c')%Q) /\
       (forall c, In (Some c) keys -> count c (List.map fst items) = 1%nat) /\
       (forall c score, In (c, score) items ->
          score = smooth_score (length (dropna (group_rows c keys tg)))
                               (mean (group_rows c keys tg)) (mean tg) m)).
Proof.
  intros Hr Ht. split.
  - intros keys Hk. exists (smooth_items keys tg (mean tg) m).
    split; [now apply target_mean_encode_run with df|].
    rewrite smooth_items_keys. split; [apply levels_ascending|].
    apply count_le_NoDup_str, levels_count_le.
  - intros keys Hk. exists (smooth_items keys tg (mean tg) m).
    split; [now apply target_mean_encode_run_numeric with df|].
    rewrite smooth_items_keys.
    split; [apply sorted_distinct_strict; [apply isort_sorted_Q|apply levels_count_le]|].
    split; [apply levels_from|]. split; [|split].
    + intros c Hc.
      destruct (index_of_found c (levels keys) (levels_memb keys c Hc))
        as [_ (c' & Hc' & E)].
      exists c'. split; [eapply nth_error_In; exact Hc'|].
      simpl in E. now apply Qeq_bool_iff.
    + apply count_levels.
    + intros c score Hin. now apply smooth_items_score.
Qed.

Lemma target_mean_encode_index_sorted_witness :
  sales_store !! 1%positive = Some sales /\
  getitem sales "SalePrice" = Some (ColN [Some 100%Q; None; Some 300%Q; None]) /\
  exists items,
    target_mean_encode 1%positive "Neighborhood" "SalePrice" 100 sales_store
      = (inr (SerO items), sales_store) /\
    ascending (List.map fst items) /\
    List.NoDup (List.map fst items).
Proof.
  split; [reflexivity|]. split; [reflexivity|].
  destruct (target_mean_encode_index_sorted sales_store 1%positive sales "Neighborhood"
              "SalePrice" 100 [Some 100%Q; None; Some 300%Q; None] eq_refl eq_refl)
    as [Htext _].
  apply (Htext [Some "A"; Some "A"; Some "B"; Some "C"]%string). reflexivity.
Defined.

(** ** More on [grab_col_names] *)

Lemma getitem_In_columns (df : DataFrame) (col : string) (s : Column) :
  getitem df col = Some s -> In col (columns df).
Proof.
  intros Hs. apply assoc_get_Some_In in Hs. unfold columns.
  apply in_map_iff. now exists (col, s).
Qed.

(** Where a column lands.  A text column goes to the cardinal list when it
    has more than [car_th] distinct values and to the categorical list
    otherwise; a numeric column goes to the categorical list when it has
    fewer than [cat_th] distinct values and to the numeric list otherwise.
    The lists hold nothing but column names of the frame. *)
Theorem grab_col_names_classifies (h : store) (r : ref) (df : DataFrame)
    (cat_th car_th : Z) :
  h !! r = Some df ->
  exists cat_cols cat_but_car num_cols,
    grab_col_names r cat_th car_th h = (inr (cat_cols, cat_but_car, num_cols), h) /\
    (forall col, In col (cat_cols ++ cat_but_car ++ num_cols) -> In col (columns df)) /\
    (forall col vs, getitem df col = Some (ColO vs) ->
       (In col cat_but_car <-> (car_th < Z.of_nat (nunique vs))%Z) /\
       (In col cat_cols <-> (Z.of_nat (nunique vs) <= car_th)%Z) /\
       ~ In col num_cols) /\
    (forall col vs, getitem df col = Some (ColN vs) ->
       (In col cat_cols <-> (Z.of_nat (nunique vs) < cat_th)%Z) /\
       (In col num_cols <-> (cat_th <= Z.of_nat (nunique vs))%Z) /\
       ~ In col cat_but_car).
Proof.
  intros Hr.
  pose proof (grab_col_names_lists df cat_th car_th) as E. cbv zeta in E.
  eexists _, _, _. split.
  { unfold grab_col_names, bind, deref, ret. rewrite Hr, E. reflexivity. }
  split.
  { intros col Hin. rewrite !in_app_iff in Hin.
    destruct Hin as [[Hin|Hin]|[Hin|Hin]]; apply filter_In in Hin; tauto. }
  split.
  - intros col vs Hc. pose proof (getitem_In_columns df col _ Hc) as Hin.
    rewrite in_app_iff, !filter_In. unfold dtype_O, nunique_of. rewrite Hc. simpl.
    rewrite !andb_true_r, !andb_false_r, negb_true_iff, Z.ltb_lt, Z.ltb_ge.
    repeat split; try tauto.
    + intros [[_ H1]|[_ H1]]; [exact H1|discriminate].
    + intros [_ F]. discriminate.
  - intros col vs Hc. pose proof (getitem_In_columns df col _ Hc) as Hin.
    rewrite in_app_iff, !filter_In. unfold dtype_O, nunique_of. rewrite Hc. simpl.
    rewrite !andb_true_r, !andb_false_r, negb_true_iff, Z.ltb_lt, Z.ltb_ge.
    repeat split; try tauto.
    + intros [[_ H1]|[_ H1]]; [discriminate|exact H1].
    + intros [_ F]. discriminate.
Qed.

Lemma grab_col_names_classifies_witness :
  houses_store !! 1%positive = Some houses /\
  exists cat_cols cat_but_car num_cols,
    grab_col_names 1%positive 2 20 houses_store
      = (inr (cat_cols, cat_but_car, num_cols), houses_store) /\
    In "LotArea"%string num_cols /\ In "Neighborhood"%string cat_cols.
Proof.
  split; [reflexivity|].
  destruct (grab_col_names_classifies houses_store 1%positive houses 2 20 eq_refl)
    as (a & b & c & Hrun & _ & Htext & Hnum).
  exists a, b, c. split; [exact Hrun|]. split.
  - apply (Hnum "LotArea"%string [Some 10%Q; None; Some 30%Q; Some 20%Q] eq_refl).
    vm_compute. discriminate.
  - apply (Htext "Neighborhood"%string [Some "A"; Some "B"; None; Some "A"]%string eq_refl).
    vm_compute. discriminate.
Defined.

(** ** [plot_importance] *)

Lemma firstn_split {A} (n : nat) (l : list A) : l = firstn n l ++ skipn n l.
Proof. symmetry. apply firstn_skipn. Qed.

Lemma df_head_prefix {A} (n : Z) (l : list A) :
  exists rest, l = df_head n l ++ rest /\
    length (df_head n l) =
      (if (0 <=? n)%Z then Nat.min (Z.to_nat n) (length l)
       else length l - Z.to_nat (- n))%nat.
Proof.
  unfold df_head. destruct (0 <=? n)%Z.
  - exists (skipn (Z.to_nat n) l). split; [apply firstn_split|]. apply List.length_firstn.
  - exists (skipn (length l - Z.to_nat (- n)) l). split; [apply firstn_split|].
    rewrite List.length_firstn. lia.
Qed.

Lemma descending_app (l1 l2 : list (Q * string)) :
  descending (l1 ++ l2) ->
  descending l1 /\ forall a b, In a l1 -> In b l2 -> (fst b <= fst a)%Q.
Proof.
  unfold descending. induction l1 as [|x l1 IH]; simpl; intros Hs.
  - split; [constructor|]. intros a b [].
  - inversion Hs as [|? ? Hs' Hall]; subst. destruct (IH Hs') as [Hd Hcross].
    split.
    + constructor; [exact Hd|]. apply List.Forall_app in Hall. tauto.
    + intros a b [<-|Ha] Hb; [|now apply Hcross].
      rewrite List.Forall_forall in Hall. apply Hall. apply in_app_iff. now right.
Qed.

Section PlotProps.
Variable sort_values_desc : list (Q * string) -> list (Q * string).
Hypothesis sort_perm : forall l, Permutation (sort_values_desc l) l.
Hypothesis sort_sorted : forall l, descending (sort_values_desc l).

(** A model without [feature_importances_] makes [plot_importance] raise
    before anything is drawn, and so do importances whose number differs
    from the number of feature columns.  Otherwise the function draws one
    bar chart and shows it; the chart is saved, between drawing and showing
    and under the given path, exactly when [save] is set. *)
Theorem plot_importance_events (model : Estimator) (features : DataFrame)
    (num : option Z) (save : bool) (save_path : string) :
  (feature_importances_ model = None ->
     plot_importance sort_values_desc model features num save save_path
       = (inl AttributeError, [])) /\
  (forall imp, feature_importances_ model = Some imp ->
     length imp <> length (columns features) ->
     plot_importance sort_values_desc model features num save save_path
       = (inl FrameLengthError, [])) /\
  (forall imp, feature_importances_ model = Some imp ->
     length imp = length (columns features) ->
     exists rows before,
       plot_importance sort_values_desc model features num save save_path
         = (inr tt, before ++ Barplot rows :: Title "Features" :: TightLayout ::
                    (if save then [Savefig save_path; Show] else [Show])) /\
       ~ In Show before /\
       (forall p, ~ In (Savefig p) before) /\
       (forall l, ~ In (Barplot l) before)).
Proof.
  unfold plot_importance. split; [|split].
  - now intros ->.
  - intros imp -> Hne. apply Nat.eqb_neq in Hne. now rewrite Hne.
  - intros imp -> He. apply Nat.eqb_eq in He. rewrite He. simpl.
    eexists _, [Figure 10 10; SetTheme 1]. split.
    + destruct save; reflexivity.
    + repeat split; intros; simpl; intuition discriminate.
Qed.

(** The chart shows the top of the ranking.  The rows handed to the bar
    plot are in descending order of importance; together with the rows left
    out they are exactly the (importance, feature) pairs of the model, each
    once; no row left out has a larger importance than a row shown.  All
    features are shown when [num] is absent, the first [num] of them for
    [num >= 0], and all but the last [-num] for a negative [num]. *)
Theorem plot_importance_top_rows (model : Estimator) (features : DataFrame)
    (num : option Z) (save : bool) (save_path : string) (imp : list Q) :
  feature_importances_ model = Some imp ->
  length imp = length (columns features) ->
  exists rows rest events,
    plot_importance sort_values_desc model features num save save_path = (inr tt, events) /\
    In (Barplot rows) events /\
    Permutation (rows ++ rest) (combine imp (columns features)) /\
    descending rows /\
    (forall a b, In a rows -> In b rest -> (fst b <= fst a)%Q) /\
    length rows =
      match num with
      | None => length imp
      | Some n => if (0 <=? n)%Z then Nat.min (Z.to_nat n) (length imp)
                  else (length imp - Z.to_nat (- n))%nat
      end.
Proof.
  intros Hm He. unfold plot_importance. rewrite Hm.
  assert (E : (length imp =? length (columns features)) = true) by now apply Nat.eqb_eq.
  rewrite E. simpl.
  set (n := match num with
            | Some n => n
            | None => Z.of_nat (length (columns features))
            end).
  set (sorted := sort_values_desc (combine imp (columns features))).
  destruct (df_head_prefix n sorted) as (rest & Hsplit & Hlen).
  assert (Hlsorted : length sorted = length imp).
  { unfold sorted. rewrite (Permutation_length (sort_perm _)), List.length_combine. lia. }
  pose proof (sort_sorted (combine imp (columns features))) as Hdesc. fold sorted in Hdesc.
  rewrite Hsplit in Hdesc. apply descending_app in Hdesc as [Hd Hcross].
  exists (df_head n sorted), rest. eexists. split; [reflexivity|].
  split; [simpl; tauto|]. split; [rewrite <- Hsplit; apply sort_perm|].
  split; [exact Hd|]. split; [exact Hcross|].
  rewrite Hlen, Hlsorted. unfold n. destruct num as [k|]; [reflexivity|].
  rewrite <- He. replace (0 <=? Z.of_nat (length imp))%Z with true
    by (symmetry; apply Z.leb_le; lia).
  rewrite Nat2Z.id. lia.
Qed.
End PlotProps.

Lemma insert_desc_perm (p : Q * string) (l : list (Q * string)) :
  Permutation (insert_desc p l) (p :: l).
Proof.
  induction l as [|q l IH]; simpl; [reflexivity|].
  destruct (Qle_bool (fst q) (fst p)); [reflexivity|].
  etransitivity; [apply perm_skip, IH|apply perm_swap].
Qed.

Lemma sort_desc_perm (l : list (Q * string)) : Permutation (sort_desc l) l.
Proof.
  induction l as [|p l IH]; simpl; [constructor|].
  etransitivity; [apply insert_desc_perm|now apply perm_skip].
Qed.

Lemma insert_desc_descending (p : Q * string) (l : list (Q * string)) :
  descending l -> descending (insert_desc p l).
Proof.
  unfold descending. induction 1 as [|q l Hs IH Hall]; simpl.
  - repeat constructor.
  - destruct (Qle_bool (fst q) (fst p)) eqn:E.
    + apply Qle_bool_iff in E. constructor; [now constructor|].
      constructor; [exact E|].
      eapply List.Forall_impl; [|exact Hall]. intros z Hz. simpl in Hz.
      now apply Qle_trans with (fst q).
    + assert (Hpq : (fst p <= fst q)%Q).
      { destruct (Qlt_le_dec (fst p) (fst q)) as [Hlt|Hle]; [now apply Qlt_le_weak|].
        apply Qle_bool_iff in Hle. congruence. }
      constructor; [exact IH|].
      eapply Permutation_Forall; [symmetry; apply insert_desc_perm|].
      now constructor.
Qed.

Lemma sort_desc_descending (l : list (Q * string)) : descending (sort_desc l).
Proof.
  induction l as [|p l IH]; simpl; [constructor|now apply insert_desc_descending].
Qed.

Lemma plot_importance_events_witness :
  feature_importances_ forest = Some [(1 # 5); (1 # 2); (3 # 10)]%Q /\
  length [(1 # 5); (1 # 2); (3 # 10)]%Q = length (columns houses) /\
  exists rows before,
    plot_importance sort_desc forest houses (Some 2%Z) true "importances.png"
      = (inr tt, before ++ Barplot rows :: Title "Features" :: TightLayout ::
                 [Savefig "importances.png"; Show]).
Proof.
  split; [reflexivity|]. split; [reflexivity|].
  destruct (plot_importance_events sort_desc forest houses (Some 2%Z) true "importances.png")
    as (_ & _ & Hok).
  destruct (Hok [(1 # 5); (1 # 2); (3 # 10)]%Q eq_refl eq_refl) as (rows & before & H1 & _).
  now exists rows, before.
Defined.

Lemma plot_importance_top_rows_witness :
  feature_importances_ forest = Some [(1 # 5); (1 # 2); (3 # 10)]%Q /\
  length [(1 # 5); (1 # 2); (3 # 10)]%Q = length (columns houses) /\
  exists rows events,
    plot_importance sort_desc forest houses (Some 2%Z) false "importances.png"
      = (inr tt, events) /\
    In (Barplot rows) events /\ length rows = 2%nat.
Proof.
  split; [reflexivity|]. split; [reflexivity|].
  destruct (plot_importance_top_rows sort_desc sort_desc_perm sort_desc_descending
              forest houses (Some 2%Z) false "importances.png"
              [(1 # 5); (1 # 2); (3 # 10)]%Q eq_refl eq_refl)
    as (rows & rest & events & H1 & H2 & _ & _ & _ & H3).
  exists rows, events. split; [exact H1|]. split; [exact H2|exact H3].
Defined.

(** ** Operations in sequence *)

Section Pipelines.
Variable str_of_num : Q -> string.

(** Who owns the result of [one_hot_encoder].  With an empty column list the
    function hands back the caller's own frame, so that an in-place step on
    the result -- here [label_encoder] -- rewrites the caller's frame.  With
    a non-empty list the result is a new frame, and the same step leaves the
    caller's frame as it was. *)
Theorem one_hot_encoder_result_aliasing (h : store) (r : ref) (df : DataFrame)
    (col : string) (s : Column) (cols : list string) (drop_first : bool) :
  h !! r = Some df ->
  getitem df col = Some s ->
  (exists h2,
     bind (one_hot_encoder str_of_num r [] drop_first) (fun r' => label_encoder r' col) h
       = (inr r, h2) /\
     h2 !! r = Some (setitem df col (label_codes s))) /\
  (cols <> [] ->
   (forall c, In c cols -> getitem df c <> None) ->
   ~ In col cols ->
   exists r' h2 out,
     bind (one_hot_encoder str_of_num r cols drop_first) (fun r' => label_encoder r' col) h
       = (inr r', h2) /\
     r' <> r /\
     h2 !! r = Some df /\
     h2 !! r' = Some out /\
     getitem out col = Some (label_codes s)).
Proof.
  intros Hr Hc. split.
  - eexists. split.
    + unfold bind. simpl. apply (label_encoder_run h r df col s Hr Hc).
    + apply lookup_insert_eq.
  - intros Hne Hall Hnot.
    pose proof (one_hot_encoder_run str_of_num h r df cols drop_first Hr Hne Hall) as Hrun.
    set (r' := fresh (dom h)) in *.
    match type of Hrun with _ = (_, <[_ := ?x]> _) => set (enc := x) in * end.
    assert (Hc' : getitem enc col = Some s).
    { unfold enc, getitem. simpl. rewrite assoc_get_app.
      rewrite (assoc_get_filter_out cols (dcols df) col Hnot).
      unfold getitem in Hc. now rewrite Hc. }
    assert (Hne' : r' <> r) by (eapply fresh_ne; exact Hr).
    exists r'. eexists _, _. split.
    + rewrite (bind_inr _ _ _ _ _ Hrun).
      apply (label_encoder_run _ r' enc col s (lookup_insert_eq _ _ _) Hc').
    + split; [exact Hne'|]. split.
      * rewrite !lookup_insert_ne by exact Hne'. exact Hr.
      * split; [apply lookup_insert_eq|apply getitem_setitem].
Qed.

(** Imputation before encoding.  A text column that [quick_missing_imp]
    selects -- not the target, with at most [cat_length] distinct values
    counting a missing entry as one -- has no gap left in the frame
    returned, so that one-hot encoding it without [drop_first] gives
    indicators that add up to 1 in every row. *)
Theorem impute_then_one_hot (h h1 : store) (r r1 : ref) (df : DataFrame)
    (num_method : string) (cat_length : Z) (target col : string)
    (vs : list (option string)) :
  h !! r = Some df ->
  getitem df col = Some (ColO vs) ->
  col <> target ->
  (Z.of_nat (unique_len vs) <= cat_length)%Z ->
  quick_missing_imp r num_method cat_length target h = (inr r1, h1) ->
  exists out vs' r2 block,
    h1 !! r1 = Some out /\
    getitem out col = Some (ColO vs') /\
    length vs' = length vs /\
    one_hot_encoder str_of_num r1 [col] false h1 =
      (inr r2,
       <[r2 := mkDF (nrows out)
                 (List.filter (fun p => negb (str_in (fst p) [col])) (dcols out) ++ block)]> h1) /\
    forall i, (i < length vs)%nat -> (row_sum block i == 1)%Q.
Proof.
  intros Hr Hc Hne Hu Hrun.
  rewrite (quick_missing_imp_run h r df num_method cat_length target Hr) in Hrun.
  cbv zeta in Hrun.
  destruct (cat_filled_all cat_length (dcols df)) as [cs1|] eqn:Hcs; [|discriminate].
  injection Hrun as <- <-.
  set (out := imputed_frame df num_method target cs1).
  pose proof (imputed_frame_get df num_method target cat_length cs1 col (ColO vs) Hcs Hne Hc)
    as Hget. fold out in Hget.
  destruct (cat_filled_all_member cat_length _ _ col (ColO vs) Hcs Hc) as [s1 Es1].
  rewrite Es1 in Hget. simpl in Hget.
  assert (Hs1 : exists vs', s1 = ColO vs' /\ isnull_any vs' = false /\ length vs' = length vs).
  { simpl in Es1. unfold cat_eligible in Es1. apply Z.leb_le in Hu. rewrite Hu in Es1.
    simpl in Es1. destruct (isnull_any vs) eqn:En.
    - destruct (mode vs) as [|m rest]; [discriminate|]. injection Es1 as <-.
      exists (fillna m vs). split; [reflexivity|]. split; [apply isnull_any_fillna|].
      apply List.length_map.
    - injection Es1 as <-. now exists vs. }
  destruct Hs1 as (vs' & -> & Hnn & Hlen). simpl in Hget.
  match goal with |- context [<[?k := out]> ?m] => set (r1 := k); set (h0 := m) end.
  assert (H1 : (<[r1 := out]> h0) !! r1 = Some out) by apply lookup_insert_eq.
  exists out, vs', (fresh (dom (<[r1 := out]> h0))),
    (dummies_1d str_of_num col (ColO vs') false).
  split; [exact H1|]. split; [exact Hget|]. split; [exact Hlen|]. split.
  - rewrite (one_hot_encoder_run str_of_num _ r1 out [col] false H1).
    + simpl. rewrite Hget. now rewrite app_nil_r.
    + discriminate.
    + intros c [<-|[]]. congruence.
  - intros i Hi.
    rewrite (dummies_1d_row_sum str_of_num col (ColO vs') i) by (simpl; lia).
    simpl. destruct (nth i vs' None) as [x|] eqn:Ex; [reflexivity|].
    exfalso. assert (Hin : In None vs') by (rewrite <- Ex; apply nth_In; lia).
    unfold isnull_any in Hnn.
    assert (F : existsb (fun v : option string => match v with
                                                   | Some _ => false
                                                   | None => true
                                                   end) vs' = true).
    { apply existsb_exists. now exists None. }
    congruence.
Qed.
End Pipelines.

Lemma one_hot_encoder_result_aliasing_witness :
  houses_store !! 1%positive = Some houses /\
  exists h2,
    bind (one_hot_encoder (fun _ => EmptyString) 1%positive [] true)
         (fun r' => label_encoder r' "Neighborhood") houses_store = (inr 1%positive, h2) /\
    h2 !! 1%positive =
      Some (setitem houses "Neighborhood"
              (label_codes (ColO [Some "A"; Some "B"; None; Some "A"]%string))).
Proof.
  split; [reflexivity|].
  destruct (one_hot_encoder_result_aliasing (fun _ => EmptyString) houses_store 1%positive
              houses "Neighborhood" (ColO [Some "A"; Some "B"; None; Some "A"]%string)
              [] true eq_refl eq_refl) as [Hsame _].
  exact Hsame.
Defined.

Lemma impute_then_one_hot_witness :
  houses_store !! 1%positive = Some houses /\
  exists r1 h1,
    quick_missing_imp 1%positive "median" 17 "SalePrice" houses_store = (inr r1, h1) /\
    exists out vs' block,
      h1 !! r1 = Some out /\
      getitem out "Neighborhood" = Some (ColO vs') /\
      (row_sum block 2 == 1)%Q.
Proof.
  split; [reflexivity|].
  pose proof (quick_missing_imp_run houses_store 1%positive houses "median" 17 "SalePrice"
                eq_refl) as Hrun.
  cbv zeta in Hrun.
  destruct (cat_filled_all 17 (dcols houses)) as [cs1|] eqn:Hcs;
    [|vm_compute in Hcs; discriminate].
  eexists _, _. split; [exact Hrun|].
  pose proof (fun Hne Hu =>
                impute_then_one_hot (fun _ => EmptyString) houses_store _ 1%positive _ houses
                  "median" 17 "SalePrice" "Neighborhood"
                  [Some "A"; Some "B"; None; Some "A"]%string eq_refl eq_refl Hne Hu Hrun)
    as Hthm.
  destruct Hthm as (out & vs' & r2 & block & H1 & H2 & _ & _ & H5);
    [discriminate|vm_compute; discriminate|].
  exists out, vs', block. split; [exact H1|]. split; [exact H2|].
  apply H5. simpl. lia.
Defined.

(** ** Encoding twice *)

Section CodesSegment.
Context {A : Type} `{CellLaws A} `{!CellOrder A}.

(** the codes in use are 0, ..., K - 1, where K = [len(s.unique())] *)
Lemma fit_transform_segment (vs : list (option A)) (c : nat) :
  In c (fit_transform vs) <-> (c < unique_len vs)%nat.
Proof.
  unfold unique_len. split.
  - intros Hin. apply In_nth_error in Hin as [i Hi].
    unfold fit_transform in Hi. rewrite nth_error_map in Hi.
    destruct (nth_error vs i) as [[x|]|] eqn:Ei; simpl in Hi; [| |discriminate].
    + destruct (fit_transform_present vs i x Ei) as (c' & y & E & Ec & Hlt & _).
      injection Hi as <-. subst c'. lia.
    + injection Hi as <-.
      assert (En : isnull_any vs = true).
      { unfold isnull_any. apply existsb_exists. exists None.
        split; [eapply nth_error_In; exact Ei|reflexivity]. }
      rewrite En. unfold levels, nunique. rewrite isort_length. lia.
  - intros Hc. destruct (Nat.lt_ge_cases c (nunique vs)) as [Hlt|Hge].
    + destruct (fit_transform_covers vs c Hlt) as (i & x & _ & Hi).
      eapply nth_error_In. exact Hi.
    + destruct (isnull_any vs) eqn:En; [|lia].
      assert (Ec : c = nunique vs) by lia. subst c.
      unfold isnull_any in En. apply existsb_exists in En as ([x|] & Hin & Hx);
        [discriminate|].
      unfold fit_transform. apply in_map_iff. exists None. split; [|exact Hin].
      simpl. unfold levels, nunique. now rewrite isort_length.
Qed.
End CodesSegment.

Lemma of_nat_Q_inj (a b : nat) : (of_nat_Q a == of_nat_Q b)%Q -> a = b.
Proof. unfold of_nat_Q, Qeq. simpl. lia. Qed.

Lemma of_nat_Q_lt (a b : nat) : (a < b)%nat -> (of_nat_Q a < of_nat_Q b)%Q.
Proof. intros Hlt. unfold of_nat_Q. rewrite <- Zlt_Qlt. lia. Qed.

Lemma strictly_sorted_unique (l1 l2 : list Q) :
  StronglySorted Qlt l1 -> StronglySorted Qlt l2 ->
  (forall x, In x l1 <-> In x l2) -> l1 = l2.
Proof.
  intros H1. revert l2. induction H1 as [|a l1 Hs1 IH Ha]; intros l2 H2 Hmem.
  - destruct l2 as [|b l2]; [reflexivity|]. exfalso. apply (Hmem b). now left.
  - destruct H2 as [|b l2 Hs2 Hb]; [exfalso; apply (Hmem a); now left|].
    rewrite List.Forall_forall in Ha, Hb.
    assert (E : a = b).
    { destruct (proj1 (Hmem a) (or_introl eq_refl)) as [E|Hin]; [now symmetry|].
      destruct (proj2 (Hmem b) (or_introl eq_refl)) as [E|Hin']; [exact E|].
      exfalso. pose proof (Ha b Hin'). pose proof (Hb a Hin). lra. }
    subst b. f_equal. apply IH; [exact Hs2|]. intros x. split; intros Hx.
    + destruct (proj1 (Hmem x) (or_intror Hx)) as [E|Hin]; [|exact Hin].
      subst x. pose proof (Ha a Hx). lra.
    + destruct (proj2 (Hmem x) (or_intror Hx)) as [E|Hin]; [|exact Hin].
      subst x. pose proof (Hb a Hx). lra.
Qed.

Lemma seq_Q_strict (a n : nat) : StronglySorted Qlt (List.map of_nat_Q (seq a n)).
Proof.
  revert a. induction n as [|n IH]; intros a; simpl; [constructor|].
  constructor; [apply IH|]. apply List.Forall_forall. intros x Hx.
  apply in_map_iff in Hx as (j & <- & Hj). apply in_seq in Hj.
  apply of_nat_Q_lt. lia.
Qed.

Lemma index_of_seq_Q (a n c : nat) :
  (a <= c < a + n)%nat ->
  index_of (of_nat_Q c) (List.map of_nat_Q (seq a n)) = (c - a)%nat.
Proof.
  revert a. induction n as [|n IH]; intros a Hc; [lia|]. simpl.
  destruct (Qeq_bool (of_nat_Q c) (of_nat_Q a)) eqn:E.
  - apply Qeq_bool_iff, of_nat_Q_inj in E. lia.
  - assert (Hne : c <> a).
    { intros ->. assert (F : Qeq_bool (of_nat_Q a) (of_nat_Q a) = true)
        by (apply Qeq_bool_iff; reflexivity). congruence. }
    rewrite IH by lia. lia.
Qed.

(** a column of codes 0, ..., K - 1 is encoded by itself *)
Lemma fit_transform_codes (codes : list nat) (K : nat) :
  (forall c, In c codes <-> (c < K)%nat) ->
  fit_transform (List.map (fun n => Some (of_nat_Q n)) codes) = codes.
Proof.
  intros Hseg. set (col := List.map (fun n => Some (of_nat_Q n)) codes).
  assert (Hcol : forall x, In (Some x) col <-> exists c, x = of_nat_Q c /\ (c < K)%nat).
  { intros x. unfold col. rewrite in_map_iff. split.
    - intros (c & [= <-] & Hc). exists c. split; [reflexivity|now apply Hseg].
    - intros (c & -> & Hc). exists c. split; [reflexivity|now apply Hseg]. }
  assert (Hlev : levels col = List.map of_nat_Q (seq 0 K)).
  { apply strictly_sorted_unique.
    - apply sorted_distinct_strict; [apply isort_sorted_Q|apply levels_count_le].
    - apply seq_Q_strict.
    - intros x. rewrite in_map_iff. split.
      + intros Hx. apply levels_from, Hcol in Hx as (c & -> & Hc).
        exists c. split; [reflexivity|apply in_seq; lia].
      + intros (c & <- & Hc). apply in_seq in Hc.
        assert (Hin : In (Some (of_nat_Q c)) col) by (apply Hcol; exists c; split; [reflexivity|lia]).
        destruct (index_of_found _ _ (levels_memb col _ Hin)) as [_ (y & Hy & E)].
        apply nth_error_In in Hy. pose proof Hy as Hy'.
        apply levels_from, Hcol in Hy' as (c' & -> & _).
        simpl in E. apply Qeq_bool_iff, of_nat_Q_inj in E. now subst c'. }
  unfold fit_transform. rewrite Hlev. unfold col. rewrite List.map_map.
  transitivity (List.map (fun c : nat => c) codes); [|apply List.map_id].
  apply map_ext_in. intros c Hc. simpl.
  rewrite index_of_seq_Q by (apply Hseg in Hc; lia). lia.
Qed.

(** [label_encoder] is idempotent: encoding a text column and then encoding
    the column of codes again leaves the frame as the first call left it. *)
Theorem label_encoder_idempotent (h : store) (r : ref) (df : DataFrame) (col : string)
    (vs : list (option string)) :
  h !! r = Some df ->
  getitem df col = Some (ColO vs) ->
  exists h1,
    label_encoder r col h = (inr r, h1) /\
    label_encoder r col h1 = (inr r, h1).
Proof.
  intros Hr Hc. eexists. split; [apply (label_encoder_run h r df col (ColO vs) Hr Hc)|].
  set (df1 := setitem df col (label_codes (ColO vs))).
  assert (H1 : (<[r := df1]> h) !! r = Some df1) by apply lookup_insert_eq.
  assert (Hc1 : getitem df1 col = Some (label_codes (ColO vs))) by apply getitem_setitem.
  rewrite (label_encoder_run _ r df1 col _ H1 Hc1). f_equal.
  rewrite insert_insert_eq. f_equal.
  assert (Hfix : label_codes (label_codes (ColO vs)) = label_codes (ColO vs)).
  { change (label_codes (label_codes (ColO vs)))
      with (ColN (List.map (fun n => Some (of_nat_Q n))
                    (fit_transform (List.map (fun n => Some (of_nat_Q n)) (fit_transform vs))))).
    rewrite (fit_transform_codes (fit_transform vs) (unique_len vs)); [reflexivity|].
    intros c. apply fit_transform_segment. }
  rewrite Hfix. unfold df1. apply setitem_setitem.
Qed.

Lemma label_encoder_idempotent_witness :
  houses_store !! 1%positive = Some houses /\
  exists h1,
    label_encoder 1%positive "Neighborhood" houses_store = (inr 1%positive, h1) /\
    label_encoder 1%positive "Neighborhood" h1 = (inr 1%positive, h1).
Proof.
  split; [reflexivity|].
  apply (label_encoder_idempotent houses_store 1%positive houses "Neighborhood"
           [Some "A"; Some "B"; None; Some "A"]%string); reflexivity.
Defined.
